(** * junior.guru: role reconciliation, job pipelines and onboarding replay

    A shallow embedding of the rule-driven functions of the junior.guru
    synchronisation scripts, with the properties their specification states.

    - [Roles]      : [juniorguru/sync/roles.py]
    - [Blocklist]  : [juniorguru/sync/jobs_scraped/pipelines/blocklist.py]
    - [Locations]  : [juniorguru/sync/jobs/pipelines/locations.py]
    - [Onboarding] : [prepare_messages] of [juniorguru/sync/onboarding.py]

    Python integers are [Z], Python strings are [string], a list is a [list],
    a set of integers is a [gset Z], and a dictionary whose iteration order
    matters is an association list in insertion order. *)

From stdpp Require Import base option list sets gmap strings sorting.
From Stdlib Require Import ZArith Lia Ascii.

Local Open Scope Z_scope.
Set Warnings "-clear-no-such-hyp".

(** ** Role reconciliation *)

Module Roles.

(** The operation of a change, the strings ['add'] and ['remove']. *)
Inductive Op : Set := add | remove.

#[global] Instance Op_eq_dec : EqDecision Op.
Proof. solve_decision. Defined.

(** A change is the triple [(member_id, op, role_id)]. *)
Definition Change : Type := Z * Op * Z.

(** [evaluate_changes] only asks its two collections for membership ([in]),
    and its callers pass lists as well as sets, so the embedding takes any
    two collection types with a decidable membership. *)
Definition evaluate_changes
    {R T : Type} `{ElemOf Z R, !RelDecision (∈@{R}),
                   ElemOf Z T, !RelDecision (∈@{T})}
    (member_id : Z) (initial_roles_ids : R) (role_members_ids : T)
    (role_id : Z) : list Change :=
  if bool_decide (member_id ∈ role_members_ids)
     && negb (bool_decide (role_id ∈ initial_roles_ids))
  then [(member_id, add, role_id)]
  else if negb (bool_decide (member_id ∈ role_members_ids))
          && bool_decide (role_id ∈ initial_roles_ids)
  then [(member_id, remove, role_id)]
  else [].

(** A club member, with the fields the reconciliation reads. *)
Record ClubUser : Type := {
  id : Z;
  initial_roles : list Z;
}.

(** The loops of [discord_task] that fill [changes]: for each managed role,
    taken with the collection of member ids its rule computed, and for each
    member, [changes.extend(evaluate_changes(...))]. *)
Definition compute_changes (members : list ClubUser)
    (managed : list (Z * list Z)) : list Change :=
  '(role_id, role_members_ids) ← managed;
  member ← members;
  evaluate_changes (id member) (initial_roles member) role_members_ids role_id.

(** The guild as [apply_changes] sees it: the roles [fetch_roles] returns
    and, for each member [fetch_member] finds, the roles the member holds. *)
Record Guild : Type := {
  guild_roles : gset Z;
  guild_members : gmap Z (gset Z);
}.

(** [dict(add=[], remove=[])] *)
Record MemberChanges : Type := {
  to_add : list Z;
  to_remove : list Z;
}.

(** [changes[op].append(role_id)] *)
Definition append_change (op : Op) (role_id : Z) (c : MemberChanges)
    : MemberChanges :=
  match op with
  | add => {| to_add := to_add c ++ [role_id]; to_remove := to_remove c |}
  | remove => {| to_add := to_add c; to_remove := to_remove c ++ [role_id] |}
  end.

(** One turn of the grouping loop, on the dictionary [changes_by_members]
    kept in insertion order: [setdefault] then [append]. *)
Fixpoint register_change (by_members : list (Z * MemberChanges))
    (member_id : Z) (op : Op) (role_id : Z) : list (Z * MemberChanges) :=
  match by_members with
  | [] =>
      [(member_id, append_change op role_id {| to_add := []; to_remove := [] |})]
  | (m, c) :: rest =>
      if decide (m = member_id)
      then (m, append_change op role_id c) :: rest
      else (m, c) :: register_change rest member_id op role_id
  end.

Definition changes_by_members (changes : list Change)
    : list (Z * MemberChanges) :=
  foldl (λ by_members '(member_id, op, role_id),
           register_change by_members member_id op role_id) [] changes.

(** [[all_discord_roles[role_id] for role_id in ids]]: [None] is the
    [KeyError] of a role id the guild does not have. *)
Definition lookup_roles (g : Guild) (ids : list Z) : option (list Z) :=
  mapM (λ role_id, if decide (role_id ∈ guild_roles g)
                   then Some role_id else None) ids.

(** The [if changes['add']:] block, which looks the roles up and calls
    [add_roles] with them, on the roles a member holds; and the same for
    ['remove']. *)
Definition add_roles (g : Guild) (held : gset Z) (ids : list Z)
    : option (gset Z) :=
  match ids with
  | [] => Some held
  | _ => discord_roles ← lookup_roles g ids;
         Some (held ∪ list_to_set discord_roles)
  end.

Definition remove_roles (g : Guild) (held : gset Z) (ids : list Z)
    : option (gset Z) :=
  match ids with
  | [] => Some held
  | _ => discord_roles ← lookup_roles g ids;
         Some (held ∖ list_to_set discord_roles)
  end.

(** The body of the second loop of [apply_changes] for one member:
    [fetch_member], then [add_roles] when there is something to add, then
    [remove_roles] when there is something to remove. [None] stands for a
    raised exception (unknown member, unknown role). The copy of the roles
    that is saved to the database afterwards ([member.updated_roles]) is not
    part of the guild and is left out. *)
Definition apply_member_changes (g : Guild) (member_id : Z)
    (c : MemberChanges) : option Guild :=
  held ← guild_members g !! member_id;
  held ← add_roles g held (to_add c);
  held ← remove_roles g held (to_remove c);
  Some {| guild_roles := guild_roles g;
          guild_members := <[member_id := held]> (guild_members g) |}.

Fixpoint apply_grouped (g : Guild) (by_members : list (Z * MemberChanges))
    : option Guild :=
  match by_members with
  | [] => Some g
  | (member_id, c) :: rest =>
      g' ← apply_member_changes g member_id c;
      apply_grouped g' rest
  end.

Definition apply_changes (g : Guild) (changes : list Change) : option Guild :=
  apply_grouped g (changes_by_members changes).

(** [d.get(k)] and [d[k] = v] on a dictionary kept in insertion order: a key that is
    already there keeps its place and takes the new value. *)
Fixpoint dict_get {V : Type} (d : list (Z * V)) (k : Z) : option V :=
  match d with
  | [] => None
  | (k', v') :: rest => if decide (k' = k) then Some v' else dict_get rest k
  end.

Fixpoint dict_set {V : Type} (d : list (Z * V)) (k : Z) (v : V)
    : list (Z * V) :=
  match d with
  | [] => [(k, v)]
  | (k', v') :: rest =>
      if decide (k' = k) then (k', v) :: rest else (k', v') :: dict_set rest k v
  end.

(** [Counter({member.id: calc_member_fn(member) for member in members})] *)
Definition member_counter (members : list ClubUser)
    (calc_member_fn : ClubUser → Z) : list (Z * Z) :=
  foldl (λ d member, dict_set d (id member) (calc_member_fn member)) [] members.

(** [Counter.most_common()] is [sorted(items, key=itemgetter(1),
    reverse=True)]. Python's sort is stable, also with [reverse=True], and
    the stable sorted arrangement of a list is unique, so a stable insertion
    sort computes the same list: [insert_desc] puts an entry in front of the
    first one whose count is not greater. *)
Fixpoint insert_desc (x : Z * Z) (l : list (Z * Z)) : list (Z * Z) :=
  match l with
  | [] => [x]
  | y :: l' => if decide (y.2 ≤ x.2) then x :: y :: l' else y :: insert_desc x l'
  end.

Definition most_common (counter : list (Z * Z)) : list (Z * Z) :=
  foldr insert_desc [] counter.

(** The limit is a number of members ([ClubUser.top_members_limit()] at the
    call sites), hence a natural number; for such a limit the slice [[:n]]
    is [take n]. The returned dictionary is the sliced list of pairs, in
    order. *)
Definition calc_stats (members : list ClubUser)
    (calc_member_fn : ClubUser → Z) (top_members_limit : nat)
    : list (Z * Z) :=
  take top_members_limit (most_common (member_counter members calc_member_fn)).

(** The role ids that the changes of a list add to, or remove from, one
    member, in the order of the list. *)
Definition roles_of (op : Op) (member_id : Z) (changes : list Change)
    : list Z :=
  omap (λ c : Change,
          if decide (c.1.1 = member_id ∧ c.1.2 = op) then Some c.2 else None)
       changes.

(** The changes of one member, as the grouping accumulates them. *)
Definition no_changes : MemberChanges := {| to_add := []; to_remove := [] |}.

Definition extend_changes (c : MemberChanges) (member_id : Z)
    (changes : list Change) : MemberChanges :=
  {| to_add := to_add c ++ roles_of add member_id changes;
     to_remove := to_remove c ++ roles_of remove member_id changes |}.

(** The roles a member holds once the grouped changes are applied. *)
Definition reconcile (c : MemberChanges) (held : gset Z) : gset Z :=
  (held ∪ list_to_set (to_add c)) ∖ list_to_set (to_remove c).

#[global] Instance ClubUser_eq_dec : EqDecision ClubUser.
Proof. solve_decision. Defined.

(** A small club: two members, three managed roles (100, 101, 102) and one
    role (200) that no rule manages. *)
Definition sample_members : list ClubUser :=
  [ {| id := 1; initial_roles := [100; 200] |};
    {| id := 2; initial_roles := [101] |} ].

Definition sample_managed : list (Z * list Z) :=
  [ (100, [2]); (101, [1; 2]); (102, []) ].

Definition sample_guild : Guild :=
  {| guild_roles := {[100; 101; 102; 200]};
     guild_members := {[ 1 := {[100; 200]}; 2 := {[101]} ]} |}.

(** Four members and their message counts: 5, 7, 5 and 7. *)
Definition sample_ranking : list ClubUser :=
  [ {| id := 1; initial_roles := [] |}; {| id := 2; initial_roles := [] |};
    {| id := 3; initial_roles := [] |}; {| id := 4; initial_roles := [] |} ].

Definition sample_count (member : ClubUser) : Z :=
  if decide (id member = 2 ∨ id member = 4) then 7 else 5.

(** The order of [most_common]: counts do not increase. *)
Definition count_ge (x y : Z * Z) : Prop := y.2 ≤ x.2.

(** [before a b l]: some occurrence of [a] in [l] comes before some
    occurrence of [b]. *)
Inductive before {A : Type} (a b : A) : list A → Prop :=
  | before_here l : b ∈ l → before a b (a :: l)
  | before_later c l : before a b l → before a b (c :: l).

End Roles.

(** ** Python's library, as far as the pipelines use it

    The pipelines call the regular-expression engine ([re.compile],
    [Pattern.search]), [repr] and [str.lower]. Their definitions below take
    these as parameters, so what is proved holds for the library as it is.
    This module gives them on byte strings for the patterns that occur in the
    repository (literal characters, [\b], one level of [(a|b)] groups,
    [re.I]); on ASCII text they compute what Python computes, and they serve
    to run the definitions on sample data. *)

Module Python.

(** A compiled pattern: its source ([Pattern.pattern]) and whether [re.I]
    was given. *)
Record Pattern : Type := {
  pattern : string;
  ignorecase : bool;
}.

Definition compile (pattern : string) (ignorecase : bool) : Pattern :=
  {| pattern := pattern; ignorecase := ignorecase |}.

Inductive atom : Type :=
  | Lit (c : ascii)
  | WordBoundary
  | Alt (alts : list string).

Fixpoint parse (group : option (list string * string)) (s : string)
    : list atom :=
  match s, group with
  | EmptyString, _ => []
  | String c s', Some (alts, alt) =>
      if decide (c = "|"%char)
      then parse (Some (alts ++ [alt], EmptyString)) s'
      else if decide (c = ")"%char)
      then Alt (alts ++ [alt]) :: parse None s'
      else parse (Some (alts, alt +:+ String c EmptyString)) s'
  | String c s', None =>
      if decide (c = "("%char) then parse (Some ([], EmptyString)) s'
      else if decide (c = "\"%char) then
        match s' with
        | String "b"%char s'' => WordBoundary :: parse None s''
        | _ => Lit c :: parse None s'
        end
      else Lit c :: parse None s'
  end.

Definition in_range (lo hi : N) (c : ascii) : bool :=
  ((lo <=? N_of_ascii c) && (N_of_ascii c <=? hi))%N.

(** [\w]: letters, digits and the underscore; the bytes of a character
    outside ASCII count as part of a word. *)
Definition is_word (c : option ascii) : bool :=
  match c with
  | None => false
  | Some c => in_range 48 57 c || in_range 65 90 c || in_range 97 122 c
              || bool_decide (c = "_"%char) || in_range 128 255 c
  end.

Definition lower_ascii (c : ascii) : ascii :=
  if in_range 65 90 c then ascii_of_N (N_of_ascii c + 32) else c.

Definition same_char (ic : bool) (c d : ascii) : bool :=
  if ic then bool_decide (lower_ascii c = lower_ascii d)
  else bool_decide (c = d).

Definition first_char (s : string) : option ascii :=
  match s with
  | EmptyString => None
  | String c _ => Some c
  end.

(** Consumes the literal [lit] at the start of [s]; gives the last character
    consumed and the rest. *)
Fixpoint consume (ic : bool) (lit : string) (prev : option ascii) (s : string)
    : option (option ascii * string) :=
  match lit with
  | EmptyString => Some (prev, s)
  | String c lit' =>
      match s with
      | EmptyString => None
      | String d s' =>
          if same_char ic c d then consume ic lit' (Some d) s' else None
      end
  end.

(** [match_here ic atoms prev s]: the atoms match at the start of [s], which
    comes after the character [prev]. *)
Fixpoint match_here (ic : bool) (atoms : list atom) (prev : option ascii)
    (s : string) : bool :=
  match atoms with
  | [] => true
  | Lit c :: rest =>
      match s with
      | EmptyString => false
      | String d s' => same_char ic c d && match_here ic rest (Some d) s'
      end
  | WordBoundary :: rest =>
      xorb (is_word prev) (is_word (first_char s)) && match_here ic rest prev s
  | Alt alts :: rest =>
      existsb (λ alt, match consume ic alt prev s with
                      | Some (prev', s') => match_here ic rest prev' s'
                      | None => false
                      end) alts
  end.

Fixpoint search_from (ic : bool) (atoms : list atom) (prev : option ascii)
    (s : string) : bool :=
  match_here ic atoms prev s
  || match s with
     | EmptyString => false
     | String d s' => search_from ic atoms (Some d) s'
     end.

(** [value_re.search(value)] finds a match. *)
Definition search (value_re : Pattern) (value : string) : bool :=
  search_from (ignorecase value_re) (parse None (pattern value_re)) None value.

(** [str.lower] on UTF-8 text, for the letters of ASCII, of Latin-1 and of
    Latin Extended-A from U+0100 to U+012F and from U+0141 to U+017E, which
    cover Czech. [lower_second lead c] lowers the second byte of a two-byte
    character with the lead byte [lead]. *)
Definition even_byte (c : ascii) : bool := N.even (N_of_ascii c).

Definition lower_second (lead c : ascii) : ascii :=
  let next := ascii_of_N (N_of_ascii c + 1) in
  if bool_decide (N_of_ascii lead = 195%N) then
    if in_range 128 158 c && negb (bool_decide (N_of_ascii c = 151%N))
    then ascii_of_N (N_of_ascii c + 32) else c
  else if bool_decide (N_of_ascii lead = 196%N) then
    if in_range 128 175 c && even_byte c then next else c
  else
    if (in_range 138 183 c && even_byte c)
       || (in_range 129 136 c && negb (even_byte c))
       || (in_range 185 190 c && negb (even_byte c))
    then next else c.

Fixpoint lower (s : string) : string :=
  match s with
  | EmptyString => EmptyString
  | String c s' =>
      match s' with
      | String d s'' =>
          if in_range 195 197 c
          then String c (String (lower_second c d) (lower s''))
          else String (lower_ascii c) (lower s')
      | EmptyString => String (lower_ascii c) EmptyString
      end
  end.

(** [repr] of a string without quotes and control characters: the text
    between single quotes, each backslash doubled. *)
Fixpoint escape (s : string) : string :=
  match s with
  | EmptyString => EmptyString
  | String c s' =>
      if decide (c = "\"%char) then String c (String c (escape s'))
      else String c (escape s')
  end.

Definition repr (s : string) : string := "'" +:+ escape s +:+ "'".

End Python.

(** ** The blocklist stage of the scraped-jobs pipeline *)

Module Blocklist.

Import Python.

Definition BLOCKLIST : list (string * Pattern) :=
  [ ("title", compile "\b(plc|cnc) programátor" true);
    ("title", compile "elektro" true);
    ("title", compile "\bkonstruktér" true);
    ("title", compile "\bcae inženýr" true);
    ("title", compile "\bseřizovač" true) ].

(** The value of a field the rules read: a string or [None]. *)
Inductive Value : Type :=
  | VNone
  | VStr (s : string).

(** A job item, from field names to values. *)
Abbreviation Item := (gmap string Value).

(** [item.get(field) or ''] *)
Definition get_or_empty (item : Item) (field : string) : string :=
  match item !! field with
  | Some (VStr s) => s
  | Some VNone | None => ""
  end.

(** What [process] does: it returns the item or raises [DropItem]. *)
Inductive Result : Type :=
  | Returned (item : Item)
  | DropItem (message : string).

Section process.

(** The regular-expression engine and [repr]. *)
Variable search : Pattern → string → bool.
Variable repr : string → string.

Definition drop_message (field value : string) (value_re : Pattern)
    : string :=
  "Blocklist rule applied: " +:+ field +:+ " value " +:+ repr value
    +:+ " matches " +:+ repr (pattern value_re).

(** The [for] loop over the rules. *)
Fixpoint scan (rules : list (string * Pattern)) (item : Item) : Result :=
  match rules with
  | [] => Returned item
  | (field, value_re) :: rest =>
      let value := get_or_empty item field in
      if search value_re value
      then DropItem (drop_message field value value_re)
      else scan rest item
  end.

Definition process (item : Item) : Result := scan BLOCKLIST item.

End process.

(** Two items: an electrician's job and a programmer's job. *)
Definition sample_dropped : Item :=
  {[ "title" := VStr "Elektromechanik CNC" ]}.

Definition sample_kept : Item :=
  {[ "title" := VStr "Junior Python Developer"; "company_name" := VNone ]}.

End Blocklist.

(** ** The locations stage of the jobs pipeline *)

Module Locations.

Import Python.

(** An address as the geocoding gives it: a dictionary of strings. *)
Abbreviation Address := (gmap string string).

Definition OPTIMIZATIONS : list (Pattern * Address) :=
  (λ '(pattern, value), (compile pattern false, value)) <$>
  [ ("\bPraha\b",
     {[ "place" := "Praha"; "region" := "Praha"; "country" := "Česko" ]});
    ("\bPrague\b",
     {[ "place" := "Praha"; "region" := "Praha"; "country" := "Česko" ]});
    ("\bBrno\b",
     {[ "place" := "Brno"; "region" := "Brno"; "country" := "Česko" ]});
    ("\bOstrava\b",
     {[ "place" := "Ostrava"; "region" := "Ostrava"; "country" := "Česko" ]})
  ].

Definition REGIONS_MAPPING : gmap string string :=
  list_to_map
    [ ("Deutschland", "Německo");
      ("Polska", "Polsko");
      ("Österreich", "Rakousko");
      ("Hlavní město Praha", "Praha");
      ("Středočeský kraj", "Praha");
      ("Jihočeský kraj", "České Budějovice");
      ("Plzeňský kraj", "Plzeň");
      ("Karlovarský kraj", "Karlovy Vary");
      ("Ústecký kraj", "Ústí nad Labem");
      ("Liberecký kraj", "Liberec");
      ("Královéhradecký kraj", "Hradec Králové");
      ("Pardubický kraj", "Pardubice");
      ("Olomoucký kraj", "Olomouc");
      ("Moravskoslezský kraj", "Ostrava");
      ("Jihomoravský kraj", "Brno");
      ("Zlínský kraj", "Zlín");
      ("Kraj Vysočina", "Jihlava") ].

(** The exceptions ([Exception] and its subclasses) that the stage meets.
    [MissingKey] is the [KeyError] that [parse_location] raises in place of
    the one of the dictionary, with the address in its message. *)
Inductive Exception : Type :=
  | KeyError (key : string)
  | MissingKey (address : Address) (key : string)
  | GeocodeError (message : string)
  | OtherError (name message : string).

Inductive Outcome (A : Type) : Type :=
  | Returned (a : A)
  | Raised (e : Exception).
Arguments Returned {A} a.
Arguments Raised {A} e.

(** Code without effects that may raise. *)
Definition and_then {A B : Type} (r : Outcome A) (k : A → Outcome B)
    : Outcome B :=
  match r with
  | Returned a => k a
  | Raised e => Raised e
  end.

(** Code that may raise and that acts on a state of type [S]: the world a
    geocoding function talks to, or the record of the calls made. *)
Definition Py (S A : Type) : Type := S → Outcome A * S.

Definition ret {S A : Type} (a : A) : Py S A := λ s, (Returned a, s).

Definition raise {S A : Type} (e : Exception) : Py S A := λ s, (Raised e, s).

Definition lift {S A : Type} (r : Outcome A) : Py S A := λ s, (r, s).

Definition bind {S A B : Type} (m : Py S A) (k : A → Py S B) : Py S B :=
  λ s, match m s with
       | (Returned a, s') => k a s'
       | (Raised e, s') => (Raised e, s')
       end.

(** [try: m  except Exception as e: handler e] *)
Definition try_except {S A : Type} (m : Py S A) (handler : Exception → Py S A)
    : Py S A :=
  λ s, match m s with
       | (Returned a, s') => (Returned a, s')
       | (Raised e, s') => handler e s'
       end.

(** A comprehension [[f(x) for x in xs]] whose body acts on the state. *)
Fixpoint for_each {S A B : Type} (f : A → Py S B) (xs : list A)
    : Py S (list B) :=
  match xs with
  | [] => ret []
  | x :: rest =>
      bind (f x) (λ y,
      bind (for_each f rest) (λ ys,
      ret (y :: ys)))
  end.

(** A geocoding function: from a raw location to an address or [None]. *)
Abbreviation Geocode S := (string → Py S (option Address)).

(** [d[key]] *)
Definition getitem (d : Address) (key : string) : Outcome string :=
  match d !! key with
  | Some v => Returned v
  | None => Raised (KeyError key)
  end.

(** An entry of [item['locations']], made by [dict(name=name,
    region=region)]. *)
Record Location : Type := {
  name : string;
  region : string;
}.

#[global] Instance Location_eq_dec : EqDecision Location.
Proof. solve_decision. Defined.

(** A job item, with the fields the stage reads and writes; [None] is a
    field that is not set. *)
Record Item : Type := {
  title : option string;
  company_name : option string;
  locations_raw : option (list string);
  locations : option (list Location);
}.

(** [item['locations'] = value] *)
Definition set_locations (item : Item) (value : list Location) : Item :=
  {| title := title item;
     company_name := company_name item;
     locations_raw := locations_raw item;
     locations := Some value |}.

(** [set(iterable)] followed by the iteration of the set. Python fixes that
    the set holds each element of the iterable once; the order of the
    iteration is that of the hash table. *)
Record SetOrder (A : Type) : Type := {
  set_list : list A → list A;
  set_list_NoDup : ∀ l, NoDup (set_list l);
  set_list_elem : ∀ l x, x ∈ set_list l ↔ x ∈ l;
}.
Arguments set_list {A} _ _.
Arguments set_list_NoDup {A} _ _.
Arguments set_list_elem {A} _ _ _.

(** [lru_cache(geocode)] makes a memoizing function with a cache of its
    own, empty at first. A call looks the argument up in the cache and, when
    it is not there, calls [geocode] and stores what it returns; an exception
    passes through and nothing is stored. [cached_call] is one call on a
    given cache, and gives the result with the cache afterwards. (The bound
    of 128 entries never comes into play: no cache below holds more than one
    entry.) *)
Abbreviation Cache := (gmap string (option Address)).

Definition cached_call {S : Type} (geocode : Geocode S) (cache : Cache)
    (location_raw : string) : Py S (option Address * Cache) :=
  match cache !! location_raw with
  | Some result => ret (result, cache)
  | None =>
      bind (geocode location_raw) (λ result,
      ret (result, <[location_raw := result]> cache))
  end.

Section stage.

Context {S : Type}.

(** [Pattern.search] and [str.lower] of Python, the order in which a set
    is iterated, and the body of [geocode_mapycz], which asks api.mapy.cz
    over the network. *)
Variable search : Pattern → string → bool.
Variable lower : string → string.
Variable order : SetOrder (string * string).
Variable mapycz : Geocode S.

(** The [for] loop of [wrapper]. *)
Fixpoint first_optimization (rules : list (Pattern * Address))
    (location_raw : string) : option Address :=
  match rules with
  | [] => None
  | (location_re, value) :: rest =>
      if search location_re location_raw then Some value
      else first_optimization rest location_raw
  end.

(** [optimize_geocoding(geocode)] is [wrapper]. Its last line makes a new
    cached function at every call, calls it once and drops it. *)
Definition optimize_geocoding (geocode : Geocode S) : Geocode S :=
  λ location_raw,
    match first_optimization OPTIMIZATIONS location_raw with
    | Some value => ret (Some value)
    | None =>
        bind (cached_call geocode ∅ location_raw) (λ '(result, _),
        ret result)
    end.

Definition geocode_mapycz : Geocode S := optimize_geocoding mapycz.

Definition get_region (address : Address) : Outcome string :=
  and_then (getitem address "country") (λ country,
  and_then (if String.prefix "česk" (lower country)
            then getitem address "region"
            else Returned country) (λ region,
  Returned (default region (REGIONS_MAPPING !! region)))).

(** The inner [try] of [parse_location]: the tuple is built left to
    right, and a [KeyError] is raised again with the address. *)
Definition location_tuple (address : Address) : Outcome (string * string) :=
  match and_then (getitem address "place") (λ place,
        and_then (get_region address) (λ region,
        Returned (place, region))) with
  | Raised (KeyError key) => Raised (MissingKey address key)
  | r => r
  end.

(** The logging calls have no part in the result and are left out; [item]
    is read for the log message only. *)
Definition parse_location (location_raw : string) (item : Item)
    (geocode : option (Geocode S)) : Py S (option (string * string)) :=
  let geocode := default geocode_mapycz geocode in
  try_except
    (bind (geocode location_raw) (λ address,
     match address with
     | Some address =>
         if decide (address = ∅) then ret None
         else bind (lift (location_tuple address)) (λ tuple,
              ret (Some tuple))
     | None => ret None
     end))
    (λ _, ret None).

Definition process (item : Item) (geocode : option (Geocode S))
    : Py S Item :=
  bind (for_each (λ loc, parse_location loc item geocode)
                 (default [] (locations_raw item))) (λ location_tuples,
  let location_tuples := set_list order (omap (λ t, t) location_tuples) in
  ret (set_locations item
         ((λ '(name, region), {| name := name; region := region |})
            <$> location_tuples))).

(** The states at which [process] calls [parse_location] for the raw
    locations, one after the other, from the state [s]. *)
Fixpoint visits (item : Item) (geocode : option (Geocode S))
    (raw : list string) (s : S) : list (string * S) :=
  match raw with
  | [] => []
  | loc :: rest =>
      (loc, s) :: visits item geocode rest (parse_location loc item geocode s).2
  end.

End stage.

(** Sample data: a geocoding function for a few raw locations, and an item
    that has them. *)
Definition berlin : Address :=
  {[ "place" := "Berlin"; "region" := "Berlin"; "country" := "Deutschland" ]}.

Definition sample_geocode (location_raw : string)
    : Outcome (option Address) :=
  if decide (location_raw = "Berlin") then Returned (Some berlin)
  else if decide (location_raw = "Berlin, Germany") then Returned (Some berlin)
  else if decide (location_raw = "Plzen")
  then Returned (Some {[ "place" := "Plzeň"; "country" := "Česko" ]})
  else if decide (location_raw = "Nowhere")
  then Raised (GeocodeError "Unable to geocode 'Nowhere'")
  else Returned None.

Definition sample_item : Item :=
  {| title := Some "Junior Developer";
     company_name := None;
     locations_raw :=
       Some ["Berlin"; "Nowhere"; "Plzen"; "Berlin, Germany"; "Praha 5"];
     locations := None |}.

(** A geocoding function that has no effect but to record each call. *)
Definition counted (f : string → Outcome (option Address))
    : Geocode (list string) :=
  λ location_raw calls, (f location_raw, calls ++ [location_raw]).

(** A stand-in for api.mapy.cz that finds nothing. *)
Definition offline : Geocode (list string) := counted (λ _, Returned None).

(** Two orders of iteration: by first and by last occurrence. *)
Definition first_seen {A : Type} `{EqDecision A} : SetOrder A :=
  {| set_list := remove_dups;
     set_list_NoDup := NoDup_remove_dups;
     set_list_elem := λ l x, elem_of_remove_dups l x |}.


End Locations.

(** ** The replay of the scheduled onboarding messages

    [juniorguru/sync/onboarding.py] is not among the sources; its tests
    ([tests/test_sync_onboarding.py]) and the specification are. *)

Module Onboarding.

(** A message of a channel, with the fields the replay reads (the tests
    build them in [create_message]); [created_at] is the day of the
    timestamp, as a day number. *)
Record ClubMessage : Type := {
  id : Z;
  author_id : Z;
  content : string;
  created_at : Z;
  reactions : gmap string Z;
}.

(** An operation: the id of the message to edit, or [None] for a message to
    send, and the content. *)
Definition Operation : Type := option Z * string.

Section replay.

(** The context handed to the generators, and the id of the bot
    ([JUNIORGURU_BOT] of [juniorguru/lib/club.py], not among the
    sources). *)
Context {Ctx : Type}.
Variable JUNIORGURU_BOT : Z.

(** The scheduled messages: a dictionary, in order, from a marker emoji to
    the generator of the content. *)
Definition Schedule : Type := list (string * (Ctx → string)).

(** Modelled from the spec: the content of a scheduled message, which is the
    marker, a space and the generated text (the contents that the tests
    expect from [prepare_messages]). *)
Definition prepare_message_content (emoji : string) (render : Ctx → string)
    (context : Ctx) : string :=
  emoji +:+ " " +:+ render context.

(** Modelled from the spec: the marker a message starts with, which is its
    content up to the first space. *)
Fixpoint emoji_prefix (content : string) : string :=
  match content with
  | EmptyString => EmptyString
  | String c rest =>
      if decide (c = " "%char) then EmptyString
      else String c (emoji_prefix rest)
  end.

(** [scheduled_messages.get(emoji)] *)
Fixpoint generator (scheduled_messages : Schedule) (emoji : string)
    : option (Ctx → string) :=
  match scheduled_messages with
  | [] => None
  | (e, render) :: rest =>
      if decide (e = emoji) then Some render else generator rest emoji
  end.

(** Modelled from the spec: a message matches a known marker when the bot
    wrote it and it starts with the marker of a scheduled message. *)
Definition is_scheduled (scheduled_messages : Schedule)
    (message : ClubMessage) : bool :=
  bool_decide (author_id message = JUNIORGURU_BOT)
  && bool_decide (is_Some (generator scheduled_messages
                             (emoji_prefix (content message)))).

(** Modelled from the spec: a message is read when its count of check-mark
    reactions reaches the threshold; the tests take one reaction for unread
    and two for read. *)
Definition is_read (message : ClubMessage) : bool :=
  bool_decide (2 ≤ default 0 (reactions message !! "✅")).

(** Modelled from the spec: the content a scheduled message of the history
    should have, and the edit that brings an outdated one up to date. *)
Definition expected_content (scheduled_messages : Schedule) (context : Ctx)
    (message : ClubMessage) : option string :=
  render ← generator scheduled_messages (emoji_prefix (content message));
  Some (prepare_message_content (emoji_prefix (content message)) render
          context).

Definition edit_of (scheduled_messages : Schedule) (context : Ctx)
    (message : ClubMessage) : option Operation :=
  expected ← expected_content scheduled_messages context message;
  if decide (content message = expected) then None
  else Some (Some (id message), expected).

(** Modelled from the spec: the next message to send is the first of the
    sequence whose marker no scheduled message of the history has. *)
Fixpoint next_message (scheduled_messages : Schedule)
    (past : list ClubMessage) (context : Ctx) : list Operation :=
  match scheduled_messages with
  | [] => []
  | (emoji, render) :: rest =>
      if decide (emoji ∈ (emoji_prefix ∘ content) <$> past)
      then next_message rest past context
      else [(None, prepare_message_content emoji render context)]
  end.

(** Modelled from the spec: [prepare_messages] of
    [juniorguru/sync/onboarding.py]. The scheduled messages of the history
    with outdated content are edited, in the order of the history, on any
    day. A message is sent when the history has no scheduled message, or
    when the last one is read and was not posted today; it is the next
    message of the sequence. *)
Definition prepare_messages (history : list ClubMessage)
    (scheduled_messages : Schedule) (today : Z) (context : Ctx)
    : list Operation :=
  let past := filter (λ m, is_scheduled scheduled_messages m) history in
  let edits := omap (edit_of scheduled_messages context) past in
  let sends :=
    match last past with
    | Some last_message =>
        if bool_decide (created_at last_message = today)
           || negb (is_read last_message)
        then []
        else next_message scheduled_messages past context
    | None => next_message scheduled_messages past context
    end in
  edits ++ sends.

(** What the operations do to the channel. An edit replaces the content of
    the message with the given id. A send appends a message of the bot,
    posted today, with the id and the reactions that the platform gives
    it. *)
Definition edit_message (message_id : Z) (new_content : string)
    (message : ClubMessage) : ClubMessage :=
  if decide (id message = message_id)
  then {| id := id message; author_id := author_id message;
          content := new_content; created_at := created_at message;
          reactions := reactions message |}
  else message.

Definition apply_operation (today new_id : Z) (new_reactions : gmap string Z)
    (history : list ClubMessage) (op : Operation) : list ClubMessage :=
  match op with
  | (Some message_id, new_content) =>
      edit_message message_id new_content <$> history
  | (None, new_content) =>
      history ++ [ {| id := new_id; author_id := JUNIORGURU_BOT;
                      content := new_content; created_at := today;
                      reactions := new_reactions |} ]
  end.

Definition apply_operations (today new_id : Z)
    (new_reactions : gmap string Z) (history : list ClubMessage)
    (ops : list Operation) : list ClubMessage :=
  foldl (apply_operation today new_id new_reactions) history ops.

(** A scheduled message brought up to date; other messages as they are. *)
Definition updated (scheduled_messages : Schedule) (context : Ctx)
    (message : ClubMessage) : ClubMessage :=
  if is_scheduled scheduled_messages message then
    match edit_of scheduled_messages context message with
    | Some (_, new_content) =>
        {| id := id message; author_id := author_id message;
           content := new_content; created_at := created_at message;
           reactions := reactions message |}
    | None => message
    end
  else message.

(** The markers of a schedule are emoji: none contains a space. *)
Definition plain_markers (scheduled_messages : Schedule) : Prop :=
  ∀ emoji render, (emoji, render) ∈ scheduled_messages →
                  emoji_prefix emoji = emoji.

End replay.

(** The fixtures of the tests. The bot has the id 1; a day is a day number,
    [TODAY] is day 1000 and the default [datetime(2022, 1, 1)] of the
    fixtures is day 0. *)
Definition BOT : Z := 1.
Definition TODAY : Z := 1000.

Definition SCHEDULED_MESSAGES : Schedule (Ctx := unit) :=
  [ ("👋", λ _, "First message");
    ("🌯", λ _, "Second message");
    ("💤", λ _, "Third message");
    ("🆗", λ _, "Fourth message");
    ("🟡", λ _, "Fifth message");
    ("🟥", λ _, "Sixth message");
    ("🤡", λ _, "Seventh message") ].

Definition create_message (id author_id : Z) (content : string)
    (created_at : Z) (reactions : gmap string Z) : ClubMessage :=
  {| id := id; author_id := author_id; content := content;
     created_at := created_at; reactions := reactions |}.

Definition create_bot_message (id : Z) (content : string) (created_at : Z)
    (unread : bool) : ClubMessage :=
  create_message id BOT content created_at
    (if unread then {[ "✅" := 1 ]} else {[ "✅" := 2 ]}).

(** [prepare_messages(history, SCHEDULED_MESSAGES, TODAY)], the call of the
    tests. *)
Definition run (history : list ClubMessage) : list Operation :=
  prepare_messages BOT history SCHEDULED_MESSAGES TODAY tt.

(** The history of [test_prepare_messages_edit_messages_regardless_of_dates]
    and that of [test_prepare_messages_history_with_edits]. *)
Definition history_posted_today : list ClubMessage :=
  [ create_bot_message 1 "👋 Outdated message" (TODAY - 3) false;
    create_bot_message 2 "🌯 Second message" (TODAY - 2) false;
    create_bot_message 3 "💤 Third message" (TODAY - 1) false;
    create_bot_message 4 "🆗 Outdated message" TODAY false ].

Definition history_with_edits : list ClubMessage :=
  [ create_bot_message 1 "👋 Outdated message" 0 false;
    create_bot_message 2 "🌯 Second message" 0 false;
    create_bot_message 3 "💤 Third message" 0 false;
    create_bot_message 4 "🆗 Outdated message" 0 false ].

End Onboarding.

(** ** The rules of [discord_task] that rank the members *)

Module RoleRules.

Import Roles.

(** The target of the roles [most_discussing] and [most_helpful]: the
    members of the top by a count over all time, together with the members
    of the top by the recent count,
    [set(stats.keys()) | set(recent_stats.keys())]. *)
Definition top_members_ids (members : list ClubUser)
    (count recent_count : ClubUser → Z) (top_members_limit : nat) : gset Z :=
  list_to_set (calc_stats members count top_members_limit).*1
  ∪ list_to_set (calc_stats members recent_count top_members_limit).*1.

(** The changes of one such role for all the members, as the loop of
    [discord_task] collects them. *)
Definition top_members_changes (members : list ClubUser)
    (count recent_count : ClubUser → Z) (top_members_limit : nat)
    (role_id : Z) : list Change :=
  member ← members;
  evaluate_changes (id member) (initial_roles member)
    (top_members_ids members count recent_count top_members_limit) role_id.

End RoleRules.

(** ** The roles of the partners *)

Module PartnerRoles.

Definition PARTNER_ROLE_PREFIX : string := "Firma: ".

Definition STUDENT_ROLE_PREFIX : string := "Student: ".

(** A role of the guild, as [fetch_roles] gives it. *)
Module Role.
Record t : Type := {
  id : Z;
  name : string;
}.
End Role.

(** A partner, with the fields that [manage_partner_roles] reads and
    writes; [None] is a field that is not set. *)
Module Partner.
Record t : Type := {
  name : string;
  student_coupon : option string;
  role_id : option Z;
  student_role_id : option Z;
}.
End Partner.

(** [Color.dark_grey()] and [Color.default()] *)
Inductive Color : Set := dark_grey | default_color.

(** The calls that change the guild: [role.delete()] and
    [create_role(name=..., color=..., mentionable=True)]. *)
Inductive RoleOp : Type :=
  | Delete (role : Role.t)
  | Create (name : string) (color : Color).

#[global] Instance Role_eq_dec : EqDecision Role.t.
Proof. solve_decision. Defined.

#[global] Instance Color_eq_dec : EqDecision Color.
Proof. solve_decision. Defined.

#[global] Instance RoleOp_eq_dec : EqDecision RoleOp.
Proof. solve_decision. Defined.

(** [d.get(k)] and [d[k] = v] on a dictionary kept in insertion order. *)
Fixpoint dict_get {V : Type} (d : list (string * V)) (k : string) : option V :=
  match d with
  | [] => None
  | (k', v') :: rest => if decide (k' = k) then Some v' else dict_get rest k
  end.

Fixpoint dict_set {V : Type} (d : list (string * V)) (k : string) (v : V)
    : list (string * V) :=
  match d with
  | [] => [(k, v)]
  | (k', v') :: rest =>
      if decide (k' = k) then (k', v) :: rest else (k', v') :: dict_set rest k v
  end.

(** The truth value of a coupon: [None] and the empty string are false. *)
Definition has_coupon (coupon : option string) : bool :=
  match coupon with
  | Some code => negb (bool_decide (code = ""))
  | None => false
  end.

(** The two dictionary comprehensions, from the name of a role to the
    partner, who is given by the position in the list of partners (the
    dictionaries hold the partner objects themselves, which the last loop
    changes in place). *)
Definition partner_roles_mapping (partners : list Partner.t)
    : list (string * nat) :=
  foldl (λ d '(i, partner),
           dict_set d (PARTNER_ROLE_PREFIX +:+ Partner.name partner) i)
        [] (imap pair partners).

Definition student_roles_mapping (partners : list Partner.t)
    : list (string * nat) :=
  foldl (λ d '(i, partner),
           if has_coupon (Partner.student_coupon partner)
           then dict_set d (STUDENT_ROLE_PREFIX +:+ Partner.name partner) i
           else d)
        [] (imap pair partners).

(** [role.name.startswith((PARTNER_ROLE_PREFIX, STUDENT_ROLE_PREFIX))] *)
Definition has_prefix (role_name : string) : bool :=
  String.prefix PARTNER_ROLE_PREFIX role_name
  || String.prefix STUDENT_ROLE_PREFIX role_name.

Definition set_role_id (role_id : Z) (partner : Partner.t) : Partner.t :=
  {| Partner.name := Partner.name partner;
     Partner.student_coupon := Partner.student_coupon partner;
     Partner.role_id := Some role_id;
     Partner.student_role_id := Partner.student_role_id partner |}.

Definition set_student_role_id (role_id : Z) (partner : Partner.t)
    : Partner.t :=
  {| Partner.name := Partner.name partner;
     Partner.student_coupon := Partner.student_coupon partner;
     Partner.role_id := Partner.role_id partner;
     Partner.student_role_id := Some role_id |}.

(** One turn of the last loop: the role goes to the partner of the first
    dictionary that has its name, else to the one of the second. *)
Definition assign_role (partner_roles student_roles : list (string * nat))
    (partners : list Partner.t) (role : Role.t) : list Partner.t :=
  match dict_get partner_roles (Role.name role) with
  | Some i => alter (set_role_id (Role.id role)) i partners
  | None =>
      match dict_get student_roles (Role.name role) with
      | Some i => alter (set_student_role_id (Role.id role)) i partners
      | None => partners
      end
  end.

Section manage.

(** The order in which a set of names is iterated. *)
Variable order : Locations.SetOrder string.

Definition roles_names (partners : list Partner.t) : list string :=
  (partner_roles_mapping partners).*1 ++ (student_roles_mapping partners).*1.

Definition existing_roles (discord_roles : list Role.t) : list Role.t :=
  filter (λ role, has_prefix (Role.name role)) discord_roles.

Definition roles_to_remove (discord_roles : list Role.t)
    (partners : list Partner.t) : list Role.t :=
  filter (λ role, Role.name role ∉ roles_names partners)
         (existing_roles discord_roles).

(** [set(roles_names) - {role.name for role in existing_roles}] *)
Definition roles_names_to_add (discord_roles : list Role.t)
    (partners : list Partner.t) : list string :=
  Locations.set_list order
    (filter (λ role_name,
               role_name ∉ Role.name <$> existing_roles discord_roles)
            (roles_names partners)).

(** [manage_partner_roles]: the calls made to the guild, in order, and the
    partners as they are saved. The last loop goes over the roles that were
    fetched before the call, not over the roles just created. *)
Definition manage_partner_roles (discord_roles : list Role.t)
    (partners : list Partner.t) : list RoleOp * list Partner.t :=
  let removals := Delete <$> roles_to_remove discord_roles partners in
  let additions :=
    (λ role_name,
       Create role_name
         (if String.prefix PARTNER_ROLE_PREFIX role_name
          then dark_grey else default_color))
      <$> roles_names_to_add discord_roles partners in
  (removals ++ additions,
   foldl (assign_role (partner_roles_mapping partners)
                      (student_roles_mapping partners))
         partners (existing_roles discord_roles)).

End manage.

(** The names of the roles with the two prefixes once the calls are made:
    those of the roles that are not deleted and those that are created. *)
Definition names_after (discord_roles : list Role.t) (ops : list RoleOp)
    : list string :=
  (Role.name
     <$> filter (λ role, has_prefix (Role.name role) ∧ Delete role ∉ ops)
           discord_roles)
  ++ omap (λ op, match op with Create n _ => Some n | Delete _ => None end) ops.

(** Two partners, the second with students; the guild has the role of the
    first, a role of a partner that is gone, and a role of its own. *)
Definition sample_partners : list Partner.t :=
  [ {| Partner.name := "Apify"; Partner.student_coupon := None;
       Partner.role_id := None; Partner.student_role_id := None |};
    {| Partner.name := "CoreSkill"; Partner.student_coupon := Some "STUDENT1";
       Partner.role_id := None; Partner.student_role_id := None |} ].

Definition sample_roles : list Role.t :=
  [ {| Role.id := 10; Role.name := "Firma: Apify" |};
    {| Role.id := 11; Role.name := "Firma: Gone" |};
    {| Role.id := 12; Role.name := "Moderator" |} ].

End PartnerRoles.

(** ** sync/jobs/pipelines/locations.py: the body of [geocode_mapycz] *)

Module Mapycz.

Import Locations.

Definition ADDRESS_TYPES_MAPPING : gmap string string :=
  list_to_map
    [ ("muni", "place");
      ("regi", "region");
      ("coun", "country");
      ("osmm", "place");
      ("osmr", "region");
      ("osmc", "country") ].

(** An [item] element of a response, given by its attributes. *)
Abbreviation Element := (gmap string string).

(** What comes of [requests.get], [raise_for_status], [etree.fromstring] and
    [xpath('//item')] together: the [item] elements of the document, in the
    order of the document, a [requests.RequestException], or another
    exception (of the parser, for one). *)
Inductive Response : Type :=
  | Items (items : list Element)
  | RequestException (message : string)
  | Failure (e : Exception).

(** A value in an f-string: [None] is printed as its name. *)
Definition format (value : option string) : string := default "None" value.

(** The dictionary comprehension of the reverse geocoding, item by item,
    from the dictionary built so far. [item.attrib[...]] raises [KeyError]
    for an attribute that the element does not have. *)
Fixpoint address_from (items : list Element) (address : Address)
    : Outcome Address :=
  match items with
  | [] => Returned address
  | item :: rest =>
      and_then (getitem item "type") (λ type,
      match ADDRESS_TYPES_MAPPING !! type with
      | Some key =>
          and_then (getitem item "name") (λ name,
          address_from rest (<[key := name]> address))
      | None => address_from rest address
      end)
  end.

Section body.

Context {S : Type}.

(** A request to api.mapy.cz, by its URL and parameters. *)
Variable request : string → list (string * option string) → S → Response * S.

(** The function that [optimize_geocoding] decorates. *)
Definition geocode_mapycz_body : Geocode S :=
  λ location_raw s,
    match request "https://api.mapy.cz/geocode"
            [("query", Some location_raw)] s with
    | (RequestException _, s1) =>
        (Raised (GeocodeError ("Unable to geocode '" +:+ location_raw +:+ "'")),
         s1)
    | (Failure e, s1) => (Raised e, s1)
    | (Items [], s1) => (Returned None, s1)
    | (Items (item :: _), s1) =>
        let title := item !! "title" in
        let lat := item !! "y" in
        let lng := item !! "x" in
        match request "https://api.mapy.cz/rgeocode"
                [("lat", lat); ("lon", lng)] s1 with
        | (RequestException _, s2) =>
            (Raised (GeocodeError
                       ("Unable to geocode '" +:+ location_raw
                        +:+ "' (unable to reverse geocode '" +:+ format title
                        +:+ "' lat: " +:+ format lat
                        +:+ " lng: " +:+ format lng +:+ ")")),
             s2)
        | (Failure e, s2) => (Raised e, s2)
        | (Items [], s2) =>
            (Raised (OtherError "ValueError"
                       "No items in the reverse geocode response"),
             s2)
        | (Items items, s2) =>
            (and_then (address_from items ∅) (λ address,
             Returned (Some address)),
             s2)
        end
    end.

End body.

(** A service that answers by a fixed table and records the requests. *)
Definition recorded
    (answer : string → list (string * option string) → Response)
    : string → list (string * option string)
      → list (string * list (string * option string))
      → Response * list (string * list (string * option string)) :=
  λ url params requests, (answer url params, requests ++ [(url, params)]).

(** Sample data: the service finds Plzeň and describes it twice, by its own
    types and by those of OpenStreetMap. *)
Definition sample_answer (url : string) (params : list (string * option string))
    : Response :=
  if decide (url = "https://api.mapy.cz/geocode") then
    if decide (params = [("query", Some "Plzen")])
    then Items [ {[ "title" := "Plzeň"; "x" := "13.37"; "y" := "49.74" ]} ]
    else if decide (params = [("query", Some "Timeout")])
    then RequestException "timed out"
    else Items []
  else
    Items [ {[ "type" := "muni"; "name" := "Plzeň" ]};
            {[ "type" := "dist"; "name" := "Plzeň-město" ]};
            {[ "type" := "regi"; "name" := "Plzeňský kraj" ]};
            {[ "type" := "coun"; "name" := "Česko" ]};
            {[ "type" := "osmr"; "name" := "Jihozápad" ]} ].

End Mapycz.

(** ** sync/roles.py: the role of the members of the partners *)

Module PartnerMembers.

Import Roles.

(** [list(filter(None, (partner.coupon for partner in partners)))]: the
    coupons of the partners that have one. *)
Definition coupons (partners_coupons : list (option string)) : list string :=
  omap (λ coupon, if PartnerRoles.has_coupon coupon then coupon else None)
       partners_coupons.

(** [member.coupon in coupons], where the coupon of a member may be [None]. *)
Definition coupon_in (coupon : option string) (coupons : list string) : bool :=
  match coupon with
  | Some code => bool_decide (code ∈ coupons)
  | None => false
  end.

Definition partners_members_ids (members : list ClubUser)
    (coupon : ClubUser → option string)
    (partners_coupons : list (option string)) : list Z :=
  id <$> filter (λ member, coupon_in (coupon member) (coupons partners_coupons))
           members.

(** The changes of the role [partner] for all the members. *)
Definition partner_changes (members : list ClubUser)
    (coupon : ClubUser → option string)
    (partners_coupons : list (option string)) (role_id : Z) : list Change :=
  member ← members;
  evaluate_changes (id member) (initial_roles member)
    (partners_members_ids members coupon partners_coupons) role_id.

(** Sample data: the first member has the coupon of a partner, the second
    has none and holds the role 7; one partner has no coupon. *)
Definition sample_coupon (member : ClubUser) : option string :=
  if decide (id member = 1) then Some "APIFY" else None.

Definition sample_partners_coupons : list (option string) :=
  [Some "APIFY"; None; Some EmptyString].

Definition sample_members : list ClubUser :=
  [ {| id := 1; initial_roles := [] |};
    {| id := 2; initial_roles := [7] |} ].

End PartnerMembers.

(** * Properties *)

(** ** Role reconciliation *)

Import Roles.

(** C1. [evaluate_changes] returns exactly the one [add] change when the
    member is in the target collection and the role is not among the initial
    roles, exactly the one [remove] change when the member is not in the
    target collection and the role is among the initial roles, and the empty
    list in every other case. *)
Theorem evaluate_changes_spec
    {R T : Type} `{ElemOf Z R, !RelDecision (∈@{R}),
                   ElemOf Z T, !RelDecision (∈@{T})}
    (member_id : Z) (initial_roles_ids : R) (role_members_ids : T)
    (role_id : Z) :
  (member_id ∈ role_members_ids → role_id ∉ initial_roles_ids →
     evaluate_changes member_id initial_roles_ids role_members_ids role_id
     = [(member_id, add, role_id)])
  ∧ (member_id ∉ role_members_ids → role_id ∈ initial_roles_ids →
     evaluate_changes member_id initial_roles_ids role_members_ids role_id
     = [(member_id, remove, role_id)])
  ∧ (¬ (member_id ∈ role_members_ids ∧ role_id ∉ initial_roles_ids) →
     ¬ ((member_id ∉ role_members_ids) ∧ role_id ∈ initial_roles_ids) →
     evaluate_changes member_id initial_roles_ids role_members_ids role_id
     = []).
Proof.
  unfold evaluate_changes.
  destruct (decide (member_id ∈ role_members_ids)) as [Hm|Hm];
    destruct (decide (role_id ∈ initial_roles_ids)) as [Hr|Hr];
    rewrite ?(bool_decide_eq_true_2 _ Hm), ?(bool_decide_eq_false_2 _ Hm),
            ?(bool_decide_eq_true_2 _ Hr), ?(bool_decide_eq_false_2 _ Hr);
    simpl; repeat split; intros; tauto.
Qed.

Lemma evaluate_changes_spec_witness :
  evaluate_changes 7 [10; 11] ({[7; 8]} : gset Z) 12 = [(7, add, 12)]
  ∧ evaluate_changes 9 [10; 11] ({[7; 8]} : gset Z) 11 = [(9, remove, 11)]
  ∧ evaluate_changes 7 [10; 11] ({[7; 8]} : gset Z) 10 = [].
Proof.
  split; [|split].
  - apply (evaluate_changes_spec 7 [10; 11] ({[7; 8]} : gset Z) 12).
    + set_solver.
    + intros Hin. apply list_elem_of_In in Hin. simpl in Hin. lia.
  - apply (evaluate_changes_spec 9 [10; 11] ({[7; 8]} : gset Z) 11).
    + intros Hin. apply elem_of_union in Hin.
      destruct Hin as [Hin|Hin]; apply elem_of_singleton in Hin; lia.
    + apply list_elem_of_In. simpl. lia.
  - apply (evaluate_changes_spec 7 [10; 11] ({[7; 8]} : gset Z) 10).
    + intros [_ Hn]. apply Hn. apply list_elem_of_In. simpl. lia.
    + intros [Hn _]. apply Hn. set_solver.
Defined.

(** *** Grouping the changes by member *)

Lemma dict_get_register_change by_members member_id op role_id m :
  dict_get (register_change by_members member_id op role_id) m
  = if decide (member_id = m)
    then Some (append_change op role_id
                 (default no_changes (dict_get by_members member_id)))
    else dict_get by_members m.
Proof.
  induction by_members as [|[m' c] rest IH]; simpl.
  - unfold no_changes. repeat case_decide; congruence.
  - destruct (decide (m' = member_id)) as [->|Hne]; simpl.
    + repeat case_decide; simpl; congruence.
    + rewrite IH. repeat case_decide; congruence.
Qed.

Lemma register_change_keys by_members member_id op role_id m :
  m ∈ (register_change by_members member_id op role_id).*1
  ↔ m = member_id ∨ m ∈ by_members.*1.
Proof.
  induction by_members as [|[m' c] rest IH]; simpl.
  - rewrite list_elem_of_singleton. split; [auto | intros [?|Hin]; [done|]].
    by apply elem_of_nil in Hin.
  - case_decide; simpl; rewrite !elem_of_cons, ?IH; naive_solver.
Qed.

Lemma register_change_NoDup by_members member_id op role_id :
  NoDup by_members.*1 →
  NoDup (register_change by_members member_id op role_id).*1.
Proof.
  induction by_members as [|[m' c] rest IH]; simpl; intros Hnd.
  - apply NoDup_singleton.
  - apply NoDup_cons in Hnd as [Hnotin Hnd].
    case_decide; simpl; apply NoDup_cons; split; auto.
    rewrite register_change_keys. intros [?|?]; [congruence | contradiction].
Qed.

Lemma dict_get_None {V} (d : list (Z * V)) k :
  dict_get d k = None ↔ k ∉ d.*1.
Proof.
  induction d as [|[k' v] rest IH]; simpl.
  - split; [intros _; apply not_elem_of_nil | done].
  - case_decide; subst.
    + split; [done | intros Hn; destruct Hn; left].
    + rewrite IH, not_elem_of_cons. naive_solver.
Qed.

Lemma dict_get_Some_elem {V} (d : list (Z * V)) k v :
  dict_get d k = Some v → (k, v) ∈ d.
Proof.
  induction d as [|[k' v'] rest IH]; simpl; [done|].
  case_decide; subst.
  - intros [= ->]. left.
  - intros Hg. right. auto.
Qed.

Lemma append_extend_changes c member_id op role_id m rest :
  extend_changes
    (if decide (member_id = m) then append_change op role_id c else c) m rest
  = extend_changes c m ((member_id, op, role_id) :: rest).
Proof.
  unfold extend_changes, roles_of. simpl.
  destruct (decide (member_id = m)) as [->|Hne].
  - destruct op; simpl.
    + rewrite decide_True by done. rewrite decide_False by naive_solver.
      simpl. by rewrite <- app_assoc.
    + rewrite decide_False by naive_solver. rewrite decide_True by done.
      simpl. by rewrite <- app_assoc.
  - rewrite !decide_False by naive_solver. done.
Qed.

Lemma dict_get_grouped changes by_members m :
  default no_changes
    (dict_get (foldl (λ by_members '(member_id, op, role_id),
                        register_change by_members member_id op role_id)
                     by_members changes) m)
  = extend_changes (default no_changes (dict_get by_members m)) m changes.
Proof.
  revert by_members.
  induction changes as [|[[member_id op] role_id] rest IH]; intros by_members.
  - simpl. unfold extend_changes, roles_of. simpl. rewrite !app_nil_r.
    by destruct (default _ _).
  - simpl. rewrite IH, dict_get_register_change.
    rewrite <- append_extend_changes.
    destruct (decide (member_id = m)) as [->|Hne]; done.
Qed.

Lemma grouped_keys changes by_members m :
  m ∈ (foldl (λ by_members '(member_id, op, role_id),
                register_change by_members member_id op role_id)
             by_members changes).*1
  ↔ m ∈ by_members.*1 ∨ ∃ op role_id, (m, op, role_id) ∈ changes.
Proof.
  revert by_members.
  induction changes as [|[[member_id op] role_id] rest IH]; intros by_members.
  - simpl. split; [auto|]. intros [?|(? & ? & Hin)]; [done|].
    by apply elem_of_nil in Hin.
  - simpl. rewrite IH, register_change_keys. split.
    + intros [[->|?]|(op' & r' & Hin)]; [right|left|right]; eauto.
      * exists op, role_id. left.
      * exists op', r'. by right.
    + intros [?|(op' & r' & Hin)]; [auto|].
      apply elem_of_cons in Hin as [[= -> -> ->]|Hin]; [auto|].
      right. eauto.
Qed.

Lemma grouped_NoDup changes by_members :
  NoDup by_members.*1 →
  NoDup (foldl (λ by_members '(member_id, op, role_id),
                  register_change by_members member_id op role_id)
               by_members changes).*1.
Proof.
  revert by_members.
  induction changes as [|[[member_id op] role_id] rest IH]; intros by_members Hnd.
  - done.
  - simpl. apply IH. by apply register_change_NoDup.
Qed.

Lemma elem_of_roles_of op member_id changes role_id :
  role_id ∈ roles_of op member_id changes ↔ (member_id, op, role_id) ∈ changes.
Proof.
  unfold roles_of. rewrite list_elem_of_omap. split.
  - intros ([[m o] r] & Hin & Hsome). simpl in Hsome.
    case_decide as Hd; [|done]. destruct Hd as [-> ->].
    by injection Hsome as ->.
  - intros Hin. exists (member_id, op, role_id). split; [done|]. simpl.
    by rewrite decide_True.
Qed.

(** *** Applying the grouped changes *)

Lemma lookup_roles_Some g ids :
  (∀ r, r ∈ ids → r ∈ guild_roles g) → lookup_roles g ids = Some ids.
Proof.
  unfold lookup_roles. induction ids as [|r ids IH]; intros Hall; [done|].
  simpl. rewrite decide_True by (apply Hall; left). simpl.
  rewrite IH; [done|]. intros r' Hin. apply Hall. by right.
Qed.

Lemma add_roles_Some g held ids :
  (∀ r, r ∈ ids → r ∈ guild_roles g) →
  add_roles g held ids = Some (held ∪ list_to_set ids).
Proof.
  intros Hall. destruct ids as [|r ids].
  - simpl. f_equal. set_solver.
  - unfold add_roles. by rewrite lookup_roles_Some.
Qed.

Lemma remove_roles_Some g held ids :
  (∀ r, r ∈ ids → r ∈ guild_roles g) →
  remove_roles g held ids = Some (held ∖ list_to_set ids).
Proof.
  intros Hall. destruct ids as [|r ids].
  - simpl. f_equal. set_solver.
  - unfold remove_roles. by rewrite lookup_roles_Some.
Qed.

Lemma apply_member_changes_Some g member_id c held :
  guild_members g !! member_id = Some held →
  (∀ r, r ∈ to_add c ∨ r ∈ to_remove c → r ∈ guild_roles g) →
  apply_member_changes g member_id c
  = Some {| guild_roles := guild_roles g;
            guild_members :=
              <[member_id := reconcile c held]> (guild_members g) |}.
Proof.
  intros Hheld Hall. unfold apply_member_changes. rewrite Hheld. simpl.
  rewrite add_roles_Some by auto. simpl.
  rewrite remove_roles_Some by auto. done.
Qed.

Lemma reconcile_no_changes held : reconcile no_changes held = held.
Proof. unfold reconcile, no_changes. simpl. set_solver. Qed.

Lemma apply_grouped_Some by_members :
  ∀ g,
    NoDup by_members.*1 →
    (∀ m, m ∈ by_members.*1 → is_Some (guild_members g !! m)) →
    (∀ m c r, (m, c) ∈ by_members → r ∈ to_add c ∨ r ∈ to_remove c →
              r ∈ guild_roles g) →
    ∃ g', apply_grouped g by_members = Some g'
          ∧ guild_roles g' = guild_roles g
          ∧ ∀ m, guild_members g' !! m
                 = reconcile (default no_changes (dict_get by_members m))
                     <$> guild_members g !! m.
Proof.
  induction by_members as [|[member_id c] rest IH]; intros g Hnd Hmem Hroles.
  - exists g. repeat split. intros m. simpl.
    destruct (guild_members g !! m); simpl; [|done].
    by rewrite reconcile_no_changes.
  - simpl in Hnd. apply NoDup_cons in Hnd as [Hnotin Hnd].
    destruct (Hmem member_id) as [held Hheld]; [left|].
    simpl. erewrite apply_member_changes_Some; [|done|].
    2: { intros r Hr. eapply Hroles; [left|done]. }
    simpl.
    destruct (IH {| guild_roles := guild_roles g;
                    guild_members :=
                      <[member_id := reconcile c held]> (guild_members g) |})
      as (g' & Happ & Hr & Hm); [done| | |].
    + intros m Hin. simpl. destruct (decide (member_id = m)) as [->|Hne].
      * rewrite lookup_insert_eq. eauto.
      * rewrite lookup_insert_ne by done. apply Hmem. by right.
    + intros m c' r Hin Hr. simpl. eapply Hroles; [right|]; done.
    + exists g'. split; [done|]. split; [done|]. intros m. rewrite Hm. simpl.
      destruct (decide (member_id = m)) as [->|Hne].
      * rewrite lookup_insert_eq, Hheld. simpl.
        apply dict_get_None in Hnotin. rewrite Hnotin. simpl.
        by rewrite reconcile_no_changes.
      * by rewrite lookup_insert_ne.
Qed.

(** *** The changes the rules emit *)

Lemma elem_of_evaluate_changes
    {R T : Type} `{ElemOf Z R, !RelDecision (∈@{R}),
                   ElemOf Z T, !RelDecision (∈@{T})}
    (m : Z) (op : Op) (r : Z)
    (member_id : Z) (initial_roles_ids : R) (role_members_ids : T)
    (role_id : Z) :
  (m, op, r) ∈ evaluate_changes member_id initial_roles_ids role_members_ids
                 role_id
  ↔ m = member_id ∧ r = role_id
    ∧ match op with
      | add => member_id ∈ role_members_ids ∧ role_id ∉ initial_roles_ids
      | remove => (member_id ∉ role_members_ids) ∧ role_id ∈ initial_roles_ids
      end.
Proof.
  unfold evaluate_changes.
  destruct (decide (member_id ∈ role_members_ids)) as [Hm|Hm];
    destruct (decide (role_id ∈ initial_roles_ids)) as [Hr|Hr];
    rewrite ?(bool_decide_eq_true_2 _ Hm), ?(bool_decide_eq_false_2 _ Hm),
            ?(bool_decide_eq_true_2 _ Hr), ?(bool_decide_eq_false_2 _ Hr);
    simpl; rewrite ?list_elem_of_singleton, ?elem_of_nil;
    destruct op; split; try tauto;
    try (intros [= -> ->]; tauto);
    try (intros (-> & -> & ?); tauto).
Qed.

Lemma elem_of_compute_changes members managed m op r :
  (m, op, r) ∈ compute_changes members managed
  ↔ ∃ role_members_ids member,
      (r, role_members_ids) ∈ managed ∧ member ∈ members ∧ id member = m
      ∧ match op with
        | add => m ∈ role_members_ids ∧ r ∉ initial_roles member
        | remove => (m ∉ role_members_ids) ∧ r ∈ initial_roles member
        end.
Proof.
  unfold compute_changes. rewrite list_elem_of_bind. split.
  - intros ([role_id T] & Hin & Hmanaged).
    apply list_elem_of_bind in Hin as (member & Hin & Hmember).
    apply elem_of_evaluate_changes in Hin as (-> & -> & Hop).
    exists T, member. auto.
  - intros (T & member & Hmanaged & Hmember & <- & Hop).
    exists (r, T). split; [|done].
    apply list_elem_of_bind. exists member. split; [|done].
    apply elem_of_evaluate_changes. auto.
Qed.

Lemma managed_target_unique (managed : list (Z * list Z)) r T T' :
  NoDup managed.*1 → (r, T) ∈ managed → (r, T') ∈ managed → T = T'.
Proof.
  induction managed as [|[r0 T0] rest IH]; simpl; intros Hnd H1 H2.
  - by apply elem_of_nil in H1.
  - apply NoDup_cons in Hnd as [Hnotin Hnd].
    apply elem_of_cons in H1 as [E1|H1]; apply elem_of_cons in H2 as [E2|H2].
    + congruence.
    + injection E1 as -> ->. destruct Hnotin.
      by apply (list_elem_of_fmap_2 fst _ (r0, T')).
    + injection E2 as -> ->. destruct Hnotin.
      by apply (list_elem_of_fmap_2 fst _ (r0, T)).
    + auto.
Qed.

Lemma dict_get_elem_NoDup {V} (d : list (Z * V)) k v :
  NoDup d.*1 → (k, v) ∈ d → dict_get d k = Some v.
Proof.
  induction d as [|[k' v'] rest IH]; simpl; intros Hnd Hin.
  - by apply elem_of_nil in Hin.
  - apply NoDup_cons in Hnd as [Hnotin Hnd].
    apply elem_of_cons in Hin as [E|Hin].
    + injection E as -> ->. by rewrite decide_True.
    + rewrite decide_False; [auto|]. intros ->. destruct Hnotin.
      by apply (list_elem_of_fmap_2 fst _ (k, v)).
Qed.

Lemma elem_of_reconciled member_id changes held r :
  r ∈ reconcile (extend_changes no_changes member_id changes) held
  ↔ (r ∈ held ∨ (member_id, add, r) ∈ changes)
    ∧ (member_id, remove, r) ∉ changes.
Proof.
  unfold reconcile, extend_changes. simpl.
  rewrite elem_of_difference, elem_of_union, !elem_of_list_to_set,
    !elem_of_roles_of. done.
Qed.

(** C2. Reconciliation of one member. The managed roles come with the
    target member ids of their rules, one target collection per role; the
    guild knows the managed roles, and its members hold the roles recorded
    as their initial roles. Then applying the computed changes succeeds;
    afterwards the member holds a managed role exactly when the member is in
    the role's target collection; every role outside the managed ones is held
    exactly when it was held initially; and no emitted change adds a role the
    member already holds or removes a role the member does not hold. *)
Theorem reconciliation_invariant
    (g : Guild) (members : list ClubUser) (managed : list (Z * list Z))
    (member : ClubUser) :
  NoDup managed.*1 →
  member ∈ members →
  (∀ m, m ∈ members →
        guild_members g !! id m = Some (list_to_set (initial_roles m))) →
  (∀ r, r ∈ managed.*1 → r ∈ guild_roles g) →
  ∃ g' held,
    apply_changes g (compute_changes members managed) = Some g'
    ∧ guild_members g' !! id member = Some held
    ∧ (∀ r role_members_ids,
         (r, role_members_ids) ∈ managed →
         (r ∈ held ↔ id member ∈ role_members_ids))
    ∧ (∀ r, r ∉ managed.*1 → (r ∈ held ↔ r ∈ initial_roles member))
    ∧ (∀ r, (id member, add, r) ∈ compute_changes members managed →
            r ∉ initial_roles member)
    ∧ (∀ r, (id member, remove, r) ∈ compute_changes members managed →
            r ∈ initial_roles member).
Proof.
  intros Hnd Hmember Hguild Hroles.
  set (changes := compute_changes members managed).
  assert (Hsame : ∀ m r, m ∈ members → id m = id member →
                         (r ∈ initial_roles m ↔ r ∈ initial_roles member)).
  { intros m r Hm Hid. pose proof (Hguild m Hm) as H1.
    pose proof (Hguild member Hmember) as H2. rewrite Hid, H2 in H1.
    injection H1 as H1.
    rewrite <- (elem_of_list_to_set (C := gset Z) r (initial_roles m)).
    rewrite <- (elem_of_list_to_set (C := gset Z) r (initial_roles member)).
    by rewrite H1. }
  assert (Hknown : ∀ m op r, (m, op, r) ∈ changes → r ∈ guild_roles g).
  { intros m op r Hin.
    apply elem_of_compute_changes in Hin as (T & mem & Hin & _).
    apply Hroles. by apply (list_elem_of_fmap_2 fst _ (r, T)). }
  destruct (apply_grouped_Some (changes_by_members changes) g)
    as (g' & Happ & _ & Hm).
  - apply grouped_NoDup. apply NoDup_nil_2.
  - intros m Hin. apply grouped_keys in Hin as [Hin|(op & r & Hin)].
    + by apply elem_of_nil in Hin.
    + apply elem_of_compute_changes in Hin as (T & mem & _ & Hmem & <- & _).
      rewrite Hguild by done. eauto.
  - intros m c r Hin Hr.
    apply dict_get_elem_NoDup in Hin;
      [|apply grouped_NoDup, NoDup_nil_2].
    pose proof (dict_get_grouped changes [] m) as Hc.
    unfold changes_by_members in Hin. rewrite Hin in Hc. simpl in Hc.
    subst c. unfold extend_changes in Hr. simpl in Hr.
    rewrite !elem_of_roles_of in Hr. destruct Hr as [Hr|Hr]; eauto.
  - exists g', (reconcile (extend_changes no_changes (id member) changes)
                          (list_to_set (initial_roles member))).
    split; [done|]. split.
    { rewrite Hm, Hguild by done. simpl. f_equal.
      unfold changes_by_members. by rewrite dict_get_grouped. }
    split; [|split; [|split]].
    + intros r role_members_ids H.
      rewrite elem_of_reconciled, elem_of_list_to_set. split.
      * intros [Hheld Hkept].
        destruct (decide (id member ∈ role_members_ids)) as [|Hout]; [done|].
        destruct Hheld as [Hheld|Hadd].
        -- destruct Hkept. apply elem_of_compute_changes.
           exists role_members_ids, member. auto.
        -- apply elem_of_compute_changes in Hadd
             as (T & mem & HT & _ & _ & Hin & _).
           by rewrite (managed_target_unique managed r _ T Hnd H HT) in Hout.
      * intros Hin. split.
        -- destruct (decide (r ∈ initial_roles member)) as [|Hnew]; [auto|].
           right. apply elem_of_compute_changes.
           exists role_members_ids, member. auto.
        -- intros Hrem.
           apply elem_of_compute_changes in Hrem
             as (T & mem & HT & _ & _ & Hout & _).
           by rewrite (managed_target_unique managed r _ T Hnd H HT) in Hin.
    + intros r H. rewrite elem_of_reconciled, elem_of_list_to_set. split.
      * intros [[Hheld|Hadd] _]; [done|].
        apply elem_of_compute_changes in Hadd as (T & mem & HT & _).
        destruct H. by apply (list_elem_of_fmap_2 fst _ (r, T)).
      * intros Hheld. split; [auto|]. intros Hrem.
        apply elem_of_compute_changes in Hrem as (T & mem & HT & _).
        destruct H. by apply (list_elem_of_fmap_2 fst _ (r, T)).
    + intros r Hadd.
      apply elem_of_compute_changes in Hadd
        as (T & mem & _ & Hmem & Hid & _ & Hnew).
      by rewrite <- (Hsame mem r Hmem Hid).
    + intros r Hrem.
      apply elem_of_compute_changes in Hrem
        as (T & mem & _ & Hmem & Hid & _ & Hold).
      by rewrite <- (Hsame mem r Hmem Hid).
Qed.

Lemma reconciliation_invariant_witness :
  ∃ g' held,
    apply_changes sample_guild (compute_changes sample_members sample_managed)
    = Some g'
    ∧ guild_members g' !! 1 = Some held
    ∧ (∀ r role_members_ids,
         (r, role_members_ids) ∈ sample_managed →
         (r ∈ held ↔ 1 ∈ role_members_ids))
    ∧ (∀ r, r ∉ sample_managed.*1 → (r ∈ held ↔ r ∈ [100; 200]))
    ∧ (∀ r, (1, add, r) ∈ compute_changes sample_members sample_managed →
            r ∉ [100; 200])
    ∧ (∀ r, (1, remove, r) ∈ compute_changes sample_members sample_managed →
            r ∈ [100; 200]).
Proof.
  apply (reconciliation_invariant sample_guild sample_members sample_managed
           {| id := 1; initial_roles := [100; 200] |}).
  - apply (bool_decide_unpack _). vm_compute. exact I.
  - apply (bool_decide_unpack _). vm_compute. exact I.
  - intros m Hm. unfold sample_members in Hm.
    apply elem_of_cons in Hm as [->|Hm];
      [|apply list_elem_of_singleton in Hm as ->]; simpl.
    + reflexivity.
    + reflexivity.
  - intros r Hr. simpl in Hr. unfold sample_guild. simpl. set_solver.
Defined.

(** *** The most common entries *)

Lemma dict_set_fresh {V} (d : list (Z * V)) k v :
  k ∉ d.*1 → dict_set d k v = d ++ [(k, v)].
Proof.
  induction d as [|[k' v'] rest IH]; simpl; intros Hfresh; [done|].
  apply not_elem_of_cons in Hfresh as [Hne Hfresh].
  rewrite decide_False by done. by rewrite IH.
Qed.

Lemma member_counter_NoDup_acc members calc_member_fn :
  ∀ d : list (Z * Z),
    NoDup (d.*1 ++ (id <$> members)) →
    foldl (λ d member, dict_set d (id member) (calc_member_fn member)) d members
    = d ++ ((λ m, (id m, calc_member_fn m)) <$> members).
Proof.
  induction members as [|m rest IH]; intros d Hnd; simpl.
  - by rewrite app_nil_r.
  - simpl in Hnd. apply NoDup_app in Hnd as (Hd & Hdisj & Hrest).
    apply NoDup_cons in Hrest as [Hm Hrest].
    rewrite dict_set_fresh.
    2: { intros Hin. apply (Hdisj _ Hin). left. }
    rewrite IH.
    + by rewrite <- app_assoc.
    + rewrite fmap_app. simpl. apply NoDup_app. split; [|split; [|done]].
      * apply NoDup_app. split; [done|]. split; [|apply NoDup_singleton].
        intros k Hin Hk. apply list_elem_of_singleton in Hk as ->.
        apply (Hdisj _ Hin). left.
      * intros k Hin Hk. apply elem_of_app in Hin as [Hin|Hin].
        -- apply (Hdisj _ Hin). by right.
        -- apply list_elem_of_singleton in Hin as ->. done.
Qed.

Lemma member_counter_NoDup members calc_member_fn :
  NoDup (id <$> members) →
  member_counter members calc_member_fn
  = (λ m, (id m, calc_member_fn m)) <$> members.
Proof.
  intros Hnd. unfold member_counter.
  by rewrite member_counter_NoDup_acc.
Qed.

Lemma insert_desc_Permutation x l : insert_desc x l ≡ₚ x :: l.
Proof.
  induction l as [|y l IH]; simpl; [done|].
  case_decide; [done|]. rewrite IH. apply Permutation_swap.
Qed.

Lemma most_common_Permutation counter : most_common counter ≡ₚ counter.
Proof.
  induction counter as [|x l IH]; simpl; [done|].
  by rewrite insert_desc_Permutation, IH.
Qed.

Lemma insert_desc_sorted x l :
  StronglySorted count_ge l → StronglySorted count_ge (insert_desc x l).
Proof.
  induction l as [|y l IH]; simpl; intros Hs.
  - repeat constructor.
  - apply StronglySorted_inv in Hs as [Hs Hall]. case_decide as Hle.
    + constructor; [by constructor|]. constructor; [done|].
      eapply Forall_impl; [exact Hall|]. unfold count_ge. simpl. intros; lia.
    + constructor; [auto|]. rewrite insert_desc_Permutation.
      constructor; [|done]. unfold count_ge. lia.
Qed.

Lemma most_common_sorted counter : StronglySorted count_ge (most_common counter).
Proof.
  induction counter as [|x l IH]; simpl; [constructor|].
  by apply insert_desc_sorted.
Qed.

Lemma before_elem_of {A} (a b : A) l : before a b l → a ∈ l ∧ b ∈ l.
Proof.
  induction 1 as [l Hb|c l Hbefore [IHa IHb]].
  - split; [left | by right].
  - split; by right.
Qed.

Lemma insert_desc_before_new x b l :
  b ∈ l → b.2 ≤ x.2 → before x b (insert_desc x l).
Proof.
  induction l as [|y l IH]; simpl; intros Hin Hle.
  - by apply elem_of_nil in Hin.
  - case_decide as Hy.
    + by constructor.
    + apply before_later. apply IH; [|done].
      apply elem_of_cons in Hin as [->|Hin]; [lia | done].
Qed.

Lemma insert_desc_before_old x a b l :
  before a b l → before a b (insert_desc x l).
Proof.
  induction 1 as [l Hb|c l Hbefore IH]; simpl; case_decide.
  - apply before_later. by constructor.
  - constructor. rewrite insert_desc_Permutation. by right.
  - by do 2 apply before_later.
  - by apply before_later.
Qed.

(** The sort is stable: entries with the same count keep their order. *)
Lemma most_common_stable a b counter :
  before a b counter → a.2 = b.2 → before a b (most_common counter).
Proof.
  induction 1 as [l Hb|c l Hbefore IH]; simpl; intros Heq.
  - apply insert_desc_before_new; [|lia]. by rewrite most_common_Permutation.
  - apply insert_desc_before_old. auto.
Qed.

Lemma before_take {A} (a b : A) l n :
  NoDup l → before a b l → b ∈ take n l → a ∈ take n l.
Proof.
  intros Hnd Hbefore. revert n Hnd.
  induction Hbefore as [l Hb|c l Hbefore IH]; intros n Hnd Hin;
    destruct n as [|n]; simpl in *; try by apply elem_of_nil in Hin.
  - left.
  - apply NoDup_cons in Hnd as [Hc Hnd].
    apply elem_of_cons in Hin as [->|Hin].
    + destruct Hc. by apply before_elem_of in Hbefore as [_ ?].
    + right. auto.
Qed.

Lemma before_fmap {A B} (f : A → B) a b l :
  before a b l → before (f a) (f b) (f <$> l).
Proof.
  induction 1 as [l Hb|c l Hbefore IH]; simpl.
  - constructor. by apply list_elem_of_fmap_2.
  - by apply before_later.
Qed.

Lemma NoDup_fmap_eq {A B} (f : A → B) (l : list A) x y :
  NoDup (f <$> l) → x ∈ l → y ∈ l → f x = f y → x = y.
Proof.
  induction l as [|z l IH]; simpl; intros Hnd Hx Hy Heq.
  - by apply elem_of_nil in Hx.
  - apply NoDup_cons in Hnd as [Hz Hnd].
    apply elem_of_cons in Hx as [->|Hx]; apply elem_of_cons in Hy as [->|Hy];
      auto.
    + destruct Hz. rewrite Heq. by apply list_elem_of_fmap_2.
    + destruct Hz. rewrite <- Heq. by apply list_elem_of_fmap_2.
Qed.

(** C5. [calc_stats] returns at most [top_members_limit] entries, with
    counts in descending order. For a list of distinct members, every entry
    is a member with the member's count, every returned count is at least the
    count of every member that is not returned, and of two members with the
    same count, when the later one in the list is returned, so is the earlier
    one. *)
Theorem calc_stats_top
    (members : list ClubUser) (calc_member_fn : ClubUser → Z)
    (top_members_limit : nat) :
  (length (calc_stats members calc_member_fn top_members_limit)
   ≤ top_members_limit)%nat
  ∧ StronglySorted count_ge (calc_stats members calc_member_fn top_members_limit)
  ∧ (NoDup (id <$> members) →
     (∀ i c, (i, c) ∈ calc_stats members calc_member_fn top_members_limit →
             ∃ m, m ∈ members ∧ id m = i ∧ calc_member_fn m = c)
     ∧ (∀ i c m,
          (i, c) ∈ calc_stats members calc_member_fn top_members_limit →
          m ∈ members →
          id m ∉ (calc_stats members calc_member_fn top_members_limit).*1 →
          calc_member_fn m ≤ c)
     ∧ (∀ m1 m2,
          before m1 m2 members →
          calc_member_fn m1 = calc_member_fn m2 →
          id m2 ∈ (calc_stats members calc_member_fn top_members_limit).*1 →
          id m1 ∈ (calc_stats members calc_member_fn top_members_limit).*1)).
Proof.
  unfold calc_stats.
  set (counter := member_counter members calc_member_fn).
  split; [|split].
  - rewrite length_take. lia.
  - pose proof (most_common_sorted counter) as Hs.
    rewrite <- (take_drop top_members_limit (most_common counter)) in Hs.
    by apply StronglySorted_app_1_l in Hs.
  - intros Hnd.
    assert (Hcounter : counter = (λ m, (id m, calc_member_fn m)) <$> members)
      by by apply member_counter_NoDup.
    assert (Hentry : ∀ i c, (i, c) ∈ most_common counter →
                            ∃ m, m ∈ members ∧ id m = i ∧ calc_member_fn m = c).
    { intros i c Hin. rewrite most_common_Permutation, Hcounter in Hin.
      apply list_elem_of_fmap in Hin as (m & [= -> ->] & Hm). eauto. }
    assert (Hmember : ∀ m, m ∈ members →
                           (id m, calc_member_fn m) ∈ most_common counter).
    { intros m Hm. rewrite most_common_Permutation, Hcounter.
      by apply (list_elem_of_fmap_2 (λ m, (id m, calc_member_fn m))). }
    assert (Hpairs : NoDup (most_common counter)).
    { rewrite most_common_Permutation, Hcounter.
      apply (NoDup_fmap_1 fst). by rewrite <- list_fmap_compose. }
    split; [|split].
    + intros i c Hin. apply Hentry. by apply (subseteq_take top_members_limit).
    + intros i c m Hin Hm Hout.
      pose proof (most_common_sorted counter) as Hs.
      rewrite <- (take_drop top_members_limit (most_common counter)) in Hs.
      apply (StronglySorted_app_1_elem_of _ _ _ (i, c) (id m, calc_member_fn m))
        in Hs; [done|done|].
      pose proof (Hmember m Hm) as Hin'.
      rewrite <- (take_drop top_members_limit (most_common counter)) in Hin'.
      apply elem_of_app in Hin' as [Hin'|Hin']; [|done].
      destruct Hout. by apply (list_elem_of_fmap_2 fst _ (id m, calc_member_fn m)).
    + intros m1 m2 Hbefore Heq Hin.
      apply list_elem_of_fmap in Hin as ([i c] & Hi & Hin). simpl in Hi. subst i.
      destruct (Hentry (id m2) c) as (m & Hm & Hid & Hc).
      { by apply (subseteq_take top_members_limit). }
      pose proof (before_elem_of _ _ _ Hbefore) as [_ Hm2].
      assert (m = m2) as -> by by apply (NoDup_fmap_eq id members).
      subst c.
      apply (list_elem_of_fmap_2' fst _ (id m1, calc_member_fn m1)); [|done].
      apply (before_take _ (id m2, calc_member_fn m2)); [done| |done].
      apply most_common_stable; [|done]. rewrite Hcounter.
      by apply (before_fmap (λ m, (id m, calc_member_fn m))).
Qed.

Example calc_stats_sample :
  calc_stats sample_ranking sample_count 3 = [(2, 7); (4, 7); (1, 5)].
Proof. reflexivity. Qed.

Lemma calc_stats_top_witness :
  sample_count {| id := 3; initial_roles := [] |} ≤ 5
  ∧ 2 ∈ (calc_stats sample_ranking sample_count 3).*1.
Proof.
  destruct (calc_stats_top sample_ranking sample_count 3) as (_ & _ & Htop).
  destruct Htop as (_ & Hge & Hstable).
  { apply (bool_decide_unpack _). vm_compute. exact I. }
  split.
  - apply (Hge 1 5 {| id := 3; initial_roles := [] |}).
    + apply (bool_decide_unpack _). vm_compute. exact I.
    + apply (bool_decide_unpack _). vm_compute. exact I.
    + apply (bool_decide_unpack _). vm_compute. exact I.
  - apply (Hstable {| id := 2; initial_roles := [] |}
                   {| id := 4; initial_roles := [] |}).
    + apply before_later, before_here.
      apply (bool_decide_unpack _). vm_compute. exact I.
    + reflexivity.
    + apply (bool_decide_unpack _). vm_compute. exact I.
Defined.

(** ** The blocklist stage *)

Section blocklist.

Import Python Blocklist.

Variable search : Pattern → string → bool.
Variable repr : string → string.

Lemma scan_spec rules item :
  match scan search repr rules item with
  | Returned item' =>
      item' = item
      ∧ ∀ field value_re,
          (field, value_re) ∈ rules →
          search value_re (get_or_empty item field) = false
  | DropItem message =>
      ∃ earlier field value_re later,
        rules = earlier ++ (field, value_re) :: later
        ∧ (∀ f p, (f, p) ∈ earlier → search p (get_or_empty item f) = false)
        ∧ search value_re (get_or_empty item field) = true
        ∧ message
          = drop_message repr field (get_or_empty item field) value_re
  end.
Proof.
  induction rules as [|[field value_re] rest IH]; simpl.
  - split; [done|]. intros f p Hin. by apply elem_of_nil in Hin.
  - destruct (search value_re (get_or_empty item field)) eqn:Hsearch.
    + exists [], field, value_re, rest. repeat split; [|done].
      intros f p Hin. by apply elem_of_nil in Hin.
    + destruct (scan search repr rest item) as [item'|message].
      * destruct IH as [-> Hnone]. split; [done|]. intros f p Hin.
        apply elem_of_cons in Hin as [[= -> ->]|Hin]; auto.
      * destruct IH as (earlier & f & p & later & -> & Hnone & Hhit & ->).
        exists ((field, value_re) :: earlier), f, p, later.
        repeat split; [|done]. intros f' p' Hin.
        apply elem_of_cons in Hin as [[= -> ->]|Hin]; auto.
Qed.

(** C6. [process] raises [DropItem] exactly when some rule of [BLOCKLIST]
    matches the value of its field. The value that is matched is the string
    that the item holds for the field, as it is, and the empty string when
    the field is missing, [None] or empty. The rule that triggers is the
    first matching one in list order and the message names its field, the
    value and its pattern; when no rule matches, the item is returned
    unchanged. *)
Theorem blocklist_process_spec (item : Item) :
  let value := λ field,
    match item !! field with
    | Some (VStr s) => s
    | Some VNone | None => ""
    end in
  ((∃ message, process search repr item = DropItem message)
   ↔ ∃ field value_re,
       (field, value_re) ∈ BLOCKLIST
       ∧ search value_re (value field) = true)
  ∧ (∀ field s, item !! field = Some (VStr s) →
                value field = s ∧ get_or_empty item field = s)
  ∧ (∀ field, item !! field = None ∨ item !! field = Some VNone
              ∨ item !! field = Some (VStr "") →
              value field = "" ∧ get_or_empty item field = "")
  ∧ (∀ message,
       process search repr item = DropItem message →
       ∃ earlier field value_re later,
         BLOCKLIST = earlier ++ (field, value_re) :: later
         ∧ (∀ f p, (f, p) ∈ earlier → search p (value f) = false)
         ∧ search value_re (value field) = true
         ∧ message
           = "Blocklist rule applied: " +:+ field +:+ " value "
             +:+ repr (value field) +:+ " matches "
             +:+ repr (pattern value_re))
  ∧ ((∀ field value_re,
        (field, value_re) ∈ BLOCKLIST →
        search value_re (value field) = false) →
     process search repr item = Returned item).
Proof.
  intros value.
  assert (Hvalue : ∀ field, get_or_empty item field = value field) by done.
  unfold process. pose proof (scan_spec BLOCKLIST item) as Hscan.
  destruct (scan search repr BLOCKLIST item) as [item'|message].
  - destruct Hscan as [-> Hnone]. split; [|split; [|split; [|split]]].
    + split; [by intros [? ?]|]. intros (f & p & Hin & Hhit).
      rewrite <- Hvalue, (Hnone f p Hin) in Hhit. done.
    + intros field s Hf. unfold value, get_or_empty. by rewrite Hf.
    + intros field [Hf|[Hf|Hf]]; unfold value, get_or_empty; by rewrite Hf.
    + done.
    + done.
  - destruct Hscan as (earlier & f & p & later & Hrules & Hnone & Hhit & ->).
    split; [|split; [|split; [|split]]].
    + split; [|eauto]. intros _. exists f, p. split; [|by rewrite <- Hvalue].
      rewrite Hrules. apply elem_of_app. right. left.
    + intros field s Hf. unfold value, get_or_empty. by rewrite Hf.
    + intros field [Hf|[Hf|Hf]]; unfold value, get_or_empty; by rewrite Hf.
    + intros message [= <-]. exists earlier, f, p, later.
      split; [done|]. split; [|split; [by rewrite <- Hvalue|done]].
      intros f' p' Hin. rewrite <- Hvalue. by apply Hnone.
    + intros Hall. rewrite Hvalue, Hall in Hhit; [done|].
      rewrite Hrules. apply elem_of_app. right. left.
Qed.

End blocklist.

Example blocklist_drops_electrician :
  Blocklist.process Python.search Python.repr Blocklist.sample_dropped
  = Blocklist.DropItem
      "Blocklist rule applied: title value 'Elektromechanik CNC' matches 'elektro'".
Proof. vm_compute. reflexivity. Qed.

Lemma blocklist_process_spec_witness :
  Blocklist.process Python.search Python.repr Blocklist.sample_kept
  = Blocklist.Returned Blocklist.sample_kept
  ∧ Blocklist.get_or_empty Blocklist.sample_kept "company_name" = ""
  ∧ Blocklist.get_or_empty Blocklist.sample_dropped "title"
    = "Elektromechanik CNC"
  ∧ ∃ message,
      Blocklist.process Python.search Python.repr Blocklist.sample_dropped
      = Blocklist.DropItem message.
Proof.
  pose proof (blocklist_process_spec Python.search Python.repr
                Blocklist.sample_kept) as Hkept.
  pose proof (blocklist_process_spec Python.search Python.repr
                Blocklist.sample_dropped) as Hdropped.
  cbv zeta in Hkept, Hdropped.
  destruct Hkept as (_ & _ & Hempty & _ & Hreturned).
  destruct Hdropped as (Hdrop & Hpresent & _).
  split; [|split; [|split]].
  - apply Hreturned.
    intros field value_re Hin. unfold Blocklist.BLOCKLIST in Hin.
    repeat (apply elem_of_cons in Hin as [[= -> ->]|Hin];
            [vm_compute; reflexivity|]).
    by apply elem_of_nil in Hin.
  - apply (Hempty "company_name"). right. left. reflexivity.
  - apply (Hpresent "title"). reflexivity.
  - apply Hdrop.
    exists "title", (Python.compile "elektro" true). split.
    + right. left.
    + vm_compute. reflexivity.
Defined.

(** ** The geocoding wrapper *)

Section geocoding.

Import Python Locations.

Variable search : Pattern → string → bool.

Lemma first_optimization_spec rules location_raw :
  match first_optimization search rules location_raw with
  | Some value =>
      ∃ earlier location_re later,
        rules = earlier ++ (location_re, value) :: later
        ∧ (∀ p v, (p, v) ∈ earlier → search p location_raw = false)
        ∧ search location_re location_raw = true
  | None => ∀ p v, (p, v) ∈ rules → search p location_raw = false
  end.
Proof.
  induction rules as [|[location_re value] rest IH]; simpl.
  - intros p v Hin. by apply elem_of_nil in Hin.
  - destruct (search location_re location_raw) eqn:Hsearch.
    + exists [], location_re, rest. repeat split; [|done].
      intros p v Hin. by apply elem_of_nil in Hin.
    + destruct (first_optimization search rest location_raw) as [value'|].
      * destruct IH as (earlier & p & later & -> & Hnone & Hhit).
        exists ((location_re, value) :: earlier), p, later.
        repeat split; [|done]. intros p' v' Hin.
        apply elem_of_cons in Hin as [[= -> ->]|Hin]; eauto.
      * intros p v Hin.
        apply elem_of_cons in Hin as [[= -> ->]|Hin]; eauto.
Qed.

Lemma cached_call_fresh {S : Type} (geocode : Geocode S) location_raw s :
  (bind (cached_call geocode ∅ location_raw) (λ '(result, _), ret result) s).1
  = (geocode location_raw s).1
  ∧ (bind (cached_call geocode ∅ location_raw) (λ '(result, _), ret result) s).2
    = (geocode location_raw s).2.
Proof.
  unfold cached_call. rewrite lookup_empty. unfold bind, ret.
  by destruct (geocode location_raw s) as [[result|e] s'].
Qed.

(** C9. When some fast-path rule matches the raw location, the wrapper
    returns the hardcoded address of the first matching rule in list order
    and leaves the state as it is, whatever the underlying function: it does
    not call it. For an underlying function that records its calls, the
    record is unchanged. *)
Theorem optimize_geocoding_fast_path (location_raw : string) :
  (∃ location_re value,
     (location_re, value) ∈ OPTIMIZATIONS
     ∧ search location_re location_raw = true) →
  ∃ earlier location_re value later,
    OPTIMIZATIONS = earlier ++ (location_re, value) :: later
    ∧ (∀ p v, (p, v) ∈ earlier → search p location_raw = false)
    ∧ search location_re location_raw = true
    ∧ (∀ (S : Type) (geocode : Geocode S) (s : S),
         optimize_geocoding search geocode location_raw s
         = (Returned (Some value), s))
    ∧ (∀ f calls,
         optimize_geocoding search (counted f) location_raw calls
         = (Returned (Some value), calls)).
Proof.
  intros (location_re & value & Hin & Hhit).
  pose proof (first_optimization_spec OPTIMIZATIONS location_raw) as Hfirst.
  destruct (first_optimization search OPTIMIZATIONS location_raw)
    as [value'|] eqn:Hopt.
  - destruct Hfirst as (earlier & p & later & Hrules & Hnone & Hp).
    exists earlier, p, value', later.
    split; [done|]. split; [done|]. split; [done|].
    split; intros; unfold optimize_geocoding; by rewrite Hopt.
  - rewrite (Hfirst _ _ Hin) in Hhit. done.
Qed.

(** C8, as the code has it. On a raw location that no fast-path rule
    matches, the wrapper returns what the underlying function returns (or
    raises what it raises); on a raw location that some rule matches, it
    returns the hardcoded address of the first matching rule. *)
Theorem optimize_geocoding_result
    {S : Type} (geocode : Geocode S) (location_raw : string) (s : S) :
  ((∀ location_re value,
      (location_re, value) ∈ OPTIMIZATIONS →
      search location_re location_raw = false) →
   (optimize_geocoding search geocode location_raw s).1
   = (geocode location_raw s).1)
  ∧ (∀ value,
       first_optimization search OPTIMIZATIONS location_raw = Some value →
       (optimize_geocoding search geocode location_raw s).1
       = Returned (Some value)).
Proof.
  split.
  - intros Hnone. unfold optimize_geocoding.
    pose proof (first_optimization_spec OPTIMIZATIONS location_raw) as Hfirst.
    destruct (first_optimization search OPTIMIZATIONS location_raw)
      as [value|].
    + destruct Hfirst as (earlier & p & later & Hrules & _ & Hp).
      rewrite (Hnone p value) in Hp; [done|].
      rewrite Hrules. apply elem_of_app. right. left.
    + apply cached_call_fresh.
  - intros value Hopt. unfold optimize_geocoding. by rewrite Hopt.
Qed.

End geocoding.

Example geocode_prague_district :
  Locations.optimize_geocoding Python.search
    (Locations.counted Locations.sample_geocode) "Praha 5" []
  = (Locations.Returned
       (Some {[ "place" := "Praha"; "region" := "Praha";
                "country" := "Česko" ]}), []).
Proof. vm_compute. reflexivity. Qed.

Lemma optimize_geocoding_fast_path_witness :
  ∃ value,
    value !! "place" = Some "Brno"
    ∧ ∀ f calls,
        Locations.optimize_geocoding Python.search (Locations.counted f)
          "Brno, South Moravia" calls
        = (Locations.Returned (Some value), calls).
Proof.
  destruct (optimize_geocoding_fast_path Python.search "Brno, South Moravia")
    as (earlier & location_re & value & later & Hrules & Hnone & Hhit & _ & Hf).
  - exists (Python.compile "\bBrno\b" false),
      {[ "place" := "Brno"; "region" := "Brno"; "country" := "Česko" ]}.
    split; [|vm_compute; reflexivity].
    unfold Locations.OPTIMIZATIONS. simpl. do 2 right. left.
  - exists value. split; [|done].
    specialize (Hf Locations.sample_geocode []).
    vm_compute in Hf. injection Hf as <-. vm_compute. reflexivity.
Defined.

Lemma optimize_geocoding_result_witness :
  (Locations.optimize_geocoding Python.search
     (Locations.counted Locations.sample_geocode) "Berlin" []).1
  = Locations.Returned (Some Locations.berlin)
  ∧ (Locations.optimize_geocoding Python.search
       (Locations.counted Locations.sample_geocode) "Ostrava-Poruba" []).1
    = Locations.Returned
        (Some {[ "place" := "Ostrava"; "region" := "Ostrava";
                 "country" := "Česko" ]}).
Proof.
  split.
  - rewrite (proj1 (optimize_geocoding_result Python.search
                      (Locations.counted Locations.sample_geocode)
                      "Berlin" [])); [reflexivity|].
    intros location_re value Hin. unfold Locations.OPTIMIZATIONS in Hin.
    simpl in Hin.
    repeat (apply elem_of_cons in Hin as [[= -> ->]|Hin];
            [vm_compute; reflexivity|]).
    by apply elem_of_nil in Hin.
  - apply (optimize_geocoding_result Python.search).
    vm_compute. reflexivity.
Defined.

(** C8, as the specification states it, fails twice. The wrapper does not
    return what the underlying function returns on a fast-path location; and
    two calls with the same raw location call the underlying function
    twice. *)
Lemma optimize_geocoding_not_memoized :
  (Locations.optimize_geocoding Python.search
     (Locations.counted (λ _, Locations.Returned None)) "Praha" []).1
  ≠ (Locations.counted (λ _, Locations.Returned None) "Praha" []).1
  ∧ (Locations.optimize_geocoding Python.search
       (Locations.counted Locations.sample_geocode) "Berlin"
       (Locations.optimize_geocoding Python.search
          (Locations.counted Locations.sample_geocode) "Berlin" []).2).2
    = ["Berlin"; "Berlin"].
Proof.
  split.
  - vm_compute. discriminate.
  - vm_compute. reflexivity.
Qed.

(** ** The locations stage *)

Section locations.

Import Python Locations.

Context {S : Type}.
Variable search : Pattern → string → bool.
Variable lower : string → string.
Variable order : SetOrder (string * string).
Variable mapycz : Geocode S.

Lemma get_region_spec (address : Address) :
  get_region lower address
  = match address !! "country" with
    | None => Raised (KeyError "country")
    | Some country =>
        if String.prefix "česk" (lower country)
        then match address !! "region" with
             | None => Raised (KeyError "region")
             | Some r => Returned (default r (REGIONS_MAPPING !! r))
             end
        else Returned (default country (REGIONS_MAPPING !! country))
    end.
Proof.
  unfold get_region, getitem, and_then.
  destruct (address !! "country") as [country|]; [|done].
  destruct (String.prefix "česk" (lower country)); [|done].
  by destruct (address !! "region").
Qed.

(** What [parse_location] makes of each result of the geocoding. *)
Lemma parse_location_run location_raw item (geocode : option (Geocode S)) s :
  parse_location search lower mapycz location_raw item geocode s
  = match default (geocode_mapycz search mapycz) geocode location_raw s with
    | (Returned (Some address), s1) =>
        (Returned (if decide (address = ∅) then None
                   else match location_tuple lower address with
                        | Returned t => Some t
                        | Raised _ => None
                        end), s1)
    | (Returned None, s1) => (Returned None, s1)
    | (Raised _, s1) => (Returned None, s1)
    end.
Proof.
  unfold parse_location, try_except, bind.
  destruct (default (geocode_mapycz search mapycz) geocode location_raw s)
    as [[[address|]|e] s1]; try done.
  case_decide; [done|]. unfold lift, ret.
  by destruct (location_tuple lower address).
Qed.

Lemma parse_location_returns location_raw item (geocode : option (Geocode S)) s :
  ∃ r s1,
    parse_location search lower mapycz location_raw item geocode s
    = (Returned r, s1).
Proof.
  rewrite parse_location_run.
  destruct (default (geocode_mapycz search mapycz) geocode location_raw s)
    as [[[address|]|e] s1]; eauto.
Qed.

Lemma for_each_parse_location item (geocode : option (Geocode S)) raw :
  ∀ s, ∃ results s',
    for_each (λ loc, parse_location search lower mapycz loc item geocode) raw s
    = (Returned results, s')
    ∧ length results = length raw
    ∧ ∀ t, Some t ∈ results
           ↔ ∃ loc s0,
               (loc, s0) ∈ visits search lower mapycz item geocode raw s
               ∧ (parse_location search lower mapycz loc item geocode s0).1
                 = Returned (Some t).
Proof.
  induction raw as [|loc rest IH]; intros s; simpl.
  - exists [], s. split; [done|]. split; [done|]. intros t. split.
    + intros Hin. by apply elem_of_nil in Hin.
    + intros (? & ? & Hin & _). by apply elem_of_nil in Hin.
  - destruct (parse_location_returns loc item geocode s) as (r & s1 & Hparse).
    unfold bind at 1. rewrite Hparse. simpl.
    destruct (IH s1) as (results & s' & Hrest & Hlen & Hresults).
    unfold bind at 1. rewrite Hrest. unfold ret.
    exists (r :: results), s'. split; [done|]. split; [simpl; lia|].
    intros t. rewrite !elem_of_cons, Hresults. split.
    + intros [<-|(loc' & s0 & Hin & Hsome)].
      * exists loc, s. split; [left|]. by rewrite Hparse.
      * exists loc', s0. split; [by right|done].
    + intros (loc' & s0 & Hin & Hsome).
      apply elem_of_cons in Hin as [[= -> ->]|Hin].
      * left. rewrite Hparse in Hsome. simpl in Hsome. congruence.
      * right. eauto.
Qed.

Lemma process_run item (geocode : option (Geocode S)) s :
  ∃ results s',
    for_each (λ loc, parse_location search lower mapycz loc item geocode)
             (default [] (locations_raw item)) s
    = (Returned results, s')
    ∧ process search lower order mapycz item geocode s
      = (Returned
           (set_locations item
              ((λ '(name, region), {| name := name; region := region |})
                 <$> set_list order (omap (λ t, t) results))), s').
Proof.
  destruct (for_each_parse_location item geocode
              (default [] (locations_raw item)) s)
    as (results & s' & Hrun & _).
  exists results, s'. split; [done|].
  unfold process, bind. by rewrite Hrun.
Qed.







End locations.


Example process_sample_item :
  Locations.process Python.search Python.lower Locations.first_seen
    Locations.offline Locations.sample_item
    (Some (Locations.optimize_geocoding Python.search
             (Locations.counted Locations.sample_geocode))) []
  = (Locations.Returned
       (Locations.set_locations Locations.sample_item
          [ {| Locations.name := "Berlin"; Locations.region := "Německo" |};
            {| Locations.name := "Praha"; Locations.region := "Praha" |} ]),
     ["Berlin"; "Nowhere"; "Plzen"; "Berlin, Germany"]).
Proof. vm_compute. reflexivity. Qed.


(** ** The replay of the scheduled messages *)

(** The cases of [tests/test_sync_onboarding.py]. *)
Section onboarding_tests.

Import Onboarding.

Example test_prepare_messages_empty_history :
  run [] = [(None, "👋 First message")].
Proof. vm_compute. reflexivity. Qed.

Example test_prepare_messages_history_with_no_bot_messages :
  run [ create_message 1 123 "Non-relevant message" 0 {[ "❤️" := 42 ]};
        create_message 2 345 "Another non-relevant message" 0 {[ "❤️" := 42 ]} ]
  = [(None, "👋 First message")].
Proof. vm_compute. reflexivity. Qed.

Example test_prepare_messages_history_with_non_relevant_bot_messages :
  run [ create_bot_message 1 "Non-relevant message" 0 true;
        create_bot_message 2 "Another non-relevant message" 0 false ]
  = [(None, "👋 First message")].
Proof. vm_compute. reflexivity. Qed.

Example test_prepare_messages_history_with_the_first_message :
  run [ create_bot_message 1 "👋 First message" 0 false ]
  = [(None, "🌯 Second message")].
Proof. vm_compute. reflexivity. Qed.

Example test_prepare_messages_history_unread :
  run [ create_bot_message 1 "👋 First message" 0 true ] = [].
Proof. vm_compute. reflexivity. Qed.

Example test_prepare_messages_history_unread_last_message :
  run [ create_bot_message 1 "👋 First message" (TODAY - 2) false;
        create_bot_message 2 "🌯 Second message" (TODAY - 1) true ]
  = [].
Proof. vm_compute. reflexivity. Qed.

Example test_prepare_messages_history_unread_past_but_not_last_message :
  run [ create_bot_message 1 "👋 First message" (TODAY - 2) true;
        create_bot_message 2 "🌯 Second message" (TODAY - 1) false ]
  = [(None, "💤 Third message")].
Proof. vm_compute. reflexivity. Qed.

Example test_prepare_messages_history_with_missing_messages :
  run [ create_bot_message 1 "👋 First message" 0 false;
        create_bot_message 2 "🟥 Sixth message" 0 false ]
  = [(None, "🌯 Second message")].
Proof. vm_compute. reflexivity. Qed.

Example test_prepare_messages_history_with_edits :
  run [ create_bot_message 1 "👋 Outdated message" 0 false;
        create_bot_message 2 "🌯 Second message" 0 false;
        create_bot_message 3 "💤 Third message" 0 false;
        create_bot_message 4 "🆗 Outdated message" 0 false ]
  = [ (Some 1, "👋 First message");
      (Some 4, "🆗 Fourth message");
      (None, "🟡 Fifth message") ].
Proof. vm_compute. reflexivity. Qed.

Example test_prepare_messages_post_for_the_first_time_that_day :
  run [ create_bot_message 1 "👋 First message" (TODAY - 3) false;
        create_bot_message 2 "🌯 Second message" (TODAY - 2) false;
        create_bot_message 3 "💤 Third message" (TODAY - 1) false ]
  = [(None, "🆗 Fourth message")].
Proof. vm_compute. reflexivity. Qed.

Example test_prepare_messages_dont_post_twice_the_same_day :
  run [ create_bot_message 1 "👋 First message" (TODAY - 2) false;
        create_bot_message 2 "🌯 Second message" (TODAY - 1) false;
        create_bot_message 3 "💤 Third message" TODAY false ]
  = [].
Proof. vm_compute. reflexivity. Qed.

Example test_prepare_messages_edit_messages_regardless_of_dates :
  run [ create_bot_message 1 "👋 Outdated message" (TODAY - 3) false;
        create_bot_message 2 "🌯 Second message" (TODAY - 2) false;
        create_bot_message 3 "💤 Third message" (TODAY - 1) false;
        create_bot_message 4 "🆗 Outdated message" TODAY false ]
  = [ (Some 1, "👋 First message"); (Some 4, "🆗 Fourth message") ].
Proof. vm_compute. reflexivity. Qed.

Example test_prepare_messages_passes_context :
  prepare_messages BOT [] [("🔥", λ name : string, "Hello " +:+ name)] TODAY
    "Honza"
  = [(None, "🔥 Hello Honza")].
Proof. vm_compute. reflexivity. Qed.

End onboarding_tests.

Section onboarding.

Import Onboarding.

Context {Ctx : Type}.
Variable JUNIORGURU_BOT : Z.

Implicit Types (history past : list ClubMessage) (message : ClubMessage).
Implicit Types (scheduled_messages : Schedule (Ctx := Ctx)) (context : Ctx).
Implicit Types (op : Operation).

Lemma next_message_length scheduled_messages past context :
  (length (next_message scheduled_messages past context) ≤ 1)%nat.
Proof.
  induction scheduled_messages as [|[emoji render] rest IH]; simpl; [lia|].
  case_decide; simpl; lia.
Qed.

Lemma next_message_spec scheduled_messages past context op :
  op ∈ next_message scheduled_messages past context →
  ∃ emoji render,
    (emoji, render) ∈ scheduled_messages
    ∧ op = (None, prepare_message_content emoji render context)
    ∧ emoji ∉ (emoji_prefix ∘ content) <$> past.
Proof.
  induction scheduled_messages as [|[emoji render] rest IH]; simpl.
  - intros Hin. by apply elem_of_nil in Hin.
  - case_decide as Hseen.
    + intros Hin. destruct (IH Hin) as (e & r & Hr & Hop & Hmissing).
      exists e, r. split; [by right|done].
    + intros Hin. apply list_elem_of_singleton in Hin as ->.
      exists emoji, render. split; [left|done].
Qed.

Lemma next_message_complete scheduled_messages past context :
  (∀ emoji render, (emoji, render) ∈ scheduled_messages →
                   emoji ∈ (emoji_prefix ∘ content) <$> past) →
  next_message scheduled_messages past context = [].
Proof.
  induction scheduled_messages as [|[emoji render] rest IH]; simpl;
    intros Hall; [done|].
  rewrite decide_True by (eapply Hall; left).
  apply IH. intros e r Hin. eapply Hall. by right.
Qed.

Lemma edit_of_spec scheduled_messages context message op :
  edit_of scheduled_messages context message = Some op
  ↔ ∃ expected,
      expected_content scheduled_messages context message = Some expected
      ∧ content message ≠ expected
      ∧ op = (Some (id message), expected).
Proof.
  unfold edit_of.
  destruct (expected_content scheduled_messages context message)
    as [expected|]; simpl.
  - case_decide as Hsame; split.
    + done.
    + intros (e & [= <-] & Hne & _). done.
    + intros [= <-]. eauto.
    + intros (e & [= <-] & _ & ->). done.
  - split; [done|]. by intros (e & He & _).
Qed.

Lemma edits_have_ids scheduled_messages context past :
  filter (λ op : Operation, op.1 = None)
    (omap (edit_of scheduled_messages context) past) = [].
Proof.
  induction past as [|message rest IH]; simpl; [done|].
  destruct (edit_of scheduled_messages context message) as [op|] eqn:Hedit;
    [|done].
  apply edit_of_spec in Hedit as (expected & _ & _ & ->).
  by rewrite filter_cons_False.
Qed.

(** The messages that [prepare_messages] decides to send. *)
Lemma prepare_messages_sends history scheduled_messages today context :
  ∃ sends,
    prepare_messages JUNIORGURU_BOT history scheduled_messages today context
    = omap (edit_of scheduled_messages context)
        (filter (λ m, is_scheduled JUNIORGURU_BOT scheduled_messages m) history)
      ++ sends
    ∧ (sends = []
       ∨ sends
         = next_message scheduled_messages
             (filter (λ m, is_scheduled JUNIORGURU_BOT scheduled_messages m)
                     history)
             context)
    ∧ (∀ last_message,
         last (filter (λ m, is_scheduled JUNIORGURU_BOT scheduled_messages m)
                      history) = Some last_message →
         created_at last_message = today ∨ is_read last_message = false →
         sends = []).
Proof.
  unfold prepare_messages.
  destruct (last (filter _ history)) as [last_message|] eqn:Hlast.
  - destruct (bool_decide (created_at last_message = today)
              || negb (is_read last_message)) eqn:Hcap.
    + eexists. split; [done|]. split; [by left|done].
    + eexists. split; [done|]. split; [by right|].
      intros m [= <-] Hm. apply orb_false_iff in Hcap as [Hday Hread].
      apply bool_decide_eq_false in Hday. apply negb_false_iff in Hread.
      destruct Hm; congruence.
  - eexists. split; [done|]. split; [by right|done].
Qed.

(** C4. [prepare_messages] emits at most one send. It emits none when the
    last scheduled message of the history was posted today or is not read.
    Every scheduled message of the history whose content is outdated is
    edited, whatever the dates, and nothing else is edited. *)
Theorem prepare_messages_daily_cap
    history scheduled_messages (today : Z) context :
  (length (filter (λ op : Operation, op.1 = None)
             (prepare_messages JUNIORGURU_BOT history scheduled_messages
                today context)) ≤ 1)%nat
  ∧ (∀ last_message,
       last (filter (λ m, is_scheduled JUNIORGURU_BOT scheduled_messages m)
                    history) = Some last_message →
       created_at last_message = today ∨ is_read last_message = false →
       ∀ new_content,
         (None, new_content)
         ∉ prepare_messages JUNIORGURU_BOT history scheduled_messages today
             context)
  ∧ (∀ message expected,
       message ∈ history →
       is_scheduled JUNIORGURU_BOT scheduled_messages message = true →
       expected_content scheduled_messages context message = Some expected →
       content message ≠ expected →
       (Some (id message), expected)
       ∈ prepare_messages JUNIORGURU_BOT history scheduled_messages today
           context)
  ∧ (∀ message_id new_content,
       (Some message_id, new_content)
       ∈ prepare_messages JUNIORGURU_BOT history scheduled_messages today
           context →
       ∃ message,
         message ∈ history
         ∧ id message = message_id
         ∧ is_scheduled JUNIORGURU_BOT scheduled_messages message = true
         ∧ expected_content scheduled_messages context message
           = Some new_content
         ∧ content message ≠ new_content).
Proof.
  destruct (prepare_messages_sends history scheduled_messages today context)
    as (sends & -> & Hsends & Hcap).
  split; [|split; [|split]].
  - rewrite filter_app, edits_have_ids. simpl.
    etrans; [apply length_filter|].
    destruct Hsends as [->| ->]; [simpl; lia|apply next_message_length].
  - intros last_message Hlast Hwhen new_content Hin.
    rewrite (Hcap last_message Hlast Hwhen), app_nil_r in Hin.
    apply list_elem_of_omap in Hin as (message & _ & Hedit).
    apply edit_of_spec in Hedit as (expected & _ & _ & [=]).
  - intros message expected Hin Hscheduled Hexpected Houtdated.
    apply elem_of_app. left. apply list_elem_of_omap. exists message. split.
    + apply list_elem_of_filter. split; [by rewrite Hscheduled|done].
    + apply edit_of_spec. eauto.
  - intros message_id new_content Hin.
    apply elem_of_app in Hin as [Hin|Hin].
    + apply list_elem_of_omap in Hin as (message & Hin & Hedit).
      apply list_elem_of_filter in Hin as [Hscheduled Hin].
      apply edit_of_spec in Hedit as (expected & Hexpected & Houtdated & [= -> ->]).
      exists message. repeat split; try done. by apply Is_true_true.
    + destruct Hsends as [->| ->]; [by apply elem_of_nil in Hin|].
      apply next_message_spec in Hin as (? & ? & _ & [=] & _).
Qed.

(** *** Replaying the operations *)

Lemma emoji_prefix_content (emoji : string) (render : Ctx → string) context :
  emoji_prefix emoji = emoji →
  emoji_prefix (prepare_message_content emoji render context) = emoji.
Proof.
  unfold prepare_message_content.
  generalize (render context). intros text.
  induction emoji as [|c rest IH]; intros Hplain.
  - done.
  - change (String c rest +:+ " " +:+ text)
      with (String c (rest +:+ " " +:+ text)).
    simpl in *. case_decide; [done|].
    injection Hplain as Hplain. by rewrite IH.
Qed.

Lemma generator_elem_of scheduled_messages emoji render :
  generator scheduled_messages emoji = Some render →
  (emoji, render) ∈ scheduled_messages.
Proof.
  induction scheduled_messages as [|[e r] rest IH]; simpl; [done|].
  case_decide as He.
  - intros [= ->]. subst e. left.
  - intros Hg. right. auto.
Qed.

Lemma generator_NoDup scheduled_messages emoji render :
  NoDup scheduled_messages.*1 →
  (emoji, render) ∈ scheduled_messages →
  generator scheduled_messages emoji = Some render.
Proof.
  induction scheduled_messages as [|[e r] rest IH]; simpl; intros Hnd Hin.
  - by apply elem_of_nil in Hin.
  - apply NoDup_cons in Hnd as [Hnotin Hnd].
    apply elem_of_cons in Hin as [[= -> ->]|Hin].
    + by rewrite decide_True.
    + rewrite decide_False; [auto|]. intros ->. destruct Hnotin.
      by apply (list_elem_of_fmap_2 fst _ (emoji, render)).
Qed.

Lemma updated_fields scheduled_messages context message :
  id (updated JUNIORGURU_BOT scheduled_messages context message) = id message
  ∧ author_id (updated JUNIORGURU_BOT scheduled_messages context message) = author_id message
  ∧ created_at (updated JUNIORGURU_BOT scheduled_messages context message)
    = created_at message
  ∧ reactions (updated JUNIORGURU_BOT scheduled_messages context message)
    = reactions message.
Proof.
  unfold updated.
  destruct (is_scheduled _ _ _); [|done].
  by destruct (edit_of _ _ _) as [[? ?]|].
Qed.

Lemma updated_content scheduled_messages context message expected :
  is_scheduled JUNIORGURU_BOT scheduled_messages message = true →
  expected_content scheduled_messages context message = Some expected →
  content (updated JUNIORGURU_BOT scheduled_messages context message) = expected.
Proof.
  intros Hscheduled Hexpected. unfold updated, edit_of.
  rewrite Hscheduled, Hexpected. simpl. by case_decide.
Qed.

Lemma is_scheduled_expected scheduled_messages context message :
  is_scheduled JUNIORGURU_BOT scheduled_messages message = true →
  ∃ render,
    generator scheduled_messages (emoji_prefix (content message)) = Some render
    ∧ expected_content scheduled_messages context message
      = Some (prepare_message_content (emoji_prefix (content message)) render
                context).
Proof.
  unfold is_scheduled, expected_content. intros Hscheduled.
  apply andb_true_iff in Hscheduled as [_ Hgen].
  apply bool_decide_eq_true in Hgen as [render Hgen].
  exists render. by rewrite Hgen.
Qed.

Lemma updated_prefix scheduled_messages context message :
  plain_markers scheduled_messages →
  emoji_prefix (content (updated JUNIORGURU_BOT scheduled_messages context message))
  = emoji_prefix (content message).
Proof.
  intros Hplain.
  destruct (is_scheduled JUNIORGURU_BOT scheduled_messages message)
    eqn:Hscheduled.
  - destruct (is_scheduled_expected _ context _ Hscheduled)
      as (render & Hgen & Hexpected).
    rewrite (updated_content _ _ _ _ Hscheduled Hexpected).
    apply emoji_prefix_content. eapply Hplain.
    by apply generator_elem_of.
  - unfold updated. by rewrite Hscheduled.
Qed.

Lemma updated_scheduled scheduled_messages context message :
  plain_markers scheduled_messages →
  is_scheduled JUNIORGURU_BOT scheduled_messages
    (updated JUNIORGURU_BOT scheduled_messages context message)
  = is_scheduled JUNIORGURU_BOT scheduled_messages message.
Proof.
  intros Hplain. unfold is_scheduled.
  rewrite (updated_prefix _ _ _ Hplain).
  by destruct (updated_fields scheduled_messages context message)
    as (_ & -> & _).
Qed.

Lemma updated_edit_of scheduled_messages context message :
  plain_markers scheduled_messages →
  is_scheduled JUNIORGURU_BOT scheduled_messages message = true →
  edit_of scheduled_messages context
    (updated JUNIORGURU_BOT scheduled_messages context message) = None.
Proof.
  intros Hplain Hscheduled.
  destruct (is_scheduled_expected _ context _ Hscheduled)
    as (render & Hgen & Hexpected).
  unfold edit_of, expected_content.
  rewrite (updated_prefix _ _ _ Hplain), Hgen. simpl.
  rewrite (updated_content _ _ _ _ Hscheduled Hexpected).
  by rewrite decide_True.
Qed.

Lemma edit_message_other message_id new_content message :
  id message ≠ message_id →
  edit_message message_id new_content message = message.
Proof. intros Hne. unfold edit_message. by rewrite decide_False. Qed.

Lemma edit_message_own message new_content :
  edit_message (id message) new_content message
  = {| id := id message; author_id := author_id message;
       content := new_content; created_at := created_at message;
       reactions := reactions message |}.
Proof. unfold edit_message. by case_decide. Qed.

(** Membership in a list with a new head: the head is in, and what is or
    is not in the tail stays so unless it is the head. *)
Ltac in_head :=
  match goal with
  | H : _ ∉ _ :: _ |- _ => apply H; left
  end.

Ltac in_tail :=
  match goal with
  | Hin : ?x ∈ ?l, Hout : ?x ∉ _ :: ?l |- _ => apply Hout; by right
  | Hin : ?x ∈ _ :: ?l, Hout : ?x ∉ ?l |- _ =>
      apply elem_of_cons in Hin as [?|?]; done
  end.

Lemma apply_edits scheduled_messages context today new_id new_reactions
    (targets : list ClubMessage) :
  ∀ history,
    NoDup (id <$> targets) →
    (∀ m, m ∈ targets →
          is_scheduled JUNIORGURU_BOT scheduled_messages m = true) →
    (∀ m x, m ∈ targets → x ∈ history → id x = id m → x = m) →
    apply_operations JUNIORGURU_BOT today new_id new_reactions history
      (omap (edit_of scheduled_messages context) targets)
    = (λ x, if decide (id x ∈ id <$> targets)
            then updated JUNIORGURU_BOT scheduled_messages context x else x)
        <$> history.
Proof.
  unfold apply_operations.
  induction targets as [|a rest IH]; intros history Hnd Hscheduled Hsame.
  - simpl. symmetry. apply list_fmap_id.
  - simpl in Hnd. apply NoDup_cons in Hnd as [Hfresh Hnd].
    assert (Ha : is_scheduled JUNIORGURU_BOT scheduled_messages a = true)
      by (apply Hscheduled; left).
    simpl. destruct (edit_of scheduled_messages context a) as [op|] eqn:Hedit.
    + pose proof Hedit as Hop.
      apply edit_of_spec in Hop as (expected & Hexpected & Houtdated & ->).
      simpl. rewrite IH; [|done| |].
      * rewrite <- list_fmap_compose. apply list_fmap_ext.
        intros i x Hx. apply list_elem_of_lookup_2 in Hx. simpl.
        destruct (decide (id x = id a)) as [Hid|Hid].
        -- assert (x = a) as -> by (apply Hsame; [left|done|done]).
           rewrite edit_message_own. simpl.
           repeat case_decide; try (by destruct Hfresh);
             try (exfalso; in_head).
           unfold updated. by rewrite Ha, Hedit.
        -- rewrite edit_message_other by done.
           repeat case_decide; try done; exfalso; in_tail.
      * intros m Hm. apply Hscheduled. by right.
      * intros m x Hm Hx Hid.
        apply list_elem_of_fmap in Hx as (x0 & -> & Hx0).
        assert (id x0 ≠ id a) as Hne.
        { intros Heq. assert (x0 = a) as -> by (apply Hsame; [left|done|done]).
          rewrite edit_message_own in Hid.
          simpl in Hid. destruct Hfresh. rewrite Hid.
          by apply list_elem_of_fmap_2. }
        rewrite edit_message_other in * by done.
        apply Hsame; [by right|done|done].
    + rewrite IH; [|done| |].
      * apply list_fmap_ext. intros i x Hx.
        apply list_elem_of_lookup_2 in Hx. simpl.
        destruct (decide (id x = id a)) as [Hid|Hid].
        -- assert (x = a) as -> by (apply Hsame; [left|done|done]).
           repeat case_decide; try (by destruct Hfresh);
             try (exfalso; in_head).
           unfold updated. by rewrite Ha, Hedit.
        -- repeat case_decide; try done; exfalso; in_tail.
      * intros m Hm. apply Hscheduled. by right.
      * intros m x Hm Hx Hid. apply Hsame; [by right|done|done].
Qed.

Lemma updated_not_scheduled scheduled_messages context message :
  is_scheduled JUNIORGURU_BOT scheduled_messages message = false →
  updated JUNIORGURU_BOT scheduled_messages context message = message.
Proof. intros Hno. unfold updated. by rewrite Hno. Qed.

(** The edits of [prepare_messages], applied to the history, bring each
    scheduled message up to date. *)
Lemma apply_prepared_edits scheduled_messages context today new_id
    new_reactions history :
  NoDup (id <$> history) →
  apply_operations JUNIORGURU_BOT today new_id new_reactions history
    (omap (edit_of scheduled_messages context)
       (filter (λ m, is_scheduled JUNIORGURU_BOT scheduled_messages m) history))
  = updated JUNIORGURU_BOT scheduled_messages context <$> history.
Proof.
  intros Hnd. rewrite apply_edits.
  - apply list_fmap_ext. intros i x Hx. apply list_elem_of_lookup_2 in Hx.
    case_decide as Hin; [done|].
    symmetry. apply updated_not_scheduled.
    destruct (is_scheduled JUNIORGURU_BOT scheduled_messages x) eqn:Hs; [|done].
    destruct Hin. apply list_elem_of_fmap_2, list_elem_of_filter.
    split; [by rewrite Hs|done].
  - apply (sublist_NoDup _ (id <$> history)); [exact Hnd|].
    apply fmap_sublist, sublist_filter.
  - intros m Hm. apply list_elem_of_filter in Hm as [Hs _].
    by apply Is_true_true.
  - intros m x Hm Hx Hid. apply list_elem_of_filter in Hm as [_ Hm].
    by apply (NoDup_fmap_eq id history).
Qed.

Lemma filter_updated scheduled_messages context history :
  plain_markers scheduled_messages →
  filter (λ m, is_scheduled JUNIORGURU_BOT scheduled_messages m)
    (updated JUNIORGURU_BOT scheduled_messages context <$> history)
  = updated JUNIORGURU_BOT scheduled_messages context
      <$> filter (λ m, is_scheduled JUNIORGURU_BOT scheduled_messages m)
            history.
Proof.
  intros Hplain. induction history as [|m rest IH]; [done|].
  rewrite fmap_cons, !filter_cons, (updated_scheduled _ _ _ Hplain).
  case_decide; by rewrite ?fmap_cons, IH.
Qed.

Lemma edits_updated scheduled_messages context past :
  plain_markers scheduled_messages →
  (∀ m, m ∈ past → is_scheduled JUNIORGURU_BOT scheduled_messages m = true) →
  omap (edit_of scheduled_messages context)
    (updated JUNIORGURU_BOT scheduled_messages context <$> past) = [].
Proof.
  intros Hplain. induction past as [|m rest IH]; intros Hall; [done|].
  rewrite fmap_cons. simpl.
  rewrite updated_edit_of; [|done|apply Hall; left].
  apply IH. intros m' Hm'. apply Hall. by right.
Qed.

Lemma prefixes_updated scheduled_messages context past :
  plain_markers scheduled_messages →
  (emoji_prefix ∘ content)
    <$> (updated JUNIORGURU_BOT scheduled_messages context <$> past)
  = (emoji_prefix ∘ content) <$> past.
Proof.
  intros Hplain. rewrite <- list_fmap_compose. apply list_fmap_ext.
  intros i m _. simpl. by apply updated_prefix.
Qed.

Lemma next_message_prefixes scheduled_messages past past' context :
  (emoji_prefix ∘ content) <$> past' = (emoji_prefix ∘ content) <$> past →
  next_message scheduled_messages past' context
  = next_message scheduled_messages past context.
Proof.
  intros Hsame.
  induction scheduled_messages as [|[emoji render] rest IH]; simpl; [done|].
  rewrite Hsame, IH. done.
Qed.

Lemma is_read_updated scheduled_messages context message :
  is_read (updated JUNIORGURU_BOT scheduled_messages context message)
  = is_read message.
Proof.
  unfold is_read.
  by destruct (updated_fields scheduled_messages context message)
    as (_ & _ & _ & ->).
Qed.

(** Once the scheduled messages are up to date, [prepare_messages] has
    nothing to edit; what it sends is what it would have sent before. *)
Lemma rerun_updated scheduled_messages context day history :
  plain_markers scheduled_messages →
  prepare_messages JUNIORGURU_BOT
    (updated JUNIORGURU_BOT scheduled_messages context <$> history)
    scheduled_messages day context
  = match last (filter (λ m, is_scheduled JUNIORGURU_BOT scheduled_messages m)
                       history) with
    | Some m =>
        if bool_decide (created_at m = day) || negb (is_read m) then []
        else next_message scheduled_messages
               (filter (λ m, is_scheduled JUNIORGURU_BOT scheduled_messages m)
                       history) context
    | None =>
        next_message scheduled_messages
          (filter (λ m, is_scheduled JUNIORGURU_BOT scheduled_messages m)
                  history) context
    end.
Proof.
  intros Hplain. unfold prepare_messages.
  rewrite filter_updated by done.
  rewrite edits_updated; [|done|].
  2: { intros m Hm. apply list_elem_of_filter in Hm as [Hs _].
       by apply Is_true_true. }
  rewrite fmap_last. simpl.
  rewrite (next_message_prefixes _ _ _ _ (prefixes_updated _ context _ Hplain)).
  destruct (last (filter _ history)) as [m|]; simpl; [|done].
  rewrite is_read_updated.
  by destruct (updated_fields scheduled_messages context m)
    as (_ & _ & -> & _).
Qed.

(** The same once the next message is sent as well: the new message is the
    last scheduled one. *)
Lemma rerun_sent scheduled_messages context day history emoji render
    (new_message : ClubMessage) :
  NoDup scheduled_messages.*1 →
  plain_markers scheduled_messages →
  (emoji, render) ∈ scheduled_messages →
  author_id new_message = JUNIORGURU_BOT →
  content new_message = prepare_message_content emoji render context →
  prepare_messages JUNIORGURU_BOT
    ((updated JUNIORGURU_BOT scheduled_messages context <$> history)
     ++ [new_message])
    scheduled_messages day context
  = (if bool_decide (created_at new_message = day)
        || negb (is_read new_message)
     then []
     else next_message scheduled_messages
            ((updated JUNIORGURU_BOT scheduled_messages context
                <$> filter (λ m, is_scheduled JUNIORGURU_BOT scheduled_messages m)
                      history)
             ++ [new_message]) context)
  ∧ emoji_prefix (content new_message) = emoji.
Proof.
  intros Hnd Hplain Hin Hbot Hcontent.
  assert (Hprefix : emoji_prefix (content new_message) = emoji).
  { rewrite Hcontent. apply emoji_prefix_content. by eapply Hplain. }
  split; [|done].
  assert (Hs : is_scheduled JUNIORGURU_BOT scheduled_messages new_message
               = true).
  { unfold is_scheduled. rewrite Hbot, Hprefix.
    rewrite (generator_NoDup _ _ _ Hnd Hin).
    rewrite !bool_decide_eq_true_2; [done|by eexists|done]. }
  unfold prepare_messages.
  rewrite filter_app, filter_updated by done.
  rewrite (filter_cons_True _ new_message []) by by rewrite Hs.
  rewrite filter_nil, omap_app, edits_updated; [|done|].
  2: { intros m Hm. apply list_elem_of_filter in Hm as [Hm _].
       by apply Is_true_true. }
  rewrite last_snoc. simpl.
  unfold edit_of, expected_content.
  rewrite Hprefix, (generator_NoDup _ _ _ Hnd Hin). simpl.
  by rewrite decide_True.
Qed.

(** Every operation is the edit of an outdated scheduled message or the
    sending of a scheduled message that the history lacks. *)
Lemma prepare_messages_ops history scheduled_messages day context op :
  op ∈ prepare_messages JUNIORGURU_BOT history scheduled_messages day context →
  (∃ message expected,
     message ∈ history
     ∧ is_scheduled JUNIORGURU_BOT scheduled_messages message = true
     ∧ expected_content scheduled_messages context message = Some expected
     ∧ content message ≠ expected
     ∧ op = (Some (id message), expected))
  ∨ (∃ emoji render,
       (emoji, render) ∈ scheduled_messages
       ∧ op = (None, prepare_message_content emoji render context)
       ∧ ∀ message,
           message ∈ history →
           is_scheduled JUNIORGURU_BOT scheduled_messages message = true →
           emoji_prefix (content message) ≠ emoji).
Proof.
  destruct (prepare_messages_sends history scheduled_messages day context)
    as (sends & -> & Hsends & _).
  intros Hin. apply elem_of_app in Hin as [Hin|Hin].
  - left. apply list_elem_of_omap in Hin as (message & Hin & Hedit).
    apply list_elem_of_filter in Hin as [Hscheduled Hin].
    apply edit_of_spec in Hedit as (expected & Hexpected & Houtdated & ->).
    exists message, expected. repeat split; try done. by apply Is_true_true.
  - right. destruct Hsends as [->| ->]; [by apply elem_of_nil in Hin|].
    apply next_message_spec in Hin as (emoji & render & Hr & -> & Hmissing).
    exists emoji, render. repeat split; try done.
    intros message Hm Hscheduled Hprefix. destruct Hmissing.
    apply (list_elem_of_fmap_2' _ _ message); [|by rewrite <- Hprefix].
    apply list_elem_of_filter. split; [by rewrite Hscheduled|done].
Qed.

(** A history that is fully up to date: nothing to do. *)
Lemma prepare_messages_up_to_date history scheduled_messages day context :
  (∀ message,
     message ∈ history →
     is_scheduled JUNIORGURU_BOT scheduled_messages message = true →
     expected_content scheduled_messages context message
     = Some (content message)) →
  (∀ emoji render,
     (emoji, render) ∈ scheduled_messages →
     ∃ message,
       message ∈ history
       ∧ is_scheduled JUNIORGURU_BOT scheduled_messages message = true
       ∧ emoji_prefix (content message) = emoji) →
  prepare_messages JUNIORGURU_BOT history scheduled_messages day context = [].
Proof.
  intros Hcontent Hall.
  destruct (prepare_messages_sends history scheduled_messages day context)
    as (sends & -> & Hsends & _).
  assert (Hedits : omap (edit_of scheduled_messages context)
                     (filter (λ m, is_scheduled JUNIORGURU_BOT
                                     scheduled_messages m) history) = []).
  { apply elem_of_nil_inv. intros op Hin.
    apply list_elem_of_omap in Hin as (message & Hin & Hedit).
    apply list_elem_of_filter in Hin as [Hscheduled Hin].
    apply edit_of_spec in Hedit as (expected & Hexpected & Houtdated & _).
    rewrite Hcontent in Hexpected; [|done|by apply Is_true_true].
    congruence. }
  rewrite Hedits. simpl. destruct Hsends as [->| ->]; [done|].
  apply next_message_complete. intros emoji render Hin.
  destruct (Hall emoji render Hin) as (message & Hm & Hscheduled & <-).
  apply (list_elem_of_fmap_2' _ _ message); [|done].
  apply list_elem_of_filter. split; [by rewrite Hscheduled|done].
Qed.

(** The history once the operations of [prepare_messages] are applied:
    the scheduled messages are up to date, and the message that was sent, if
    any, is at the end. *)
Lemma replay_shape history scheduled_messages today context new_id
    new_reactions :
  NoDup (id <$> history) →
  (prepare_messages JUNIORGURU_BOT history scheduled_messages today context
   = omap (edit_of scheduled_messages context)
       (filter (λ m, is_scheduled JUNIORGURU_BOT scheduled_messages m) history)
   ∧ apply_operations JUNIORGURU_BOT today new_id new_reactions history
       (prepare_messages JUNIORGURU_BOT history scheduled_messages today
          context)
     = updated JUNIORGURU_BOT scheduled_messages context <$> history)
  ∨ (∃ emoji render,
       (emoji, render) ∈ scheduled_messages
       ∧ prepare_messages JUNIORGURU_BOT history scheduled_messages today
           context
         = omap (edit_of scheduled_messages context)
             (filter (λ m, is_scheduled JUNIORGURU_BOT scheduled_messages m)
                     history)
           ++ [(None, prepare_message_content emoji render context)]
       ∧ apply_operations JUNIORGURU_BOT today new_id new_reactions history
           (prepare_messages JUNIORGURU_BOT history scheduled_messages today
              context)
         = (updated JUNIORGURU_BOT scheduled_messages context <$> history)
           ++ [ {| id := new_id; author_id := JUNIORGURU_BOT;
                   content := prepare_message_content emoji render context;
                   created_at := today; reactions := new_reactions |} ]).
Proof.
  intros Hnd.
  destruct (prepare_messages_sends history scheduled_messages today context)
    as (sends & Hops & Hsends & _).
  assert (Hshape : sends = []
                   ∨ ∃ emoji render,
                       (emoji, render) ∈ scheduled_messages
                       ∧ sends = [(None, prepare_message_content emoji render
                                           context)]).
  { destruct Hsends as [->|Hnext]; [by left|].
    pose proof (next_message_length scheduled_messages
                  (filter (λ m, is_scheduled JUNIORGURU_BOT
                                  scheduled_messages m) history) context)
      as Hlen.
    rewrite <- Hnext in Hlen. destruct sends as [|op [|op' rest]].
    - by left.
    - right.
      destruct (next_message_spec scheduled_messages
                  (filter (λ m, is_scheduled JUNIORGURU_BOT
                                  scheduled_messages m) history) context op)
        as (emoji & render & Hin & -> & _); [rewrite <- Hnext; left|].
      eauto.
    - simpl in Hlen. lia. }
  rewrite Hops. unfold apply_operations. rewrite foldl_app.
  fold (apply_operations JUNIORGURU_BOT today new_id new_reactions history
          (omap (edit_of scheduled_messages context)
             (filter (λ m, is_scheduled JUNIORGURU_BOT scheduled_messages m)
                     history))).
  rewrite apply_prepared_edits by done.
  destruct Hshape as [->|(emoji & render & Hin & ->)].
  - left. by rewrite app_nil_r.
  - right. exists emoji, render. done.
Qed.

(** C3. Replay is idempotent. Take a schedule with distinct markers that
    contain no space and a history with distinct message ids, and apply the
    operations of [prepare_messages] to the history. Running
    [prepare_messages] again on the same day gives the empty list. On any
    day it sends nothing that was sent by the first run, and each operation
    it emits is the edit of a scheduled message with outdated content or
    the sending of a scheduled message that the history lacks; for a history
    that is fully up to date it emits nothing. *)
Theorem prepare_messages_idempotent
    history scheduled_messages (today : Z) context (new_id : Z)
    (new_reactions : gmap string Z) :
  NoDup scheduled_messages.*1 →
  plain_markers scheduled_messages →
  NoDup (id <$> history) →
  prepare_messages JUNIORGURU_BOT
    (apply_operations JUNIORGURU_BOT today new_id new_reactions history
       (prepare_messages JUNIORGURU_BOT history scheduled_messages today
          context))
    scheduled_messages today context = []
  ∧ (∀ day new_content,
       (None, new_content)
       ∈ prepare_messages JUNIORGURU_BOT
           (apply_operations JUNIORGURU_BOT today new_id new_reactions history
              (prepare_messages JUNIORGURU_BOT history scheduled_messages
                 today context))
           scheduled_messages day context →
       (None, new_content)
       ∉ prepare_messages JUNIORGURU_BOT history scheduled_messages today
           context)
  ∧ (∀ (history' : list ClubMessage) day op,
       op ∈ prepare_messages JUNIORGURU_BOT history' scheduled_messages day
              context →
       (∃ message expected,
          message ∈ history'
          ∧ is_scheduled JUNIORGURU_BOT scheduled_messages message = true
          ∧ expected_content scheduled_messages context message
            = Some expected
          ∧ content message ≠ expected
          ∧ op = (Some (id message), expected))
       ∨ (∃ emoji render,
            (emoji, render) ∈ scheduled_messages
            ∧ op = (None, prepare_message_content emoji render context)
            ∧ ∀ message,
                message ∈ history' →
                is_scheduled JUNIORGURU_BOT scheduled_messages message = true →
                emoji_prefix (content message) ≠ emoji))
  ∧ (∀ (history' : list ClubMessage) day,
       (∀ message,
          message ∈ history' →
          is_scheduled JUNIORGURU_BOT scheduled_messages message = true →
          expected_content scheduled_messages context message
          = Some (content message)) →
       (∀ emoji render,
          (emoji, render) ∈ scheduled_messages →
          ∃ message,
            message ∈ history'
            ∧ is_scheduled JUNIORGURU_BOT scheduled_messages message = true
            ∧ emoji_prefix (content message) = emoji) →
       prepare_messages JUNIORGURU_BOT history' scheduled_messages day context
       = []).
Proof.
  intros Hkeys Hplain Hnd.
  split; [|split; [|split]].
  - destruct (replay_shape history scheduled_messages today context new_id
                new_reactions Hnd)
      as [[Hops ->]|(emoji & render & Hin & Hops & ->)].
    + rewrite rerun_updated by done.
      destruct (prepare_messages_sends history scheduled_messages today
                  context) as (sends & Hops' & _ & _).
      unfold prepare_messages in Hops.
      apply (f_equal length) in Hops. rewrite length_app in Hops.
      destruct (last (filter _ history)) as [m|];
        [destruct (bool_decide (created_at m = today) || negb (is_read m));
         [done|]|];
        (destruct (next_message _ _ _); [done|simpl in Hops; lia]).
    + destruct (rerun_sent scheduled_messages context today history emoji
                  render
                  {| id := new_id; author_id := JUNIORGURU_BOT;
                     content := prepare_message_content emoji render context;
                     created_at := today; reactions := new_reactions |})
        as [-> _]; try done.
      simpl. by rewrite bool_decide_eq_true_2.
  - intros day new_content Hagain Hfirst.
    destruct (replay_shape history scheduled_messages today context new_id
                new_reactions Hnd)
      as [[Hops Hreplay]|(emoji & render & Hin & Hops & Hreplay)].
    + rewrite Hops in Hfirst.
      apply list_elem_of_omap in Hfirst as (message & _ & Hedit).
      apply edit_of_spec in Hedit as (expected & _ & _ & [=]).
    + rewrite Hops in Hfirst. apply elem_of_app in Hfirst as [Hfirst|Hfirst].
      { apply list_elem_of_omap in Hfirst as (message & _ & Hedit).
        apply edit_of_spec in Hedit as (expected & _ & _ & [=]). }
      apply list_elem_of_singleton in Hfirst. injection Hfirst as ->.
      rewrite Hreplay in Hagain.
      apply prepare_messages_ops in Hagain
        as [(message & expected & _ & _ & _ & _ & [=])
           |(emoji' & render' & Hin' & [= Hsame] & Hmissing)].
      assert (emoji' = emoji) as ->.
      { rewrite <- (emoji_prefix_content emoji' render' context)
          by by eapply Hplain.
        rewrite <- Hsame. apply emoji_prefix_content. by eapply Hplain. }
      eapply (Hmissing
                {| id := new_id; author_id := JUNIORGURU_BOT;
                   content := prepare_message_content emoji render context;
                   created_at := today; reactions := new_reactions |}).
      * apply elem_of_app. right. left.
      * unfold is_scheduled. simpl.
        rewrite emoji_prefix_content by by eapply Hplain.
        rewrite (generator_NoDup _ _ _ Hkeys Hin).
        rewrite !bool_decide_eq_true_2; [done|by eexists|done].
      * simpl. apply emoji_prefix_content. by eapply Hplain.
  - intros history' day op. apply prepare_messages_ops.
  - intros history' day. apply prepare_messages_up_to_date.
Qed.

End onboarding.

Lemma prepare_messages_daily_cap_witness :
  (∀ new_content,
     (None, new_content)
     ∉ Onboarding.prepare_messages Onboarding.BOT
         Onboarding.history_posted_today Onboarding.SCHEDULED_MESSAGES
         Onboarding.TODAY tt)
  ∧ (Some 1, "👋 First message")
    ∈ Onboarding.prepare_messages Onboarding.BOT
        Onboarding.history_posted_today Onboarding.SCHEDULED_MESSAGES
        Onboarding.TODAY tt.
Proof.
  destruct (prepare_messages_daily_cap Onboarding.BOT
              Onboarding.history_posted_today Onboarding.SCHEDULED_MESSAGES
              Onboarding.TODAY tt) as (_ & Hcap & Hedits & _).
  split.
  - apply (Hcap (Onboarding.create_bot_message 4 "🆗 Outdated message"
                   Onboarding.TODAY false)).
    + vm_compute. reflexivity.
    + left. reflexivity.
  - apply (Hedits (Onboarding.create_bot_message 1 "👋 Outdated message"
                     (Onboarding.TODAY - 3) false) "👋 First message").
    + left.
    + vm_compute. reflexivity.
    + vm_compute. reflexivity.
    + vm_compute. discriminate.
Defined.

Example replay_history_with_edits :
  Onboarding.content
    <$> Onboarding.apply_operations Onboarding.BOT Onboarding.TODAY 5
          {[ "✅" := 1 ]} Onboarding.history_with_edits
          (Onboarding.prepare_messages Onboarding.BOT
             Onboarding.history_with_edits Onboarding.SCHEDULED_MESSAGES
             Onboarding.TODAY tt)
  = [ "👋 First message"; "🌯 Second message"; "💤 Third message";
      "🆗 Fourth message"; "🟡 Fifth message" ].
Proof. vm_compute. reflexivity. Qed.

Lemma prepare_messages_idempotent_witness :
  Onboarding.prepare_messages Onboarding.BOT
    (Onboarding.apply_operations Onboarding.BOT Onboarding.TODAY 5
       {[ "✅" := 1 ]} Onboarding.history_with_edits
       (Onboarding.prepare_messages Onboarding.BOT
          Onboarding.history_with_edits Onboarding.SCHEDULED_MESSAGES
          Onboarding.TODAY tt))
    Onboarding.SCHEDULED_MESSAGES Onboarding.TODAY tt
  = [].
Proof.
  destruct (prepare_messages_idempotent Onboarding.BOT
              Onboarding.history_with_edits Onboarding.SCHEDULED_MESSAGES
              Onboarding.TODAY tt 5 {[ "✅" := 1 ]}) as [Hrerun _].
  - apply (bool_decide_unpack _). vm_compute. exact I.
  - intros emoji render Hin. unfold Onboarding.SCHEDULED_MESSAGES in Hin.
    repeat (apply elem_of_cons in Hin as [[= -> ->]|Hin];
            [vm_compute; reflexivity|]).
    by apply elem_of_nil in Hin.
  - apply (bool_decide_unpack _). vm_compute. exact I.
  - exact Hrerun.
Defined.

(** * Further properties *)

(** ** Applying role changes: effect and failure *)

Lemma lookup_roles_None g ids r :
  r ∈ ids → r ∉ guild_roles g → lookup_roles g ids = None.
Proof.
  unfold lookup_roles. induction ids as [|r' ids IH]; intros Hin Hunknown.
  - by apply elem_of_nil in Hin.
  - simpl. destruct (decide (r' ∈ guild_roles g)) as [Hknown|]; [|done].
    simpl. apply elem_of_cons in Hin as [->|Hin]; [done|].
    by rewrite IH.
Qed.

Lemma add_roles_None g held ids r :
  r ∈ ids → r ∉ guild_roles g → add_roles g held ids = None.
Proof.
  intros Hin Hunknown. destruct ids as [|r' ids].
  - by apply elem_of_nil in Hin.
  - unfold add_roles. by rewrite (lookup_roles_None g _ r).
Qed.

Lemma remove_roles_None g held ids r :
  r ∈ ids → r ∉ guild_roles g → remove_roles g held ids = None.
Proof.
  intros Hin Hunknown. destruct ids as [|r' ids].
  - by apply elem_of_nil in Hin.
  - unfold remove_roles. by rewrite (lookup_roles_None g _ r).
Qed.

(** Whether every role id of a list is a role of the guild. *)
Lemma roles_known_dec (g : Guild) (ids : list Z) :
  (∀ r, r ∈ ids → r ∈ guild_roles g) ∨ (∃ r, r ∈ ids ∧ r ∉ guild_roles g).
Proof.
  induction ids as [|r ids [IH|(r' & Hin & Hunknown)]].
  - left. intros r Hin. by apply elem_of_nil in Hin.
  - destruct (decide (r ∈ guild_roles g)) as [Hknown|Hunknown].
    + left. intros r' Hin. apply elem_of_cons in Hin as [->|Hin]; auto.
    + right. exists r. split; [left|done].
  - right. exists r'. split; [by right|done].
Qed.

Lemma apply_member_changes_None g member_id c :
  guild_members g !! member_id = None
  ∨ (∃ r, (r ∈ to_add c ∨ r ∈ to_remove c) ∧ r ∉ guild_roles g) →
  apply_member_changes g member_id c = None.
Proof.
  unfold apply_member_changes. intros [Hmissing|(r & Hin & Hunknown)].
  - by rewrite Hmissing.
  - destruct (guild_members g !! member_id) as [held|]; [simpl|done].
    destruct (roles_known_dec g (to_add c)) as [Hadd|(r' & Hin' & Hunknown')].
    + rewrite add_roles_Some by done. simpl.
      destruct Hin as [Hin|Hin]; [by destruct Hunknown; apply Hadd|].
      by rewrite (remove_roles_None g _ _ r).
    + by rewrite (add_roles_None g _ _ r').
Qed.

Lemma apply_grouped_None by_members :
  ∀ g,
    (∃ m c, (m, c) ∈ by_members
            ∧ (guild_members g !! m = None
               ∨ ∃ r, (r ∈ to_add c ∨ r ∈ to_remove c) ∧ r ∉ guild_roles g)) →
    apply_grouped g by_members = None.
Proof.
  induction by_members as [|[member_id c] rest IH];
    intros g (m & c' & Hin & Hbad).
  - by apply elem_of_nil in Hin.
  - simpl.
    destruct (apply_member_changes g member_id c) as [g1|] eqn:Hhead; [|done].
    simpl. apply elem_of_cons in Hin as [[= -> ->]|Hin].
    + by rewrite apply_member_changes_None in Hhead.
    + unfold apply_member_changes in Hhead.
      destruct (guild_members g !! member_id) as [held|] eqn:Hheld;
        [simpl in Hhead|done].
      destruct (add_roles g held (to_add c)) as [held1|]; [simpl in Hhead|done].
      destruct (remove_roles g held1 (to_remove c)) as [held2|];
        [simpl in Hhead|done].
      injection Hhead as <-. apply IH. exists m, c'. split; [done|]. simpl.
      destruct Hbad as [Hmissing|Hrole]; [|by right].
      left. rewrite lookup_insert_ne; [done|]. intros ->. congruence.
Qed.

Lemma grouped_entry changes m c :
  (m, c) ∈ changes_by_members changes →
  c = extend_changes no_changes m changes
  ∧ ∃ op r, (m, op, r) ∈ changes.
Proof.
  intros Hin. split.
  - apply dict_get_elem_NoDup in Hin; [|apply grouped_NoDup, NoDup_nil_2].
    pose proof (dict_get_grouped changes [] m) as Hc.
    unfold changes_by_members in Hin. rewrite Hin in Hc. done.
  - apply (list_elem_of_fmap_2 fst) in Hin. simpl in Hin.
    apply grouped_keys in Hin as [Hin|Hin]; [|done].
    by apply elem_of_nil in Hin.
Qed.

Lemma grouped_entry_of_change changes m op r :
  (m, op, r) ∈ changes →
  (m, extend_changes no_changes m changes) ∈ changes_by_members changes.
Proof.
  intros Hin.
  assert (Hkey : m ∈ (changes_by_members changes).*1).
  { apply grouped_keys. right. eauto. }
  apply list_elem_of_fmap in Hkey as ([m' c] & -> & Hentry). simpl.
  by destruct (grouped_entry _ _ _ Hentry) as [<- _].
Qed.

Lemma apply_changes_fails_none (g : Guild) (changes : list Change) :
  (∃ m op r,
     (m, op, r) ∈ changes
     ∧ (guild_members g !! m = None ∨ r ∉ guild_roles g)) →
  apply_changes g changes = None.
Proof.
  intros (m & op & r & Hin & Hbad). unfold apply_changes.
  apply apply_grouped_None.
  exists m, (extend_changes no_changes m changes).
  split; [by eapply grouped_entry_of_change|].
  destruct Hbad as [Hmissing|Hunknown]; [by left|].
  right. exists r. split; [|done].
  unfold extend_changes. simpl. rewrite !elem_of_roles_of.
  destruct op; auto.
Qed.

(** [apply_changes] raises exactly when some change names a member that
    the guild does not have, or a role that the guild does not have. *)
Theorem apply_changes_fails_iff (g : Guild) (changes : list Change) :
  apply_changes g changes = None
  ↔ ∃ m op r,
      (m, op, r) ∈ changes
      ∧ (guild_members g !! m = None ∨ r ∉ guild_roles g).
Proof.
  split.
  - intros Hnone.
    destruct (decide (Forall (λ m, is_Some (guild_members g !! m))
                        (changes_by_members changes).*1)) as [Hmembers|Hno].
    + rewrite Forall_forall in Hmembers.
      destruct (roles_known_dec g ((λ c : Change, c.2) <$> changes))
        as [Hroles|(r & Hin & Hunknown)].
      * destruct (apply_grouped_Some (changes_by_members changes) g)
          as (g' & Hsome & _); [apply grouped_NoDup, NoDup_nil_2|done| |].
        -- intros m c r Hin Hr.
           apply grouped_entry in Hin as [-> _].
           unfold extend_changes in Hr. simpl in Hr.
           rewrite !elem_of_roles_of in Hr. apply Hroles.
           destruct Hr as [Hr|Hr];
             by apply (list_elem_of_fmap_2 (λ c : Change, c.2)) in Hr.
        -- unfold apply_changes in Hnone. congruence.
      * apply list_elem_of_fmap in Hin as ([[m op] r'] & -> & Hin).
        exists m, op, r'. auto.
    + apply not_Forall_Exists in Hno; [|apply _].
      apply Exists_exists in Hno as (m & Hkey & Hmissing).
      apply grouped_keys in Hkey as [Hkey|(op & r & Hin)];
        [by apply elem_of_nil in Hkey|].
      exists m, op, r. split; [done|]. left.
      by apply eq_None_not_Some.
  - apply apply_changes_fails_none.
Qed.

Lemma apply_changes_fails_iff_witness :
  apply_changes sample_guild [(1, add, 101); (3, remove, 100)] = None
  ∧ apply_changes sample_guild [(1, add, 777)] = None.
Proof.
  split.
  - apply apply_changes_fails_iff. exists 3, remove, 100.
    split; [right; left|]. left. reflexivity.
  - apply apply_changes_fails_iff. exists 1, add, 777.
    split; [left|]. right. vm_compute. intros Hin.
    apply (bool_decide_pack _) in Hin. vm_compute in Hin. exact Hin.
Defined.

Lemma apply_changes_members (g g' : Guild) (changes : list Change) :
  apply_changes g changes = Some g' →
  guild_roles g' = guild_roles g
  ∧ ∀ m,
      guild_members g' !! m
      = reconcile (extend_changes no_changes m changes) <$> guild_members g !! m.
Proof.
  intros Hsome.
  destruct (apply_grouped_Some (changes_by_members changes) g)
    as (g'' & Hsome' & Hroles & Hmembers).
  { apply grouped_NoDup, NoDup_nil_2. }
  { intros m Hkey.
    destruct (guild_members g !! m) as [held|] eqn:Hheld; [eauto|].
    apply grouped_keys in Hkey as [Hkey|(op & r & Hin)];
      [by apply elem_of_nil in Hkey|].
    assert (apply_changes g changes = None) as Hnone; [|congruence].
    apply apply_changes_fails_none. exists m, op, r. auto. }
  { intros m c r Hin Hr.
    destruct (decide (r ∈ guild_roles g)) as [|Hunknown]; [done|].
    assert (apply_changes g changes = None) as Hnone; [|congruence].
    apply grouped_entry in Hin as [-> _].
    unfold extend_changes in Hr. simpl in Hr. rewrite !elem_of_roles_of in Hr.
    apply apply_changes_fails_none.
    destruct Hr as [Hr|Hr]; eauto 8. }
  unfold apply_changes in Hsome. rewrite Hsome' in Hsome.
  injection Hsome as ->. split; [done|].
  intros m. rewrite Hmembers. unfold changes_by_members.
  by rewrite dict_get_grouped.
Qed.

(** When [apply_changes] succeeds, the roles of the guild are as before and
    every member holds the roles held before, with the roles of the member's
    [add] changes and without the roles of the member's [remove] changes:
    the removals come last, so a role that is both added to and removed from
    a member is not held afterwards, and a member without changes is left as
    it is. *)
Theorem apply_changes_effect (g g' : Guild) (changes : list Change) :
  apply_changes g changes = Some g' →
  guild_roles g' = guild_roles g
  ∧ (∀ m,
       guild_members g' !! m
       = (λ held, (held ∪ list_to_set (roles_of add m changes))
                  ∖ list_to_set (roles_of remove m changes))
           <$> guild_members g !! m)
  ∧ (∀ m r held,
       guild_members g' !! m = Some held →
       (m, remove, r) ∈ changes → r ∉ held)
  ∧ (∀ m, (∀ op r, (m, op, r) ∉ changes) →
          guild_members g' !! m = guild_members g !! m).
Proof.
  intros Hsome.
  destruct (apply_changes_members g g' changes Hsome) as [Hroles Hall].
  split; [done|]. split; [done|]. split.
  - intros m r held Hheld Hin Hr. rewrite Hall in Hheld.
    destruct (guild_members g !! m) as [held0|]; [|done].
    injection Hheld as <-. apply elem_of_reconciled in Hr as [_ Hr]. done.
  - intros m Hnone. rewrite Hall.
    destruct (guild_members g !! m) as [held|]; [|done].
    simpl. f_equal. apply set_eq. intros r. rewrite elem_of_reconciled.
    split; [|by intros; split; [left|apply Hnone]].
    intros [[?|Hadd] _]; [done|]. by apply Hnone in Hadd.
Qed.

Lemma apply_changes_effect_witness :
  ∃ g',
    apply_changes sample_guild [(1, add, 101); (1, remove, 101); (1, remove, 100)]
    = Some g'
    ∧ guild_roles g' = guild_roles sample_guild
    ∧ (∀ held, guild_members g' !! 1 = Some held → 101 ∉ held)
    ∧ guild_members g' !! 2 = Some {[101]}.
Proof.
  destruct (apply_changes sample_guild
              [(1, add, 101); (1, remove, 101); (1, remove, 100)])
    as [g'|] eqn:Happly; [|vm_compute in Happly; discriminate].
  exists g'. split; [done|].
  destruct (apply_changes_effect _ _ _ Happly) as (Hroles & _ & Hremoved & Hsame).
  split; [done|]. split.
  - intros held Hheld. apply (Hremoved 1 101 held Hheld). right. left.
  - rewrite Hsame; [reflexivity|]. intros op r Hin.
    repeat (apply elem_of_cons in Hin as [[=]|Hin]).
    by apply elem_of_nil in Hin.
Defined.

Lemma reconciled_managed (members : list ClubUser) (managed : list (Z * list Z))
    (member : ClubUser) (r : Z) (role_members_ids : list Z) :
  NoDup managed.*1 →
  member ∈ members →
  (∀ m, m ∈ members → id m = id member →
        ∀ r, r ∈ initial_roles m ↔ r ∈ initial_roles member) →
  (r, role_members_ids) ∈ managed →
  r ∈ reconcile
        (extend_changes no_changes (id member)
           (compute_changes members managed))
        (list_to_set (initial_roles member))
  ↔ id member ∈ role_members_ids.
Proof.
  intros Hnd Hmember Hsame Hmanaged.
  rewrite elem_of_reconciled, elem_of_list_to_set. split.
  - intros [Hheld Hkept].
    destruct (decide (id member ∈ role_members_ids)) as [|Hout]; [done|].
    destruct Hheld as [Hheld|Hadd].
    + destruct Hkept. apply elem_of_compute_changes.
      exists role_members_ids, member. auto.
    + apply elem_of_compute_changes in Hadd as (T & mem & HT & _ & _ & Hin & _).
      by rewrite (managed_target_unique managed r _ T Hnd Hmanaged HT) in Hout.
  - intros Hin. split.
    + destruct (decide (r ∈ initial_roles member)) as [|Hnew]; [auto|].
      right. apply elem_of_compute_changes.
      exists role_members_ids, member. auto.
    + intros Hrem.
      apply elem_of_compute_changes in Hrem as (T & mem & HT & _ & _ & Hout & _).
      by rewrite (managed_target_unique managed r _ T Hnd Hmanaged HT) in Hin.
Qed.

(** Reconciliation reaches a fixed point: once the computed changes are
    applied, [evaluate_changes] on the roles that a member now holds gives
    no change for any managed role, so a second run has nothing to do. *)
Theorem reconciliation_fixpoint
    (g g' : Guild) (members : list ClubUser) (managed : list (Z * list Z)) :
  NoDup managed.*1 →
  (∀ m, m ∈ members →
        guild_members g !! id m = Some (list_to_set (initial_roles m))) →
  apply_changes g (compute_changes members managed) = Some g' →
  ∀ member held r role_members_ids,
    member ∈ members →
    guild_members g' !! id member = Some held →
    (r, role_members_ids) ∈ managed →
    evaluate_changes (id member) held role_members_ids r = [].
Proof.
  intros Hnd Hguild Hsome member held r T Hmember Hheld Hmanaged.
  destruct (apply_changes_members g g' _ Hsome) as [_ Hall].
  rewrite Hall, (Hguild member Hmember) in Hheld. injection Hheld as <-.
  assert (Hiff : r ∈ reconcile
                       (extend_changes no_changes (id member)
                          (compute_changes members managed))
                       (list_to_set (initial_roles member))
                 ↔ id member ∈ T).
  { apply reconciled_managed; try done. intros m Hm Hid r'.
    pose proof (Hguild m Hm) as H1. pose proof (Hguild member Hmember) as H2.
    rewrite Hid, H2 in H1. injection H1 as H1.
    rewrite <- (elem_of_list_to_set (C := gset Z) r' (initial_roles m)).
    rewrite <- (elem_of_list_to_set (C := gset Z) r' (initial_roles member)).
    by rewrite H1. }
  apply elem_of_nil_inv. intros [[m op] r'] Hin.
  apply elem_of_evaluate_changes in Hin as (-> & -> & Hop).
  destruct op; tauto.
Qed.


Lemma reconciliation_fixpoint_witness :
  ∃ g',
    apply_changes sample_guild (compute_changes sample_members sample_managed)
    = Some g'
    ∧ ∀ held,
        guild_members g' !! 1 = Some held →
        evaluate_changes 1 held [1; 2] 101 = []
        ∧ evaluate_changes 1 held [2] 100 = [].
Proof.
  destruct (apply_changes sample_guild
              (compute_changes sample_members sample_managed))
    as [g'|] eqn:Happly; [|vm_compute in Happly; discriminate].
  exists g'. split; [done|]. intros held Hheld.
  assert (Hnd : NoDup sample_managed.*1).
  { apply (bool_decide_unpack _). vm_compute. exact I. }
  assert (Hguild : ∀ m, m ∈ sample_members →
            guild_members sample_guild !! id m
            = Some (list_to_set (initial_roles m))).
  { intros m Hm. unfold sample_members in Hm.
    apply elem_of_cons in Hm as [->|Hm];
      [|apply list_elem_of_singleton in Hm as ->]; reflexivity. }
  split.
  - apply (reconciliation_fixpoint sample_guild g' sample_members
             sample_managed Hnd Hguild Happly
             {| id := 1; initial_roles := [100; 200] |} held 101 [1; 2]);
      [left|done|right; left].
  - apply (reconciliation_fixpoint sample_guild g' sample_members
             sample_managed Hnd Hguild Happly
             {| id := 1; initial_roles := [100; 200] |} held 100 [2]);
      [left|done|left].
Defined.

(** ** The counter of [calc_stats] as a dictionary *)

Ltac cons_member :=
  match goal with
  | Hin : ?x ∈ ?l, Hout : ?x ∉ _ :: ?l |- _ => apply Hout; by right
  | Hin : ?x ∈ _ :: ?l, Hout : ?x ∉ ?l |- _ =>
      apply elem_of_cons in Hin as [?|?]; [congruence|done]
  end.

Lemma dict_set_keys {V} (d : list (Z * V)) k v :
  (dict_set d k v).*1 = if decide (k ∈ d.*1) then d.*1 else d.*1 ++ [k].
Proof.
  induction d as [|[k' v'] rest IH]; [done|].
  cbn [dict_set]. destruct (decide (k' = k)) as [->|Hne]; rewrite !fmap_cons.
  - cbn [fst].
    destruct (decide (k ∈ k :: _)) as [|Hout]; [done|]. destruct Hout. left.
  - rewrite IH. cbn [fst].
    destruct (decide (k ∈ rest.*1)) as [Hin|Hout];
      destruct (decide (k ∈ k' :: _)) as [Hin'|Hout'];
      try done; exfalso; cons_member.
Qed.

Lemma dict_set_NoDup {V} (d : list (Z * V)) k v :
  NoDup d.*1 → NoDup (dict_set d k v).*1.
Proof.
  intros Hnd. rewrite dict_set_keys. case_decide; [done|].
  apply NoDup_app. split; [done|]. split; [|apply NoDup_singleton].
  intros x Hx Hk. apply list_elem_of_singleton in Hk as ->. done.
Qed.

Lemma dict_get_set {V} (d : list (Z * V)) k v k' :
  dict_get (dict_set d k v) k'
  = if decide (k = k') then Some v else dict_get d k'.
Proof.
  induction d as [|[k0 v0] rest IH]; simpl.
  - repeat case_decide; congruence.
  - destruct (decide (k0 = k)) as [->|Hne]; simpl.
    + repeat case_decide; congruence.
    + rewrite IH. repeat case_decide; congruence.
Qed.

Lemma member_counter_acc members calc_member_fn :
  ∀ d : list (Z * Z),
    NoDup d.*1 →
    NoDup (foldl (λ d member, dict_set d (id member) (calc_member_fn member))
                 d members).*1
    ∧ ∀ i,
        dict_get (foldl (λ d member,
                           dict_set d (id member) (calc_member_fn member))
                        d members) i
        = match last (filter (λ m, id m = i) members) with
          | Some m => Some (calc_member_fn m)
          | None => dict_get d i
          end.
Proof.
  induction members as [|m rest IH]; intros d Hnd; simpl.
  - split; [done|]. intros i. reflexivity.
  - destruct (IH (dict_set d (id m) (calc_member_fn m))) as [Hkeys Hget].
    { by apply dict_set_NoDup. }
    split; [done|]. intros i. rewrite Hget, dict_get_set, filter_cons.
    destruct (decide (id m = i)) as [Hi|Hi].
    + destruct (filter (λ m, id m = i) rest) as [|m' l] eqn:Hrest; [done|].
      change (last (m :: m' :: l)) with (last (m' :: l)).
      destruct (last (m' :: l)) eqn:Hlast; [done|].
      by apply last_None in Hlast.
    + done.
Qed.

Lemma member_counter_keys members calc_member_fn :
  NoDup (member_counter members calc_member_fn).*1.
Proof. apply member_counter_acc, NoDup_nil_2. Qed.

Lemma member_counter_length members calc_member_fn :
  (length (member_counter members calc_member_fn) ≤ length members)%nat.
Proof.
  unfold member_counter.
  assert (Hacc : ∀ d : list (Z * Z),
            (length (foldl (λ d member,
                              dict_set d (id member) (calc_member_fn member))
                           d members)
             ≤ length d + length members)%nat).
  { induction members as [|m rest IH]; intros d; simpl; [lia|].
    etrans; [apply IH|].
    rewrite <- (length_fmap fst (dict_set _ _ _)), dict_set_keys.
    case_decide; rewrite ?length_app, !length_fmap; simpl; lia. }
  apply (Hacc []).
Qed.

Lemma calc_stats_keys members calc_member_fn top_members_limit :
  NoDup (calc_stats members calc_member_fn top_members_limit).*1.
Proof.
  unfold calc_stats.
  apply (sublist_NoDup _ (most_common (member_counter members calc_member_fn)).*1).
  - rewrite most_common_Permutation. apply member_counter_keys.
  - apply fmap_sublist, sublist_take.
Qed.

Lemma calc_stats_entry members calc_member_fn top_members_limit i c :
  (i, c) ∈ calc_stats members calc_member_fn top_members_limit →
  ∃ m, last (filter (λ m, id m = i) members) = Some m ∧ c = calc_member_fn m.
Proof.
  unfold calc_stats. intros Hin.
  apply (subseteq_take top_members_limit) in Hin.
  rewrite most_common_Permutation in Hin.
  apply dict_get_elem_NoDup in Hin; [|apply member_counter_keys].
  unfold member_counter in Hin.
  destruct (member_counter_acc members calc_member_fn [] NoDup_nil_2)
    as [_ Hget].
  rewrite Hget in Hin.
  destruct (last (filter (λ m, id m = i) members)) as [m|]; [|done].
  exists m. split; [done|]. congruence.
Qed.

(** [calc_stats] returns a dictionary: no member id occurs twice, also when
    the list of members repeats an id, and the count of an id is that of the
    last member of the list with the id (the entry of the dictionary
    comprehension is overwritten). With a limit that is at least the number
    of members nothing is left out, and with the limit 0 nothing is
    returned. *)
Theorem calc_stats_dict
    (members : list ClubUser) (calc_member_fn : ClubUser → Z)
    (top_members_limit : nat) :
  NoDup (calc_stats members calc_member_fn top_members_limit).*1
  ∧ (∀ i c,
       (i, c) ∈ calc_stats members calc_member_fn top_members_limit →
       ∃ m, last (filter (λ m, id m = i) members) = Some m
            ∧ c = calc_member_fn m)
  ∧ ((length members ≤ top_members_limit)%nat →
     calc_stats members calc_member_fn top_members_limit
     ≡ₚ member_counter members calc_member_fn)
  ∧ calc_stats members calc_member_fn 0 = [].
Proof.
  split; [apply calc_stats_keys|]. split; [apply calc_stats_entry|]. split.
  - intros Hlimit. unfold calc_stats. rewrite take_ge.
    + apply most_common_Permutation.
    + rewrite most_common_Permutation.
      etrans; [apply member_counter_length|done].
  - done.
Qed.

Lemma calc_stats_dict_witness :
  calc_stats
    [ {| id := 1; initial_roles := [] |}; {| id := 2; initial_roles := [] |};
      {| id := 1; initial_roles := [7] |} ]
    (λ m, if decide (initial_roles m = []) then 10 else 3) 5
  ≡ₚ [(1, 3); (2, 10)].
Proof.
  etrans.
  - apply (calc_stats_dict
             [ {| id := 1; initial_roles := [] |};
               {| id := 2; initial_roles := [] |};
               {| id := 1; initial_roles := [7] |} ]
             (λ m, if decide (initial_roles m = []) then 10 else 3) 5).
    simpl. lia.
  - reflexivity.
Defined.

(** ** The members of the top *)

Section top_members.

Import RoleRules.

(** The target of a role of the top has at most twice the limit of members,
    all of them members of the list; with the limit 0 it is empty, and the
    only changes are removals. *)
Theorem top_members_ids_bound
    (members : list ClubUser) (count recent_count : ClubUser → Z)
    (top_members_limit : nat) :
  (size (top_members_ids members count recent_count top_members_limit)
   ≤ 2 * top_members_limit)%nat
  ∧ (∀ i, i ∈ top_members_ids members count recent_count top_members_limit →
          ∃ m, m ∈ members ∧ id m = i)
  ∧ top_members_ids members count recent_count 0 = ∅
  ∧ (∀ role_id m op r,
       (m, op, r) ∈ top_members_changes members count recent_count 0 role_id →
       op = remove ∧ r = role_id
       ∧ ∃ member, member ∈ members ∧ id member = m
                   ∧ role_id ∈ initial_roles member).
Proof.
  unfold top_members_ids. split; [|split; [|split]].
  - rewrite size_union_alt.
    etrans; [apply Nat.add_le_mono_l, subseteq_size, subseteq_difference_l;
             reflexivity|].
    rewrite !size_list_to_set by apply calc_stats_keys.
    rewrite !length_fmap. unfold calc_stats. rewrite !length_take. lia.
  - intros i Hin.
    assert (∃ fn c, (i, c) ∈ calc_stats members fn top_members_limit)
      as (fn & c & Hentry).
    { apply elem_of_union in Hin as [Hin|Hin];
        apply elem_of_list_to_set, list_elem_of_fmap in Hin
          as ([i' c] & -> & Hin); eauto. }
    apply calc_stats_entry in Hentry as (m & Hlast & _).
    exists m. apply last_Some_elem_of in Hlast.
    apply list_elem_of_filter in Hlast as [? ?]. done.
  - set_solver.
  - intros role_id m op r Hin. unfold top_members_changes in Hin.
    apply list_elem_of_bind in Hin as (member & Hin & Hmember).
    apply elem_of_evaluate_changes in Hin as (-> & -> & Hop).
    destruct op.
    + destruct Hop as [Hin _]. unfold top_members_ids in Hin. set_solver.
    + destruct Hop as [_ Hin]. split; [done|]. split; [done|].
      exists member. done.
Qed.

End top_members.

Lemma top_members_ids_bound_witness :
  (size (RoleRules.top_members_ids sample_ranking sample_count id 1) ≤ 2)%nat
  ∧ ∃ m, m ∈ sample_ranking ∧ id m = 4.
Proof.
  destruct (top_members_ids_bound sample_ranking sample_count id 1)
    as (Hsize & Hmembers & _).
  split; [exact Hsize|]. apply Hmembers.
  apply (bool_decide_unpack _). vm_compute. exact I.
Defined.

(** ** The roles of the partners *)

Section partner_roles.

Import PartnerRoles.

Variable order : Locations.SetOrder string.

Lemma sdict_set_keys {V} (d : list (string * V)) k v k' :
  k' ∈ (dict_set d k v).*1 ↔ k' = k ∨ k' ∈ d.*1.
Proof.
  induction d as [|[k0 v0] rest IH]; cbn [dict_set].
  - rewrite fmap_cons, list_elem_of_singleton. simpl.
    split; [auto|]. intros [?|Hin]; [done|]. by apply elem_of_nil in Hin.
  - destruct (decide (k0 = k)) as [->|Hne]; rewrite !fmap_cons; cbn [fst];
      rewrite !elem_of_cons, ?IH; naive_solver.
Qed.

Lemma sdict_get_None {V} (d : list (string * V)) k :
  dict_get d k = None ↔ k ∉ d.*1.
Proof.
  induction d as [|[k' v] rest IH]; simpl.
  - split; [intros _; apply not_elem_of_nil | done].
  - case_decide; subst.
    + split; [done | intros Hn; destruct Hn; left].
    + rewrite IH, not_elem_of_cons. naive_solver.
Qed.

Lemma sdict_get_set {V} (d : list (string * V)) k v k' :
  dict_get (dict_set d k v) k'
  = if decide (k = k') then Some v else dict_get d k'.
Proof.
  induction d as [|[k0 v0] rest IH]; simpl.
  - repeat case_decide; congruence.
  - destruct (decide (k0 = k)) as [->|Hne]; simpl.
    + repeat case_decide; congruence.
    + rewrite IH. repeat case_decide; congruence.
Qed.

(** A dictionary comprehension with a condition, over numbered items. *)
Lemma comprehension_keys (key : Partner.t → option string)
    (step : list (string * nat) → nat * Partner.t → list (string * nat))
    (items : list (nat * Partner.t)) :
  (∀ d i p, step d (i, p)
            = match key p with Some k => dict_set d k i | None => d end) →
  ∀ d k,
    k ∈ (foldl step d items).*1
    ↔ k ∈ d.*1 ∨ ∃ i p, (i, p) ∈ items ∧ key p = Some k.
Proof.
  intros Hstep. induction items as [|[i p] rest IH]; intros d k; simpl.
  - split; [auto|]. intros [?|(? & ? & Hin & _)]; [done|].
    by apply elem_of_nil in Hin.
  - rewrite IH, Hstep. split.
    + intros [Hin|(i' & p' & Hin & Hkey)].
      * destruct (key p) as [k0|] eqn:Hk; [|auto].
        apply sdict_set_keys in Hin as [->|Hin]; [|auto].
        right. exists i, p. split; [left|done].
      * right. exists i', p'. split; [by right|done].
    + intros [Hin|(i' & p' & Hin & Hkey)].
      * left. destruct (key p); [|done]. apply sdict_set_keys. auto.
      * apply elem_of_cons in Hin as [[= -> ->]|Hin].
        -- left. rewrite Hkey. apply sdict_set_keys. auto.
        -- right. eauto.
Qed.

Lemma elem_of_numbered (partners : list Partner.t) i p :
  (i, p) ∈ imap pair partners ↔ partners !! i = Some p.
Proof.
  rewrite list_elem_of_lookup. setoid_rewrite list_lookup_imap. split.
  - intros (j & Hj). destruct (partners !! j) as [q|] eqn:Hq; [|done].
    simpl in Hj. by injection Hj as -> ->.
  - intros Hp. exists i. by rewrite Hp.
Qed.

Lemma partner_roles_keys partners k :
  k ∈ (partner_roles_mapping partners).*1
  ↔ ∃ p, p ∈ partners ∧ k = PARTNER_ROLE_PREFIX +:+ Partner.name p.
Proof.
  unfold partner_roles_mapping.
  rewrite (comprehension_keys
             (λ p, Some (PARTNER_ROLE_PREFIX +:+ Partner.name p)));
    [|done].
  split.
  - intros [Hin|(i & p & Hin & [= <-])]; [by apply elem_of_nil in Hin|].
    exists p. split; [|done].
    apply elem_of_numbered in Hin. by eapply list_elem_of_lookup_2.
  - intros (p & Hin & ->). right.
    apply list_elem_of_lookup in Hin as [i Hi].
    exists i, p. split; [by apply elem_of_numbered|done].
Qed.

Lemma student_roles_keys partners k :
  k ∈ (student_roles_mapping partners).*1
  ↔ ∃ p, p ∈ partners
         ∧ has_coupon (Partner.student_coupon p) = true
         ∧ k = STUDENT_ROLE_PREFIX +:+ Partner.name p.
Proof.
  unfold student_roles_mapping.
  rewrite (comprehension_keys
             (λ p, if has_coupon (Partner.student_coupon p)
                   then Some (STUDENT_ROLE_PREFIX +:+ Partner.name p)
                   else None)).
  2: { intros d i p. by destruct (has_coupon _). }
  split.
  - intros [Hin|(i & p & Hin & Hkey)]; [by apply elem_of_nil in Hin|].
    exists p. destruct (has_coupon _) eqn:Hc; [|done]. injection Hkey as <-.
    split; [|done].
    apply elem_of_numbered in Hin. by eapply list_elem_of_lookup_2.
  - intros (p & Hin & Hc & ->). right.
    apply list_elem_of_lookup in Hin as [i Hi].
    exists i, p. split; [by apply elem_of_numbered|by rewrite Hc].
Qed.

Lemma prefix_append (s t : string) : String.prefix s (s +:+ t) = true.
Proof.
  induction s as [|c s IH]; [by destruct t|].
  change (String c s +:+ t) with (String c (s +:+ t)). simpl.
  destruct (ascii_dec c c); [done|congruence].
Qed.

Lemma roles_names_spec partners n :
  n ∈ roles_names partners
  ↔ ∃ p, p ∈ partners
         ∧ (n = PARTNER_ROLE_PREFIX +:+ Partner.name p
            ∨ has_coupon (Partner.student_coupon p) = true
              ∧ n = STUDENT_ROLE_PREFIX +:+ Partner.name p).
Proof.
  unfold roles_names.
  rewrite elem_of_app, partner_roles_keys, student_roles_keys. naive_solver.
Qed.

Lemma roles_names_prefix partners n :
  n ∈ roles_names partners → has_prefix n = true.
Proof.
  intros Hin. apply roles_names_spec in Hin as (p & _ & [->|[_ ->]]);
    unfold has_prefix; rewrite prefix_append; [done|apply orb_true_r].
Qed.

Lemma elem_of_removals discord_roles partners role :
  Delete role ∈ (manage_partner_roles order discord_roles partners).1
  ↔ role ∈ discord_roles
    ∧ has_prefix (Role.name role) = true
    ∧ Role.name role ∉ roles_names partners.
Proof.
  unfold manage_partner_roles. simpl. rewrite elem_of_app. split.
  - intros [Hin|Hin].
    + apply list_elem_of_fmap in Hin as (role' & [= <-] & Hin).
      unfold roles_to_remove, existing_roles in Hin.
      apply list_elem_of_filter in Hin as [Hunwanted Hin].
      apply list_elem_of_filter in Hin as [Hprefix Hin].
      split; [done|]. split; [by apply Is_true_true|done].
    + apply list_elem_of_fmap in Hin as (n & [=] & _).
  - intros (Hin & Hprefix & Hunwanted). left.
    apply list_elem_of_fmap. exists role. split; [done|].
    unfold roles_to_remove, existing_roles.
    apply list_elem_of_filter. split; [done|].
    apply list_elem_of_filter. split; [by rewrite Hprefix|done].
Qed.

Lemma elem_of_additions discord_roles partners n c :
  Create n c ∈ (manage_partner_roles order discord_roles partners).1
  ↔ n ∈ roles_names partners
    ∧ (n ∉ Role.name <$> existing_roles discord_roles)
    ∧ c = (if String.prefix PARTNER_ROLE_PREFIX n
           then dark_grey else default_color).
Proof.
  unfold manage_partner_roles. simpl. rewrite elem_of_app. split.
  - intros [Hin|Hin].
    + apply list_elem_of_fmap in Hin as (role & [=] & _).
    + apply list_elem_of_fmap in Hin as (n' & [= <- ->] & Hin).
      unfold roles_names_to_add in Hin.
      apply Locations.set_list_elem, list_elem_of_filter in Hin as [? ?].
      done.
  - intros (Hwanted & Hnew & ->). right.
    apply list_elem_of_fmap. exists n. split; [done|].
    unfold roles_names_to_add.
    apply Locations.set_list_elem, list_elem_of_filter. done.
Qed.

(** [manage_partner_roles] deletes exactly the roles of the guild that have
    one of the two prefixes and a name that no partner asks for: a role
    without the prefixes is never deleted, and neither is a role of a
    partner of the list. *)
Theorem manage_partner_roles_deletes
    (discord_roles : list Role.t) (partners : list Partner.t) :
  (∀ role,
     Delete role ∈ (manage_partner_roles order discord_roles partners).1
     ↔ role ∈ discord_roles
       ∧ has_prefix (Role.name role) = true
       ∧ Role.name role ∉ roles_names partners)
  ∧ (∀ role partner,
       partner ∈ partners →
       Role.name role = PARTNER_ROLE_PREFIX +:+ Partner.name partner →
       Delete role ∉ (manage_partner_roles order discord_roles partners).1)
  ∧ (∀ role partner,
       partner ∈ partners →
       has_coupon (Partner.student_coupon partner) = true →
       Role.name role = STUDENT_ROLE_PREFIX +:+ Partner.name partner →
       Delete role ∉ (manage_partner_roles order discord_roles partners).1).
Proof.
  split; [apply elem_of_removals|]. split.
  - intros role partner Hin Hname Hdel.
    apply elem_of_removals in Hdel as (_ & _ & Hunwanted).
    apply Hunwanted, roles_names_spec. exists partner. auto.
  - intros role partner Hin Hcoupon Hname Hdel.
    apply elem_of_removals in Hdel as (_ & _ & Hunwanted).
    apply Hunwanted, roles_names_spec. exists partner. auto.
Qed.

(** Once the calls of [manage_partner_roles] are made, the names of the
    roles with the two prefixes are exactly the names asked for: the partner
    role of every partner and the student role of every partner with a
    student coupon. No name is created twice, none that a role already has,
    and a created partner role is dark grey. *)
Theorem manage_partner_roles_names
    (discord_roles : list Role.t) (partners : list Partner.t) :
  (∀ n,
     n ∈ names_after discord_roles
           (manage_partner_roles order discord_roles partners).1
     ↔ ∃ p, p ∈ partners
            ∧ (n = PARTNER_ROLE_PREFIX +:+ Partner.name p
               ∨ has_coupon (Partner.student_coupon p) = true
                 ∧ n = STUDENT_ROLE_PREFIX +:+ Partner.name p))
  ∧ NoDup (omap (λ op, match op with
                       | Create n _ => Some n
                       | Delete _ => None
                       end)
             (manage_partner_roles order discord_roles partners).1)
  ∧ (∀ n c,
       Create n c ∈ (manage_partner_roles order discord_roles partners).1 →
       (∀ role, role ∈ discord_roles → Role.name role ≠ n)
       ∧ ((c = dark_grey) ↔ String.prefix PARTNER_ROLE_PREFIX n = true)).
Proof.
  split; [|split].
  - intros n. rewrite <- roles_names_spec. unfold names_after.
    rewrite elem_of_app, list_elem_of_fmap, list_elem_of_omap. split.
    + intros [(role & -> & Hin)|(op & Hin & Hop)].
      * apply list_elem_of_filter in Hin as [[Hprefix Hkept] Hin].
        destruct (decide (Role.name role ∈ roles_names partners)) as [|Hout];
          [done|].
        destruct Hkept. apply elem_of_removals.
        split; [done|]. split; [by apply Is_true_true|done].
      * destruct op as [|n' c]; [done|]. injection Hop as ->.
        by apply elem_of_additions in Hin as (? & _).
    + intros Hwanted.
      destruct (decide (n ∈ Role.name <$> existing_roles discord_roles))
        as [Hexists|Hnew].
      * left. apply list_elem_of_fmap in Hexists as (role & -> & Hin).
        exists role. split; [done|]. unfold existing_roles in Hin.
        apply list_elem_of_filter in Hin as [Hprefix Hin].
        apply list_elem_of_filter. split; [|done]. split; [done|].
        intros Hdel. by apply elem_of_removals in Hdel as (_ & _ & ?).
      * right. exists (Create n (if String.prefix PARTNER_ROLE_PREFIX n
                                 then dark_grey else default_color)).
        split; [|done]. by apply elem_of_additions.
  - unfold manage_partner_roles. simpl. rewrite omap_app.
    assert (Hnone : omap (λ op, match op with
                                | Create n _ => Some n
                                | Delete _ => None
                                end)
                      (Delete <$> roles_to_remove discord_roles partners)
                    = []).
    { induction (roles_to_remove discord_roles partners); [done|]. done. }
    rewrite Hnone. simpl.
    assert (Hall : ∀ l : list string,
              omap (λ op, match op with
                          | Create n _ => Some n
                          | Delete _ => None
                          end)
                ((λ role_name,
                    Create role_name
                      (if String.prefix PARTNER_ROLE_PREFIX role_name
                       then dark_grey else default_color)) <$> l)
              = l).
    { induction l as [|n l IH]; [done|]. simpl. by f_equal. }
    rewrite Hall. apply Locations.set_list_NoDup.
  - intros n c Hin. apply elem_of_additions in Hin as (Hwanted & Hnew & ->).
    split.
    + intros role Hrole Hname. destruct Hnew.
      apply list_elem_of_fmap. exists role. split; [done|].
      apply list_elem_of_filter. split; [|done].
      rewrite Hname. by rewrite (roles_names_prefix partners).
    + by destruct (String.prefix PARTNER_ROLE_PREFIX n).
Qed.

Lemma comprehension_get_sound (key : Partner.t → option string)
    (step : list (string * nat) → nat * Partner.t → list (string * nat))
    (items : list (nat * Partner.t)) :
  (∀ d i p, step d (i, p)
            = match key p with Some k => dict_set d k i | None => d end) →
  ∀ d k i,
    dict_get (foldl step d items) k = Some i →
    dict_get d k = Some i ∨ ∃ p, (i, p) ∈ items ∧ key p = Some k.
Proof.
  intros Hstep. induction items as [|[j q] rest IH]; intros d k i; simpl.
  - auto.
  - intros Hget. apply IH in Hget as [Hget|(p & Hin & Hkey)].
    + rewrite Hstep in Hget. destruct (key q) as [k0|] eqn:Hk; [|auto].
      rewrite sdict_get_set in Hget. case_decide as Hk0; [|auto].
      injection Hget as <-. subst k0. right. exists q. split; [left|done].
    + right. exists p. split; [by right|done].
Qed.

Lemma comprehension_get_last (key : Partner.t → option string)
    (step : list (string * nat) → nat * Partner.t → list (string * nat))
    (items : list (nat * Partner.t)) (k : string) (i : nat) :
  (∀ d i p, step d (i, p)
            = match key p with Some k => dict_set d k i | None => d end) →
  (∀ j q, (j, q) ∈ items → key q = Some k → j = i) →
  ∀ d,
    dict_get d k = Some i ∨ (∃ p, (i, p) ∈ items ∧ key p = Some k) →
    dict_get (foldl step d items) k = Some i.
Proof.
  intros Hstep. induction items as [|[j q] rest IH]; intros Hsame d Hd; simpl.
  - destruct Hd as [?|(? & Hin & _)]; [done|]. by apply elem_of_nil in Hin.
  - apply IH; [intros j' q' Hin; apply Hsame; by right|].
    rewrite Hstep.
    destruct (decide (key q = Some k)) as [Hk|Hk].
    + left. rewrite Hk, sdict_get_set, decide_True by done.
      f_equal. apply (Hsame j q); [left|done].
    + destruct Hd as [Hd|(p & Hin & Hkey)].
      * left. destruct (key q) as [k0|]; [|done].
        rewrite sdict_get_set, decide_False; [done|congruence].
      * apply elem_of_cons in Hin as [[= <- <-]|Hin]; [done|]. eauto.
Qed.

Lemma append_inj (s a b : string) : s +:+ a = s +:+ b → a = b.
Proof.
  induction s as [|c s IH]; [done|].
  change (String c s +:+ a) with (String c (s +:+ a)).
  change (String c s +:+ b) with (String c (s +:+ b)).
  intros [= H]. auto.
Qed.

Lemma prefixes_differ (a b : string) :
  PARTNER_ROLE_PREFIX +:+ a ≠ STUDENT_ROLE_PREFIX +:+ b.
Proof. intros H. vm_compute in H. discriminate H. Qed.

Lemma partner_roles_get partners k i :
  dict_get (partner_roles_mapping partners) k = Some i →
  ∃ p, partners !! i = Some p ∧ k = PARTNER_ROLE_PREFIX +:+ Partner.name p.
Proof.
  intros Hget.
  apply (comprehension_get_sound
           (λ p, Some (PARTNER_ROLE_PREFIX +:+ Partner.name p))) in Hget
    as [Hget|(p & Hin & [= <-])]; [done| |done].
  exists p. split; [|done]. by apply elem_of_numbered.
Qed.

Lemma student_roles_get partners k i :
  dict_get (student_roles_mapping partners) k = Some i →
  ∃ p, partners !! i = Some p
       ∧ has_coupon (Partner.student_coupon p) = true
       ∧ k = STUDENT_ROLE_PREFIX +:+ Partner.name p.
Proof.
  intros Hget.
  apply (comprehension_get_sound
           (λ p, if has_coupon (Partner.student_coupon p)
                 then Some (STUDENT_ROLE_PREFIX +:+ Partner.name p)
                 else None)) in Hget
    as [Hget|(p & Hin & Hkey)]; [done| |].
  - exists p. destruct (has_coupon _); [|done]. injection Hkey as <-.
    split; [|done]. by apply elem_of_numbered.
  - intros d j q. by destruct (has_coupon _).
Qed.

Lemma partner_roles_get_NoDup partners i p :
  NoDup (Partner.name <$> partners) →
  partners !! i = Some p →
  dict_get (partner_roles_mapping partners)
    (PARTNER_ROLE_PREFIX +:+ Partner.name p) = Some i.
Proof.
  intros Hnd Hp.
  apply (comprehension_get_last
           (λ p, Some (PARTNER_ROLE_PREFIX +:+ Partner.name p))); [done| |].
  - intros j q Hin [= Hname]. apply append_inj in Hname.
    apply elem_of_numbered in Hin.
    apply (NoDup_lookup (Partner.name <$> partners) j i (Partner.name p));
      [done| |]; rewrite list_lookup_fmap; [rewrite Hin|rewrite Hp];
      simpl; congruence.
  - right. exists p. split; [by apply elem_of_numbered|done].
Qed.

Lemma student_roles_get_NoDup partners i p :
  NoDup (Partner.name <$> partners) →
  partners !! i = Some p →
  has_coupon (Partner.student_coupon p) = true →
  dict_get (student_roles_mapping partners)
    (STUDENT_ROLE_PREFIX +:+ Partner.name p) = Some i.
Proof.
  intros Hnd Hp Hcoupon.
  apply (comprehension_get_last
           (λ p, if has_coupon (Partner.student_coupon p)
                 then Some (STUDENT_ROLE_PREFIX +:+ Partner.name p)
                 else None)).
  - intros d j q. by destruct (has_coupon (Partner.student_coupon q)).
  - intros j q Hin Hkey.
    destruct (has_coupon (Partner.student_coupon q)); [|done].
    injection Hkey as Hname. apply append_inj in Hname.
    apply elem_of_numbered in Hin.
    apply (NoDup_lookup (Partner.name <$> partners) j i (Partner.name p));
      [done| |]; rewrite list_lookup_fmap; [rewrite Hin|rewrite Hp];
      simpl; congruence.
  - right. exists p. split; [by apply elem_of_numbered|by rewrite Hcoupon].
Qed.

Lemma last_cons_match {A : Type} (x : A) (l : list A) :
  last (x :: l) = match last l with Some y => Some y | None => Some x end.
Proof.
  destruct l as [|y l]; [done|].
  change (last (x :: y :: l)) with (last (y :: l)).
  destruct (last (y :: l)) eqn:Hlast; [done|].
  by apply last_None in Hlast.
Qed.

(** The last loop, followed at one position of the list of partners: the
    partner keeps its name and coupon, its role is the last role that the
    first dictionary sends there, its student role the last one that only
    the second dictionary sends there. *)
Lemma assign_roles_lookup (p_map s_map : list (string * nat)) (i : nat)
    (roles : list Role.t) :
  ∀ (partners : list Partner.t) (q : Partner.t),
    partners !! i = Some q →
    ∃ q', foldl (assign_role p_map s_map) partners roles !! i = Some q'
      ∧ Partner.name q' = Partner.name q
      ∧ Partner.student_coupon q' = Partner.student_coupon q
      ∧ Partner.role_id q'
        = match last (filter (λ r, dict_get p_map (Role.name r) = Some i)
                        roles) with
          | Some r => Some (Role.id r)
          | None => Partner.role_id q
          end
      ∧ Partner.student_role_id q'
        = match last (filter (λ r, dict_get p_map (Role.name r) = None
                                   ∧ dict_get s_map (Role.name r) = Some i)
                        roles) with
          | Some r => Some (Role.id r)
          | None => Partner.student_role_id q
          end.
Proof.
  induction roles as [|r roles IH]; intros partners q Hq.
  - exists q. done.
  - cbn [foldl]. unfold assign_role at 2.
    destruct (dict_get p_map (Role.name r)) as [j|] eqn:Hp.
    + destruct (decide (j = i)) as [->|Hji].
      * destruct (IH (alter (set_role_id (Role.id r)) i partners)
                    (set_role_id (Role.id r) q))
          as (q' & Hq' & Hname & Hcoupon & Hrole & Hstudent).
        { by rewrite list_lookup_alter_eq, Hq. }
        exists q'. split; [done|]. split; [done|]. split; [done|]. split.
        -- rewrite filter_cons_True by done. rewrite last_cons_match, Hrole.
           by destruct (last _).
        -- rewrite filter_cons_False; [done|]. intros [? _]. congruence.
      * destruct (IH (alter (set_role_id (Role.id r)) j partners) q)
          as (q' & Hq' & Hname & Hcoupon & Hrole & Hstudent).
        { by rewrite list_lookup_alter_ne. }
        exists q'. split; [done|]. split; [done|]. split; [done|]. split.
        -- rewrite filter_cons_False; [done|]. congruence.
        -- rewrite filter_cons_False; [done|]. intros [? _]. congruence.
    + destruct (dict_get s_map (Role.name r)) as [j|] eqn:Hs.
      * destruct (decide (j = i)) as [->|Hji].
        -- destruct (IH (alter (set_student_role_id (Role.id r)) i partners)
                       (set_student_role_id (Role.id r) q))
             as (q' & Hq' & Hname & Hcoupon & Hrole & Hstudent).
           { by rewrite list_lookup_alter_eq, Hq. }
           exists q'. split; [done|]. split; [done|]. split; [done|]. split.
           ++ rewrite filter_cons_False; [done|]. congruence.
           ++ rewrite filter_cons_True by done.
              rewrite last_cons_match, Hstudent. clear IH Hrole.
              by destruct (last _).
        -- destruct (IH (alter (set_student_role_id (Role.id r)) j partners) q)
             as (q' & Hq' & Hname & Hcoupon & Hrole & Hstudent).
           { by rewrite list_lookup_alter_ne. }
           exists q'. split; [done|]. split; [done|]. split; [done|]. split.
           ++ rewrite filter_cons_False; [done|]. congruence.
           ++ rewrite filter_cons_False; [done|]. intros [_ ?]. congruence.
      * destruct (IH partners q Hq)
          as (q' & Hq' & Hname & Hcoupon & Hrole & Hstudent).
        exists q'. split; [done|]. split; [done|]. split; [done|]. split.
        -- rewrite filter_cons_False; [done|]. congruence.
        -- rewrite filter_cons_False; [done|]. intros [_ ?]. congruence.
Qed.

Lemma assign_roles_length (p_map s_map : list (string * nat))
    (roles : list Role.t) :
  ∀ partners : list Partner.t,
    length (foldl (assign_role p_map s_map) partners roles) = length partners.
Proof.
  induction roles as [|r roles IH]; intros partners; [done|].
  cbn [foldl]. rewrite IH. unfold assign_role.
  destruct (dict_get p_map _); [by rewrite length_alter|].
  destruct (dict_get s_map _); [by rewrite length_alter|done].
Qed.

Lemma has_prefix_partner (n : string) :
  Is_true (has_prefix (PARTNER_ROLE_PREFIX +:+ n)).
Proof. unfold has_prefix. by rewrite prefix_append. Qed.

Lemma has_prefix_student (n : string) :
  Is_true (has_prefix (STUDENT_ROLE_PREFIX +:+ n)).
Proof.
  unfold has_prefix. rewrite (prefix_append STUDENT_ROLE_PREFIX).
  by rewrite orb_true_r.
Qed.

(** With partners of different names, the roles that the last loop gives
    to a partner are the roles of the guild that carry its name. *)
Lemma partner_roles_of_name partners discord_roles i p :
  NoDup (Partner.name <$> partners) →
  partners !! i = Some p →
  filter (λ r, dict_get (partner_roles_mapping partners) (Role.name r) = Some i)
         (existing_roles discord_roles)
  = filter (λ r, Role.name r = PARTNER_ROLE_PREFIX +:+ Partner.name p)
           discord_roles.
Proof.
  intros Hnd Hp. unfold existing_roles. rewrite list_filter_filter.
  apply list_filter_iff. intros r. split.
  - intros [Hget _]. apply partner_roles_get in Hget as (p0 & Hp0 & ->).
    congruence.
  - intros ->. split; [by apply partner_roles_get_NoDup|].
    apply has_prefix_partner.
Qed.

Lemma student_roles_of_name partners discord_roles i p :
  NoDup (Partner.name <$> partners) →
  partners !! i = Some p →
  has_coupon (Partner.student_coupon p) = true →
  filter (λ r, dict_get (partner_roles_mapping partners) (Role.name r) = None
               ∧ dict_get (student_roles_mapping partners) (Role.name r)
                 = Some i)
         (existing_roles discord_roles)
  = filter (λ r, Role.name r = STUDENT_ROLE_PREFIX +:+ Partner.name p)
           discord_roles.
Proof.
  intros Hnd Hp Hcoupon. unfold existing_roles. rewrite list_filter_filter.
  apply list_filter_iff. intros r. split.
  - intros [[_ Hget] _].
    apply student_roles_get in Hget as (p0 & Hp0 & _ & ->). congruence.
  - intros ->. split; [split|apply has_prefix_student].
    + destruct (dict_get (partner_roles_mapping partners) _) as [j|] eqn:Hget;
        [|done].
      apply partner_roles_get in Hget as (p0 & _ & Hname).
      symmetry in Hname. by apply prefixes_differ in Hname.
    + by apply student_roles_get_NoDup.
Qed.

(** What [manage_partner_roles] saves on a partner: the name and the coupon
    are kept; a role identifier is only ever replaced by that of a role of
    the guild, as it was fetched, that carries the partner's name (and, for
    the student role, only if the partner has a coupon). With partners of
    different names the identifier saved is that of the last such role, and
    the old one is kept when there is none, also when the role has just been
    created by the same call. *)
Theorem manage_partner_roles_assigns
    (discord_roles : list Role.t) (partners : list Partner.t)
    (i : nat) (p : Partner.t) :
  partners !! i = Some p →
  ∃ p',
    (manage_partner_roles order discord_roles partners).2 !! i = Some p'
    ∧ Partner.name p' = Partner.name p
    ∧ Partner.student_coupon p' = Partner.student_coupon p
    ∧ (Partner.role_id p' = Partner.role_id p
       ∨ ∃ role, role ∈ discord_roles
                 ∧ Role.name role = PARTNER_ROLE_PREFIX +:+ Partner.name p
                 ∧ Partner.role_id p' = Some (Role.id role))
    ∧ (Partner.student_role_id p' = Partner.student_role_id p
       ∨ ∃ role, role ∈ discord_roles
                 ∧ Role.name role = STUDENT_ROLE_PREFIX +:+ Partner.name p
                 ∧ has_coupon (Partner.student_coupon p) = true
                 ∧ Partner.student_role_id p' = Some (Role.id role))
    ∧ (NoDup (Partner.name <$> partners) →
       Partner.role_id p'
       = match last (filter (λ r, Role.name r
                                  = PARTNER_ROLE_PREFIX +:+ Partner.name p)
                       discord_roles) with
         | Some role => Some (Role.id role)
         | None => Partner.role_id p
         end
       ∧ (has_coupon (Partner.student_coupon p) = true →
          Partner.student_role_id p'
          = match last (filter (λ r, Role.name r
                                     = STUDENT_ROLE_PREFIX +:+ Partner.name p)
                          discord_roles) with
            | Some role => Some (Role.id role)
            | None => Partner.student_role_id p
            end)).
Proof.
  intros Hp. unfold manage_partner_roles. cbn [snd].
  destruct (assign_roles_lookup (partner_roles_mapping partners)
              (student_roles_mapping partners) i
              (existing_roles discord_roles) partners p Hp)
    as (p' & Hp' & Hname & Hcoupon & Hrole & Hstudent).
  exists p'. split; [done|]. split; [done|]. split; [done|].
  split; [|split].
  - destruct (last (filter _ (existing_roles discord_roles)))
      as [role|] eqn:Hlast in Hrole; [|by left].
    right. exists role.
    apply last_Some_elem_of, list_elem_of_filter in Hlast as [Hget Hin].
    apply list_elem_of_filter in Hin as [_ Hin].
    apply partner_roles_get in Hget as (p0 & Hp0 & Hget).
    split; [done|]. split; [congruence|done].
  - clear Hrole.
    destruct (last (filter _ (existing_roles discord_roles)))
      as [role|] eqn:Hlast in Hstudent; [|by left].
    right. exists role.
    apply last_Some_elem_of, list_elem_of_filter in Hlast as [[_ Hget] Hin].
    apply list_elem_of_filter in Hin as [_ Hin].
    apply student_roles_get in Hget as (p0 & Hp0 & Hc & Hget).
    assert (p0 = p) as -> by congruence. done.
  - intros Hnd. split.
    + by rewrite Hrole, (partner_roles_of_name _ _ _ p).
    + intros Hc. by rewrite Hstudent, (student_roles_of_name _ _ _ p).
Qed.

End partner_roles.

Lemma manage_partner_roles_deletes_witness :
  PartnerRoles.Delete {| PartnerRoles.Role.id := 11;
                         PartnerRoles.Role.name := "Firma: Gone" |}
    ∈ (PartnerRoles.manage_partner_roles Locations.first_seen
         PartnerRoles.sample_roles PartnerRoles.sample_partners).1
  ∧ PartnerRoles.Delete {| PartnerRoles.Role.id := 10;
                           PartnerRoles.Role.name := "Firma: Apify" |}
    ∉ (PartnerRoles.manage_partner_roles Locations.first_seen
         PartnerRoles.sample_roles PartnerRoles.sample_partners).1.
Proof.
  destruct (manage_partner_roles_deletes Locations.first_seen
              PartnerRoles.sample_roles PartnerRoles.sample_partners)
    as (Hdel & Hkeep & _).
  split.
  - apply Hdel. split; [|split].
    + apply (bool_decide_unpack _). vm_compute. exact I.
    + reflexivity.
    + apply (bool_decide_unpack _). vm_compute. exact I.
  - apply (Hkeep _ {| PartnerRoles.Partner.name := "Apify";
                      PartnerRoles.Partner.student_coupon := None;
                      PartnerRoles.Partner.role_id := None;
                      PartnerRoles.Partner.student_role_id := None |}).
    + left.
    + reflexivity.
Defined.

Lemma manage_partner_roles_names_witness :
  "Student: CoreSkill"
    ∈ PartnerRoles.names_after PartnerRoles.sample_roles
        (PartnerRoles.manage_partner_roles Locations.first_seen
           PartnerRoles.sample_roles PartnerRoles.sample_partners).1
  ∧ ∀ role, role ∈ PartnerRoles.sample_roles →
            PartnerRoles.Role.name role ≠ "Student: CoreSkill".
Proof.
  destruct (manage_partner_roles_names Locations.first_seen
              PartnerRoles.sample_roles PartnerRoles.sample_partners)
    as (Hnames & _ & Hcreate).
  split.
  - apply Hnames.
    exists {| PartnerRoles.Partner.name := "CoreSkill";
              PartnerRoles.Partner.student_coupon := Some "STUDENT1";
              PartnerRoles.Partner.role_id := None;
              PartnerRoles.Partner.student_role_id := None |}.
    split; [right; left|]. right. split; reflexivity.
  - apply (Hcreate _ PartnerRoles.default_color).
    apply (bool_decide_unpack _). vm_compute. exact I.
Defined.

Lemma manage_partner_roles_assigns_witness :
  ∃ p', (PartnerRoles.manage_partner_roles Locations.first_seen
           PartnerRoles.sample_roles PartnerRoles.sample_partners).2 !! 0%nat
        = Some p'
        ∧ PartnerRoles.Partner.role_id p' = Some 10.
Proof.
  destruct (manage_partner_roles_assigns Locations.first_seen
              PartnerRoles.sample_roles PartnerRoles.sample_partners
              0%nat _ eq_refl)
    as (p' & Hp' & _ & _ & _ & _ & Hlast).
  exists p'. split; [exact Hp'|].
  destruct Hlast as [Hrole _].
  { apply (bool_decide_unpack _). vm_compute. exact I. }
  rewrite Hrole. reflexivity.
Defined.

(** ** The calls of the locations stage *)

Section locations_calls.

Import Python Locations.

Variable search : Pattern → string → bool.
Variable lower : string → string.
Variable order : SetOrder (string * string).

(** The state after the comprehension of [process], when each call of
    [parse_location] takes a state [s] to [step s loc]. *)
Lemma for_each_parse_state {S : Type} (mapycz : Geocode S) (item : Item)
    (geocode : option (Geocode S)) (step : S → string → S) :
  (∀ loc s,
     (parse_location search lower mapycz loc item geocode s).2 = step s loc) →
  ∀ raw s,
    (for_each (λ loc, parse_location search lower mapycz loc item geocode)
              raw s).2
    = foldl step s raw.
Proof.
  intros Hstep. induction raw as [|loc rest IH]; intros s; [done|].
  cbn [for_each foldl]. rewrite <- Hstep, <- IH.
  destruct (parse_location_returns search lower mapycz loc item geocode s)
    as (r & s1 & Hparse).
  unfold bind at 1. rewrite Hparse. cbn [snd].
  unfold bind at 1, ret.
  by destruct (for_each _ rest s1) as [[results|e] s2].
Qed.

Lemma process_state {S : Type} (mapycz : Geocode S) (item : Item)
    (geocode : option (Geocode S)) (s : S) :
  (process search lower order mapycz item geocode s).2
  = (for_each (λ loc, parse_location search lower mapycz loc item geocode)
              (default [] (locations_raw item)) s).2.
Proof.
  destruct (process_run search lower order mapycz item geocode s)
    as (results & s' & Hrun & Hprocess).
  by rewrite Hrun, Hprocess.
Qed.

Lemma foldl_snoc_calls (raw calls : list string) :
  foldl (λ calls loc, calls ++ [loc]) calls raw = calls ++ raw.
Proof.
  revert calls. induction raw as [|loc rest IH]; intros calls; simpl.
  - by rewrite app_nil_r.
  - by rewrite IH, <- app_assoc.
Qed.

Lemma foldl_snoc_calls_filter (P : string → Prop) `{∀ x, Decision (P x)}
    (raw calls : list string) :
  foldl (λ calls loc, if decide (P loc) then calls ++ [loc] else calls)
        calls raw
  = calls ++ filter P raw.
Proof.
  revert calls. induction raw as [|loc rest IH]; intros calls; simpl.
  - by rewrite app_nil_r.
  - rewrite IH. destruct (decide (P loc)).
    + by rewrite filter_cons_True, <- app_assoc.
    + by rewrite filter_cons_False.
Qed.

(** [process] geocodes every raw location once, in the order of the item,
    also a raw location that comes twice and one whose geocoding raises:
    a geocoding function that records its calls has recorded the raw
    locations when [process] returns. With the default function,
    [geocode_mapycz], the function that it decorates is called for the raw
    locations that no fast-path rule matches, and for no other. *)
Theorem process_geocodes_each_raw_location
    (f : string → Outcome (option Address)) (mapycz : Geocode (list string))
    (item : Item) (calls : list string) :
  (process search lower order mapycz item (Some (counted f)) calls).2
  = calls ++ default [] (locations_raw item)
  ∧ (process search lower order (counted f) item None calls).2
    = calls ++ filter (λ loc, first_optimization search OPTIMIZATIONS loc = None)
                      (default [] (locations_raw item)).
Proof.
  split.
  - rewrite process_state.
    rewrite (for_each_parse_state _ _ _ (λ calls loc, calls ++ [loc])).
    + apply foldl_snoc_calls.
    + intros loc s. rewrite parse_location_run. unfold counted. simpl.
      destruct (f loc) as [[address|]|e]; done.
  - rewrite process_state.
    rewrite (for_each_parse_state _ _ _
               (λ calls loc,
                  if decide (first_optimization search OPTIMIZATIONS loc = None)
                  then calls ++ [loc] else calls)).
    + apply foldl_snoc_calls_filter.
    + intros loc s. rewrite parse_location_run.
      cbv [default from_option Datatypes.id].
      unfold geocode_mapycz, optimize_geocoding.
      destruct (first_optimization search OPTIMIZATIONS loc) as [value|].
      * rewrite decide_False by done. done.
      * rewrite decide_True by done.
        unfold cached_call. rewrite lookup_empty. unfold bind, ret, counted.
        destruct (f loc) as [[address|]|e]; done.
Qed.

Lemma location_tuple_czech (city : string) :
  String.prefix "česk" (lower "Česko") = true →
  REGIONS_MAPPING !! city = None →
  location_tuple lower
    {[ "place" := city; "region" := city; "country" := "Česko" ]}
  = Returned (city, city).
Proof.
  intros Hczech Hplain. unfold location_tuple, and_then, getitem at 1.
  rewrite get_region_spec.
  assert (Hp : ({[ "place" := city; "region" := city; "country" := "Česko" ]}
                : Address) !! "place" = Some city) by done.
  assert (Hr : ({[ "place" := city; "region" := city; "country" := "Česko" ]}
                : Address) !! "region" = Some city) by done.
  assert (Hc : ({[ "place" := city; "region" := city; "country" := "Česko" ]}
                : Address) !! "country" = Some "Česko") by done.
  by rewrite Hp, Hr, Hc, Hczech, Hplain.
Qed.

Lemma first_optimization_elem rules location_raw value :
  first_optimization search rules location_raw = Some value →
  ∃ location_re, (location_re, value) ∈ rules.
Proof.
  intros Hopt.
  pose proof (first_optimization_spec search rules location_raw) as Hfirst.
  rewrite Hopt in Hfirst.
  destruct Hfirst as (earlier & location_re & later & -> & _).
  exists location_re. apply elem_of_app. right. left.
Qed.

(** A raw location that a fast-path rule matches always gives an entry
    with the default geocoding, and the entry names one of the three cities
    as both the place and the region: the hardcoded addresses have all the
    keys that [parse_location] reads, their country is Czech, and
    [REGIONS_MAPPING] leaves their regions as they are. Nothing is asked of
    the network. *)
Theorem parse_location_fast_path {S : Type} (mapycz : Geocode S)
    (location_raw : string) (item : Item) (value : Address) (s : S) :
  String.prefix "česk" (lower "Česko") = true →
  first_optimization search OPTIMIZATIONS location_raw = Some value →
  ∃ city,
    city ∈ ["Praha"; "Brno"; "Ostrava"]
    ∧ value !! "place" = Some city
    ∧ parse_location search lower mapycz location_raw item None s
      = (Returned (Some (city, city)), s).
Proof.
  intros Hczech Hopt.
  assert (Hrun : parse_location search lower mapycz location_raw item None s
                 = (Returned (if decide (value = ∅) then None
                              else match location_tuple lower value with
                                   | Returned t => Some t
                                   | Raised _ => None
                                   end), s)).
  { rewrite parse_location_run. cbv [default from_option Datatypes.id].
    unfold geocode_mapycz, optimize_geocoding. by rewrite Hopt. }
  rewrite Hrun. clear Hrun.
  destruct (first_optimization_elem _ _ _ Hopt) as (location_re & Hin).
  clear Hopt. unfold OPTIMIZATIONS in Hin. simpl in Hin.
  assert (Hfull : ∀ city : string,
            ({[ "place" := city; "region" := city; "country" := "Česko" ]}
             : Address) ≠ ∅).
  { intros city Heq. apply (f_equal (λ m : Address, m !! "place")) in Heq.
    by rewrite lookup_empty in Heq. }
  repeat (apply elem_of_cons in Hin as [[= -> ->]|Hin];
          [eexists; split;
           [|split; [reflexivity|
                     rewrite decide_False by apply Hfull;
                     rewrite location_tuple_czech by done; reflexivity]];
           apply (bool_decide_unpack _); vm_compute; exact I|]).
  by apply elem_of_nil in Hin.
Qed.

(** The region that [get_region] returns is never a name that
    [REGIONS_MAPPING] translates: what the table gives is not translated
    again, so looking the result up once more changes nothing. *)
Theorem get_region_normalised (address : Address) (region : string) :
  get_region lower address = Returned region →
  REGIONS_MAPPING !! region = None.
Proof.
  assert (Hvalues : ∀ k v, REGIONS_MAPPING !! k = Some v →
                           REGIONS_MAPPING !! v = None).
  { intros k v Hkv. unfold REGIONS_MAPPING in Hkv.
    apply elem_of_list_to_map_2 in Hkv.
    repeat (apply elem_of_cons in Hkv as [[= -> ->]|Hkv];
            [vm_compute; reflexivity|]).
    by apply elem_of_nil in Hkv. }
  assert (Hdefault : ∀ x, REGIONS_MAPPING !! default x (REGIONS_MAPPING !! x)
                          = None).
  { intros x. destruct (REGIONS_MAPPING !! x) as [v|] eqn:Hx; simpl; eauto. }
  rewrite get_region_spec.
  destruct (address !! "country") as [country|]; [|done].
  destruct (String.prefix "česk" (lower country)).
  - destruct (address !! "region") as [r|]; [|done].
    intros [= <-]. apply Hdefault.
  - intros [= <-]. apply Hdefault.
Qed.

End locations_calls.

Lemma parse_location_fast_path_witness :
  ∃ city,
    Locations.parse_location Python.search Python.lower Locations.offline
      "Praha 5" Locations.sample_item None []
    = (Locations.Returned (Some (city, city)), []).
Proof.
  destruct (parse_location_fast_path Python.search Python.lower
              Locations.offline "Praha 5" Locations.sample_item
              {[ "place" := "Praha"; "region" := "Praha";
                 "country" := "Česko" ]} [])
    as (city & _ & _ & Hparse).
  - vm_compute. reflexivity.
  - vm_compute. reflexivity.
  - exists city. exact Hparse.
Defined.

Lemma get_region_normalised_witness :
  Locations.REGIONS_MAPPING !! "Německo" = None.
Proof.
  apply (get_region_normalised Python.lower Locations.berlin).
  vm_compute. reflexivity.
Defined.

(** ** The geocoding by api.mapy.cz *)

Section mapycz_service.

Import Python Locations Mapycz.

Lemma address_types (type key : string) :
  ADDRESS_TYPES_MAPPING !! type = Some key →
  key ∈ ["place"; "region"; "country"].
Proof.
  intros Hkey. unfold ADDRESS_TYPES_MAPPING in Hkey.
  apply elem_of_list_to_map_2 in Hkey.
  repeat (apply elem_of_cons in Hkey as [[= -> ->]|Hkey];
          [apply (bool_decide_unpack _); vm_compute; exact I|]).
  by apply elem_of_nil in Hkey.
Qed.

(** The dictionary that the comprehension builds on top of [address0]: a
    key holds the name of the last item whose type stands for it. *)
Lemma address_from_lookup (items : list Element) :
  ∀ address0 address : Address,
    address_from items address0 = Returned address →
    ∀ key,
      address !! key
      = match last (filter (λ item : Element,
                              item !! "type" ≫= (ADDRESS_TYPES_MAPPING !!.)
                              = Some key) items) with
        | Some item => item !! "name"
        | None => address0 !! key
        end.
Proof.
  induction items as [|item rest IH]; intros address0 address.
  - intros [= <-] key. done.
  - cbn [address_from]. unfold getitem, and_then.
    destruct (item !! "type") as [type|] eqn:Htype; [|done].
    destruct (ADDRESS_TYPES_MAPPING !! type) as [k|] eqn:Hk.
    + destruct (item !! "name") as [n|] eqn:Hname; [|done].
      intros Hrest key. rewrite (IH _ _ Hrest key).
      destruct (decide (k = key)) as [->|Hne].
      * rewrite filter_cons_True by (rewrite Htype; simpl; by rewrite Hk).
        rewrite last_cons_match.
        destruct (last _); [done|]. by rewrite lookup_insert_eq.
      * rewrite filter_cons_False
          by (rewrite Htype; simpl; rewrite Hk; congruence).
        destruct (last _); [done|]. by rewrite lookup_insert_ne.
    + intros Hrest key. rewrite (IH _ _ Hrest key).
      by rewrite filter_cons_False by (rewrite Htype; simpl; by rewrite Hk).
Qed.

Lemma address_from_returns (items : list Element) :
  Forall (λ item : Element, is_Some (item !! "type")
                            ∧ is_Some (item !! "name")) items →
  ∀ address0, ∃ address, address_from items address0 = Returned address.
Proof.
  induction 1 as [|item rest [[type Htype] [n Hname]] _ IH]; intros address0.
  - by exists address0.
  - cbn [address_from]. unfold getitem, and_then. rewrite Htype, Hname.
    destruct (ADDRESS_TYPES_MAPPING !! type); apply IH.
Qed.

(** The address that the reverse geocoding makes of the items of a
    response, when every item has a type and a name: it has no other keys
    than the place, the region and the country, and each of these is the
    name of the last item whose type stands for it, be it a type of Mapy.cz
    or of OpenStreetMap; items of other types are left out. *)
Theorem address_from_items (items : list Element) :
  Forall (λ item : Element, is_Some (item !! "type")
                            ∧ is_Some (item !! "name")) items →
  ∃ address : Address,
    address_from items ∅ = Returned address
    ∧ (∀ key name,
         address !! key = Some name → key ∈ ["place"; "region"; "country"])
    ∧ (∀ key,
         address !! key
         = last (filter (λ item : Element,
                           item !! "type" ≫= (ADDRESS_TYPES_MAPPING !!.)
                           = Some key) items)
           ≫= (.!! "name")).
Proof.
  intros Hitems.
  destruct (address_from_returns items Hitems ∅) as [address Haddress].
  exists address. split; [done|].
  assert (Hlookup : ∀ key,
            address !! key
            = last (filter (λ item : Element,
                              item !! "type" ≫= (ADDRESS_TYPES_MAPPING !!.)
                              = Some key) items)
              ≫= (.!! "name")).
  { intros key. rewrite (address_from_lookup _ _ _ Haddress key).
    destruct (last _); [done|]. by rewrite lookup_empty. }
  split; [|done].
  intros key name. rewrite Hlookup.
  destruct (last _) as [item|] eqn:Hlast; [|done]. intros _.
  apply last_Some_elem_of, list_elem_of_filter in Hlast as [Hkey _].
  destruct (item !! "type") as [type|]; [|done].
  by apply (address_types type).
Qed.

Context {S : Type}.
Variable request : string → list (string * option string) → S → Response * S.

(** The results of [geocode_mapycz], before the decoration. It returns
    [None] exactly when the first request finds no item, and then makes no
    second request. It returns an address only after both requests have been
    answered with items, and the second request asks for the coordinates of
    the first item found. A [RequestException] of either request is raised
    as a [GeocodeError]. *)
Theorem geocode_mapycz_body_result (location_raw : string) (s : S) :
  let first := request "https://api.mapy.cz/geocode"
                 [("query", Some location_raw)] s in
  let second := λ item : Element,
    request "https://api.mapy.cz/rgeocode"
      [("lat", item !! "y"); ("lon", item !! "x")] first.2 in
  ((geocode_mapycz_body request location_raw s).1 = Returned None
   ↔ first.1 = Items [])
  ∧ (first.1 = Items [] →
     (geocode_mapycz_body request location_raw s).2 = first.2)
  ∧ (∀ address,
       (geocode_mapycz_body request location_raw s).1
       = Returned (Some address) →
       ∃ item rest items,
         first.1 = Items (item :: rest)
         ∧ (second item).1 = Items items
         ∧ items ≠ []
         ∧ address_from items ∅ = Returned address
         ∧ (geocode_mapycz_body request location_raw s).2 = (second item).2)
  ∧ ((∃ message, first.1 = RequestException message)
     ∨ (∃ item rest message,
          first.1 = Items (item :: rest)
          ∧ (second item).1 = RequestException message) →
     ∃ message,
       (geocode_mapycz_body request location_raw s).1
       = Raised (GeocodeError message)).
Proof.
  intros first second. subst second. subst first.
  unfold geocode_mapycz_body.
  destruct (request "https://api.mapy.cz/geocode" _ s)
    as [[[|item rest]|message|e] s1]; cbn [fst snd].
  - split; [done|]. split; [done|]. split; [done|].
    intros [[message [=]]|(item & rest & message & [=] & _)].
  - destruct (request "https://api.mapy.cz/rgeocode" _ s1)
      as [[[|item' items]|message|e] s2] eqn:Hsecond; cbn [fst snd].
    + split; [done|]. split; [done|]. split; [done|].
      intros [[message [=]]|(? & ? & message & [= <- <-] & Hfails)].
      by rewrite Hsecond in Hfails.
    + split; [|split; [done|split]].
      * split; [|done].
        by destruct (address_from (item' :: items) ∅).
      * intros address Haddress. exists item, rest, (item' :: items).
        rewrite Hsecond.
        split; [done|]. split; [done|]. split; [done|]. split; [|done].
        destruct (address_from (item' :: items) ∅); simpl in Haddress;
          congruence.
      * intros [[message [=]]|(? & ? & message & [= <- <-] & Hfails)].
        by rewrite Hsecond in Hfails.
    + split; [done|]. split; [done|]. split; [done|]. intros _. eauto.
    + split; [done|]. split; [done|]. split; [done|].
      intros [[message [=]]|(? & ? & message & [= <- <-] & Hfails)].
      by rewrite Hsecond in Hfails.
  - split; [done|]. split; [done|]. split; [done|]. intros _. eauto.
  - split; [done|]. split; [done|]. split; [done|].
    intros [[message' [=]]|(? & ? & message' & [=] & _)].
Qed.

End mapycz_service.

Lemma address_from_items_witness :
  ∃ address : Locations.Address,
    Mapycz.address_from
      [ {[ "type" := "muni"; "name" := "Plzeň" ]};
        {[ "type" := "dist"; "name" := "Plzeň-město" ]};
        {[ "type" := "regi"; "name" := "Plzeňský kraj" ]};
        {[ "type" := "osmr"; "name" := "Jihozápad" ]} ] ∅
    = Locations.Returned address
    ∧ address !! "region" = Some "Jihozápad"
    ∧ address !! "country" = None.
Proof.
  destruct (address_from_items
              [ {[ "type" := "muni"; "name" := "Plzeň" ]};
                {[ "type" := "dist"; "name" := "Plzeň-město" ]};
                {[ "type" := "regi"; "name" := "Plzeňský kraj" ]};
                {[ "type" := "osmr"; "name" := "Jihozápad" ]} ])
    as (address & Haddress & _ & Hlookup).
  - apply (bool_decide_unpack _). vm_compute. exact I.
  - exists address. split; [exact Haddress|].
    split; rewrite Hlookup; vm_compute; reflexivity.
Defined.

Lemma geocode_mapycz_body_result_witness :
  (Mapycz.geocode_mapycz_body (Mapycz.recorded Mapycz.sample_answer)
     "Atlantis" []).2
  = [("https://api.mapy.cz/geocode", [("query", Some "Atlantis")])]
  ∧ ∃ message,
      (Mapycz.geocode_mapycz_body (Mapycz.recorded Mapycz.sample_answer)
         "Timeout" []).1
      = Locations.Raised (Locations.GeocodeError message).
Proof.
  split.
  - destruct (geocode_mapycz_body_result
                (Mapycz.recorded Mapycz.sample_answer) "Atlantis" [])
      as (_ & Hstate & _).
    rewrite Hstate; reflexivity.
  - destruct (geocode_mapycz_body_result
                (Mapycz.recorded Mapycz.sample_answer) "Timeout" [])
      as (_ & _ & _ & Hfails).
    apply Hfails. left. exists "timed out". reflexivity.
Defined.

(** ** The requests of the locations stage *)

Section locations_requests.

Import Python Locations Mapycz.

Variable search : Pattern → string → bool.
Variable lower : string → string.
Variable order : SetOrder (string * string).

Lemma parse_location_state {S : Type} (mapycz : Geocode S)
    (location_raw : string) (item : Item) (geocode : option (Geocode S))
    (s : S) :
  (parse_location search lower mapycz location_raw item geocode s).2
  = (default (geocode_mapycz search mapycz) geocode location_raw s).2.
Proof.
  rewrite parse_location_run.
  by destruct (default (geocode_mapycz search mapycz) geocode location_raw s)
    as [[[address|]|e] s1].
Qed.

Lemma foldl_app_bind {A B : Type} (f : A → list B) (l : list A) :
  ∀ acc, foldl (λ acc x, acc ++ f x) acc l = acc ++ (l ≫= f).
Proof.
  induction l as [|x l IH]; intros acc; simpl.
  - by rewrite app_nil_r.
  - by rewrite IH, <- app_assoc.
Qed.

(** The requests that [process] makes with the default geocoding, when the
    service records them: for each raw location that no fast-path rule
    matches, in the order of the item, one geocoding of the raw location,
    followed by one reverse geocoding of the first item found when there is
    one; for a raw location of the fast path, none. So there are at most
    two requests for each raw location, and a raw location that comes twice
    is asked for twice. *)
Theorem process_requests
    (answer : string → list (string * option string) → Response)
    (item : Item) (requests : list (string * list (string * option string))) :
  let requests_for := λ location_raw,
    match first_optimization search OPTIMIZATIONS location_raw with
    | Some _ => []
    | None =>
        ("https://api.mapy.cz/geocode", [("query", Some location_raw)])
        :: match answer "https://api.mapy.cz/geocode"
                   [("query", Some location_raw)] with
           | Items (found :: _) =>
               [("https://api.mapy.cz/rgeocode",
                 [("lat", found !! "y"); ("lon", found !! "x")])]
           | _ => []
           end
    end in
  (process search lower order (geocode_mapycz_body (recorded answer))
     item None requests).2
  = requests ++ (default [] (locations_raw item) ≫= requests_for)
  ∧ (length (process search lower order (geocode_mapycz_body (recorded answer))
               item None requests).2
     ≤ length requests + 2 * length (default [] (locations_raw item)))%nat.
Proof.
  intros requests_for.
  assert (Hstate :
    (process search lower order (geocode_mapycz_body (recorded answer))
       item None requests).2
    = requests ++ (default [] (locations_raw item) ≫= requests_for)).
  { rewrite process_state.
    rewrite (for_each_parse_state _ _ _ _ _
               (λ requests loc, requests ++ requests_for loc)).
    - apply foldl_app_bind.
    - intros loc s. rewrite parse_location_state.
      cbv [default from_option Datatypes.id].
      unfold geocode_mapycz, optimize_geocoding. subst requests_for.
      cbv beta.
      destruct (first_optimization search OPTIMIZATIONS loc) as [value|].
      + by rewrite app_nil_r.
      + rewrite (proj2 (cached_call_fresh _ loc s)).
        unfold geocode_mapycz_body, recorded.
        destruct (answer "https://api.mapy.cz/geocode" _)
          as [[|found rest]|message|e]; cbn [snd]; try done.
        destruct (answer "https://api.mapy.cz/rgeocode" _)
          as [[|item' items]|message|e]; cbn [snd];
          by rewrite <- app_assoc. }
  split; [exact Hstate|].
  rewrite Hstate, length_app. apply Nat.add_le_mono_l. clear Hstate.
  induction (default [] (locations_raw item)) as [|loc rest IH]; [done|].
  cbn [mbind list_bind length]. rewrite length_app.
  assert (length (requests_for loc) ≤ 2)%nat;
    [|unfold mbind in IH |- *; lia].
  subst requests_for. cbv beta.
  destruct (first_optimization search OPTIMIZATIONS loc); [simpl; lia|].
  destruct (answer "https://api.mapy.cz/geocode" _)
    as [[|found ?]|?|?]; simpl; lia.
Qed.

End locations_requests.

(** ** The role of the members of the partners *)

Lemma elem_of_coupons (partners_coupons : list (option string)) (code : string) :
  code ∈ PartnerMembers.coupons partners_coupons
  ↔ code ≠ EmptyString ∧ Some code ∈ partners_coupons.
Proof.
  unfold PartnerMembers.coupons. rewrite list_elem_of_omap. split.
  - intros ([c|] & Hin & Hsome); simpl in Hsome; [|done].
    destruct (bool_decide (c = EmptyString)) eqn:Hempty; simpl in Hsome;
      [done|].
    injection Hsome as ->. split; [|done].
    by apply bool_decide_eq_false in Hempty.
  - intros [Hne Hin]. exists (Some code). split; [done|]. simpl.
    by rewrite bool_decide_false.
Qed.

Lemma elem_of_partners_members_ids members coupon partners_coupons member_id :
  member_id ∈ PartnerMembers.partners_members_ids members coupon partners_coupons
  ↔ ∃ member code,
      member ∈ members ∧ id member = member_id
      ∧ coupon member = Some code
      ∧ code ≠ EmptyString ∧ Some code ∈ partners_coupons.
Proof.
  unfold PartnerMembers.partners_members_ids. rewrite list_elem_of_fmap. split.
  - intros (member & -> & Hin). apply list_elem_of_filter in Hin as [Hc Hin].
    unfold PartnerMembers.coupon_in in Hc.
    destruct (coupon member) as [code|] eqn:Hcode; [|done].
    apply bool_decide_unpack, elem_of_coupons in Hc as [Hne Hp].
    by exists member, code.
  - intros (member & code & Hin & <- & Hcode & Hne & Hp).
    exists member. split; [done|]. apply list_elem_of_filter. split; [|done].
    unfold PartnerMembers.coupon_in. rewrite Hcode.
    apply bool_decide_pack, elem_of_coupons. done.
Qed.

(** The role [partner] is given only to a member whose coupon is the coupon
    of a partner, and a coupon that is not set or empty never counts, also
    when a partner has no coupon or an empty one: a member without a coupon
    who holds the role loses it. *)
Theorem partner_changes_need_coupon
    (members : list ClubUser) (coupon : ClubUser → option string)
    (partners_coupons : list (option string)) (role_id : Z) :
  (∀ member_id r,
     (member_id, add, r)
       ∈ PartnerMembers.partner_changes members coupon partners_coupons role_id →
     r = role_id
     ∧ ∃ member code,
         member ∈ members ∧ id member = member_id
         ∧ coupon member = Some code
         ∧ code ≠ EmptyString ∧ Some code ∈ partners_coupons)
  ∧ (∀ member,
       member ∈ members →
       role_id ∈ initial_roles member →
       (∀ other, other ∈ members → id other = id member →
                 PartnerRoles.has_coupon (coupon other) = false) →
       (id member, remove, role_id)
         ∈ PartnerMembers.partner_changes members coupon partners_coupons
             role_id).
Proof.
  split.
  - intros member_id r Hin. unfold PartnerMembers.partner_changes in Hin.
    apply list_elem_of_bind in Hin as (member & Hin & _).
    apply elem_of_evaluate_changes in Hin as (-> & -> & Hid & _).
    split; [done|]. by apply elem_of_partners_members_ids.
  - intros member Hin Hrole Hnone. unfold PartnerMembers.partner_changes.
    apply list_elem_of_bind. exists member. split; [|done].
    apply elem_of_evaluate_changes. split; [done|]. split; [done|].
    split; [|done]. intros Hid.
    apply elem_of_partners_members_ids in Hid
      as (other & code & Hother & Hsame & Hcode & Hne & _).
    specialize (Hnone other Hother Hsame). rewrite Hcode in Hnone.
    simpl in Hnone. by rewrite bool_decide_false in Hnone.
Qed.

Lemma partner_changes_need_coupon_witness :
  (2, remove, 7)
    ∈ PartnerMembers.partner_changes PartnerMembers.sample_members
        PartnerMembers.sample_coupon PartnerMembers.sample_partners_coupons 7.
Proof.
  destruct (partner_changes_need_coupon PartnerMembers.sample_members
              PartnerMembers.sample_coupon
              PartnerMembers.sample_partners_coupons 7) as [_ Hremove].
  apply (Hremove {| id := 2; initial_roles := [7] |}).
  - right. left.
  - left.
  - intros other Hother Hsame.
    apply elem_of_cons in Hother as [->|Hother]; [done|].
    apply elem_of_cons in Hother as [->|Hother]; [reflexivity|].
    by apply elem_of_nil in Hother.
Defined.

(** ** The field that the blocklist reads *)

Section blocklist_title.

Import Python Blocklist.

Variable search : Pattern → string → bool.
Variable repr : string → string.

Lemma scan_same_values (rules : list (string * Pattern)) (item item' : Item) :
  (∀ field value_re, (field, value_re) ∈ rules →
                     get_or_empty item field = get_or_empty item' field) →
  match scan search repr rules item, scan search repr rules item' with
  | Returned kept, Returned kept' => kept = item ∧ kept' = item'
  | DropItem message, DropItem message' => message = message'
  | _, _ => False
  end.
Proof.
  induction rules as [|[field value_re] rest IH]; intros Hsame; simpl.
  - done.
  - rewrite <- (Hsame field value_re) by left.
    destruct (search value_re (get_or_empty item field)); [done|].
    apply IH. intros f p Hin. apply (Hsame f p). by right.
Qed.

(** The rules of the blocklist read the title and nothing else: two items
    with the same title (a missing or falsy title being the same as an empty
    one) are both kept as they are or both dropped, with the same message,
    whatever their other fields. *)
Theorem blocklist_reads_title_only (item item' : Item) :
  get_or_empty item "title" = get_or_empty item' "title" →
  match process search repr item, process search repr item' with
  | Returned kept, Returned kept' => kept = item ∧ kept' = item'
  | DropItem message, DropItem message' => message = message'
  | _, _ => False
  end.
Proof.
  intros Htitle. unfold process. apply scan_same_values.
  intros field value_re Hin. unfold BLOCKLIST in Hin.
  repeat (apply elem_of_cons in Hin as [[= -> ->]|Hin]; [done|]).
  by apply elem_of_nil in Hin.
Qed.

End blocklist_title.

Lemma blocklist_reads_title_only_witness :
  match Blocklist.process Python.search Python.repr
          (<[ "company_name" := Blocklist.VStr "Elektro s.r.o." ]>
             Blocklist.sample_kept),
        Blocklist.process Python.search Python.repr Blocklist.sample_kept with
  | Blocklist.Returned kept, Blocklist.Returned kept' =>
      kept = <[ "company_name" := Blocklist.VStr "Elektro s.r.o." ]>
               Blocklist.sample_kept
      ∧ kept' = Blocklist.sample_kept
  | Blocklist.DropItem message, Blocklist.DropItem message' =>
      message = message'
  | _, _ => False
  end.
Proof.
  apply (blocklist_reads_title_only Python.search Python.repr
           (<[ "company_name" := Blocklist.VStr "Elektro s.r.o." ]>
              Blocklist.sample_kept)
           Blocklist.sample_kept).
  reflexivity.
Defined.

(** An item without a title, or with an empty one, is never dropped: no
    pattern of the blocklist matches the empty string. *)
Theorem blocklist_keeps_untitled (repr : string → string)
    (item : Blocklist.Item) :
  Blocklist.get_or_empty item "title" = EmptyString →
  Blocklist.process Python.search repr item = Blocklist.Returned item.
Proof.
  intros Htitle. unfold Blocklist.process.
  pose proof (scan_spec Python.search repr Blocklist.BLOCKLIST item) as Hscan.
  destruct (Blocklist.scan Python.search repr Blocklist.BLOCKLIST item)
    as [kept|message].
  - by destruct Hscan as [-> _].
  - destruct Hscan as (earlier & field & value_re & later & Hrules & _ & Hhit & _).
    assert (Hin : (field, value_re) ∈ Blocklist.BLOCKLIST).
    { rewrite Hrules. apply elem_of_app. right. left. }
    unfold Blocklist.BLOCKLIST in Hin.
    repeat (apply elem_of_cons in Hin as [[= -> ->]|Hin];
            [rewrite Htitle in Hhit; vm_compute in Hhit; discriminate Hhit|]).
    by apply elem_of_nil in Hin.
Qed.

Lemma blocklist_keeps_untitled_witness :
  Blocklist.process Python.search Python.repr
    {[ "company_name" := Blocklist.VStr "Elektro s.r.o." ]}
  = Blocklist.Returned {[ "company_name" := Blocklist.VStr "Elektro s.r.o." ]}.
Proof.
  apply (blocklist_keeps_untitled Python.repr
           {[ "company_name" := Blocklist.VStr "Elektro s.r.o." ]}).
  reflexivity.
Defined.

Lemma process_geocodes_each_raw_location_witness :
  (Locations.process Python.search Python.lower Locations.first_seen
     Locations.offline Locations.sample_item
     (Some (Locations.counted Locations.sample_geocode)) []).2
  = ["Berlin"; "Nowhere"; "Plzen"; "Berlin, Germany"; "Praha 5"]
  ∧ (Locations.process Python.search Python.lower Locations.first_seen
       (Locations.counted Locations.sample_geocode) Locations.sample_item
       None []).2
    = ["Berlin"; "Nowhere"; "Plzen"; "Berlin, Germany"].
Proof.
  destruct (process_geocodes_each_raw_location Python.search Python.lower
              Locations.first_seen Locations.sample_geocode Locations.offline
              Locations.sample_item []) as [Hgiven Hdefault].
  split.
  - rewrite Hgiven. reflexivity.
  - rewrite Hdefault. vm_compute. reflexivity.
Defined.

Lemma process_requests_witness :
  (Locations.process Python.search Python.lower Locations.first_seen
     (Mapycz.geocode_mapycz_body (Mapycz.recorded Mapycz.sample_answer))
     {| Locations.title := None; Locations.company_name := None;
        Locations.locations_raw := Some ["Plzen"; "Praha 1"; "Atlantis"];
        Locations.locations := None |}
     None []).2
  = [ ("https://api.mapy.cz/geocode", [("query", Some "Plzen")]);
      ("https://api.mapy.cz/rgeocode",
       [("lat", Some "49.74"); ("lon", Some "13.37")]);
      ("https://api.mapy.cz/geocode", [("query", Some "Atlantis")]) ].
Proof.
  destruct (process_requests Python.search Python.lower Locations.first_seen
              Mapycz.sample_answer
              {| Locations.title := None; Locations.company_name := None;
                 Locations.locations_raw :=
                   Some ["Plzen"; "Praha 1"; "Atlantis"];
                 Locations.locations := None |} []) as [Hrequests _].
  rewrite Hrequests. vm_compute. reflexivity.
Defined.

(** The item that the stage makes of a raw location of Plzeň, with the
    service of the sample: the region of the last item that stands for a
    region is not in [REGIONS_MAPPING] and is kept as it is. *)
Example process_sample_answer :
  (Locations.process Python.search Python.lower Locations.first_seen
     (Mapycz.geocode_mapycz_body (Mapycz.recorded Mapycz.sample_answer))
     {| Locations.title := None; Locations.company_name := None;
        Locations.locations_raw := Some ["Plzen"; "Praha 1"; "Atlantis"];
        Locations.locations := None |}
     None []).1
  = Locations.Returned
      {| Locations.title := None; Locations.company_name := None;
         Locations.locations_raw := Some ["Plzen"; "Praha 1"; "Atlantis"];
         Locations.locations :=
           Some [ {| Locations.name := "Plzeň";
                     Locations.region := "Jihozápad" |};
                  {| Locations.name := "Praha";
                     Locations.region := "Praha" |} ] |}.
Proof. vm_compute. reflexivity. Qed.
